(** * Document vectorization and job queue: a shallow embedding

    Embedding of [backend/src/services/vectorService.ts] and
    [backend/src/services/queueService.ts].

    Conventions.
    - A JavaScript string is the list of its UTF-16 code units ([jsstring]);
      [text.length] is the length of that list.
    - Integral JavaScript numbers (offsets, indices, counters, limits) are [Z].
    - Embedding components and similarity scores are IEEE doubles in the
      source; they are idealised as real numbers ([R]), with [NaN] kept as an
      explicit value of [jsnum] where the source can produce it (0/0).
    - Calls to collaborators that can throw (embedding API, database, file
      system) take their outcome from an explicit oracle. *)

From Stdlib Require Import ZArith List Bool Lia String Ascii Reals Lra
  Sorting.Sorted Sorting.Permutation DecimalPos.
Import ListNotations.

Local Open Scope Z_scope.

(* ================================================================== *)
(** ** JavaScript strings and arrays                                   *)
(* ================================================================== *)

Module Js.

Definition jsstring := list Z.

(** A string literal of the source, as code units. *)
Definition lit (s : string) : jsstring :=
  map (fun a => Z.of_N (N_of_ascii a)) (list_ascii_of_string s).

Definition len {A : Type} (l : list A) : Z := Z.of_nat (List.length l).

Definition jsstring_eq_dec : forall a b : jsstring, {a = b} + {a <> b} :=
  list_eq_dec Z.eq_dec.

Definition streq (a b : jsstring) : bool :=
  if jsstring_eq_dec a b then true else false.

(** WhiteSpace and LineTerminator code units: what [String.prototype.trim]
    strips and what the regular expression class [\s] matches. *)
Definition isWhiteSpace (c : Z) : bool :=
  ((9 <=? c) && (c <=? 13))
  || (c =? 32) || (c =? 160) || (c =? 5760)
  || ((8192 <=? c) && (c <=? 8202))
  || (c =? 8232) || (c =? 8233) || (c =? 8239) || (c =? 8287)
  || (c =? 12288) || (c =? 65279).

Fixpoint dropWhile {A : Type} (p : A -> bool) (l : list A) : list A :=
  match l with
  | [] => []
  | x :: r => if p x then dropWhile p r else l
  end.

Definition trimStart (s : jsstring) : jsstring := dropWhile isWhiteSpace s.
Definition trimEnd (s : jsstring) : jsstring :=
  rev (dropWhile isWhiteSpace (rev s)).

(** [s.trim()] *)
Definition trim (s : jsstring) : jsstring := trimEnd (trimStart s).

(** Relative index of [Array.prototype.slice] / [String.prototype.slice]:
    a negative index counts from the end, and the result is clamped to
    [0, n]. *)
Definition relIndex (n i : Z) : Z :=
  if i <? 0 then Z.max (n + i) 0 else Z.min i n.

(** [a.slice(start, end)], for strings and for arrays. *)
Definition slice {A : Type} (l : list A) (start end_ : Z) : list A :=
  let from := relIndex (len l) start in
  let to := relIndex (len l) end_ in
  firstn (Z.to_nat (to - from)) (skipn (Z.to_nat from) l).

(** Index of the last element of [l] equal to [ch], counting from [i];
    [acc] when there is none. *)
Fixpoint lastIndexFrom (ch : Z) (l : list Z) (i acc : Z) : Z :=
  match l with
  | [] => acc
  | c :: r => lastIndexFrom ch r (i + 1) (if c =? ch then i else acc)
  end.

(** [text.lastIndexOf(ch, fromIndex)] for a one-unit search string: the
    greatest index [k <= clamp(fromIndex, 0, length - 1)] holding [ch],
    or [-1]. *)
Definition lastIndexOf (text : jsstring) (ch : Z) (fromIndex : Z) : Z :=
  let start := Z.min (Z.max fromIndex 0) (len text - 1) in
  lastIndexFrom ch (firstn (Z.to_nat (start + 1)) text) 0 (-1).

(** [regex.test(text)] for a one-character class given by [cls]. *)
Definition testClass (cls : Z -> bool) (text : jsstring) : bool :=
  existsb cls text.

(** [\d], [[A-Z]] and [[.,!?;:]] *)
Definition isDigit (c : Z) : bool := (48 <=? c) && (c <=? 57).
Definition isUpper (c : Z) : bool := (65 <=? c) && (c <=? 90).
Definition isPunct (c : Z) : bool :=
  (c =? 46) || (c =? 44) || (c =? 33) || (c =? 63) || (c =? 59) || (c =? 58).

(** [text.split(/\s+/)]: the pieces between maximal runs of white space.
    [inws] tells that the previous unit was white space (its piece is
    already emitted); [cur] is the piece being read. *)
Fixpoint splitWs (inws : bool) (cur : jsstring) (s : jsstring)
  : list jsstring :=
  match s with
  | [] => [cur]
  | c :: r =>
      if isWhiteSpace c
      then (if inws then splitWs true cur r else cur :: splitWs true [] r)
      else splitWs false (cur ++ [c]) r
  end.

Definition split_ws (text : jsstring) : list jsstring :=
  splitWs false [] text.

(** Decimal digits of a non-negative integer, as code units. *)
Fixpoint uintUnits (d : Decimal.uint) : jsstring :=
  match d with
  | Decimal.Nil => []
  | Decimal.D0 r => 48 :: uintUnits r
  | Decimal.D1 r => 49 :: uintUnits r
  | Decimal.D2 r => 50 :: uintUnits r
  | Decimal.D3 r => 51 :: uintUnits r
  | Decimal.D4 r => 52 :: uintUnits r
  | Decimal.D5 r => 53 :: uintUnits r
  | Decimal.D6 r => 54 :: uintUnits r
  | Decimal.D7 r => 55 :: uintUnits r
  | Decimal.D8 r => 56 :: uintUnits r
  | Decimal.D9 r => 57 :: uintUnits r
  end.

(** [String(n)] for an integral number, as a template literal renders it. *)
Definition numberToString (n : Z) : jsstring :=
  match n with
  | Z0 => [48]
  | Zpos p => uintUnits (Pos.to_uint p)
  | Zneg p => 45 :: uintUnits (Pos.to_uint p)
  end.

(** What [Array.prototype.sort] does with the number its comparator
    returns: negative puts the first argument first, positive the second,
    zero and [NaN] leave the two in their relative order. *)
Section Sort.
Context {A : Type}.
Variable cmp : A -> A -> comparison.

Fixpoint insertSorted (x : A) (l : list A) : list A :=
  match l with
  | [] => [x]
  | y :: r =>
      match cmp x y with
      | Gt => y :: insertSorted x r
      | _ => x :: l
      end
  end.

(** [a.sort(cmp)]: the sort is stable (ECMAScript 2019); for a
    consistent comparator the result is the same for every stable
    algorithm, and it is computed here by insertion. *)
Definition sort (l : list A) : list A := fold_right insertSorted [] l.
End Sort.

(** A number that may be [NaN]: the similarity scores.  The doubles of
    the source are idealised as reals. *)
Inductive jsnum : Type :=
| Num (r : R)
| NaN.

(** [a - b] *)
Definition jsSub (a b : jsnum) : jsnum :=
  match a, b with
  | Num x, Num y => Num (x - y)
  | _, _ => NaN
  end.

(** [x / y] for a numerator that is zero whenever the denominator is:
    [0 / 0] is [NaN]. *)
Definition jsDiv (x y : R) : jsnum :=
  if Req_dec_T y 0 then NaN else Num (x / y).

(** How [sort] reads the value of its comparator. *)
Definition sortOrder (v : jsnum) : comparison :=
  match v with
  | NaN => Eq
  | Num r => if Rlt_dec r 0 then Lt else if Rlt_dec 0 r then Gt else Eq
  end.

(** [x || null] / [x || undefined] on an optional number: zero is falsy. *)
Definition orNull (x : option Z) : option Z :=
  match x with
  | Some 0 => None
  | _ => x
  end.

(** A [Map] with string keys, in insertion order. *)
Section Map.
Context {V : Type}.
Definition jsmap := list (jsstring * V).

Fixpoint mapGet (k : jsstring) (m : jsmap) : option V :=
  match m with
  | [] => None
  | (k', v) :: r => if streq k' k then Some v else mapGet k r
  end.

(** [m.set(k, v)]: an existing key keeps its place. *)
Fixpoint mapSet (k : jsstring) (v : V) (m : jsmap) : jsmap :=
  match m with
  | [] => [(k, v)]
  | (k', v') :: r =>
      if streq k' k then (k, v) :: r else (k', v') :: mapSet k v r
  end.

(** [m.delete(k)] *)
Definition mapDelete (k : jsstring) (m : jsmap) : jsmap :=
  filter (fun e => negb (streq (fst e) k)) m.

(** [m.values()] *)
Definition mapValues (m : jsmap) : list V := map snd m.
End Map.
Arguments jsmap V : clear implicits.

(** The result of a call that may throw; [Thrown] carries the message of
    the error. *)
Inductive outcome (A : Type) : Type :=
| Returned (a : A)
| Thrown (message : jsstring).
Arguments Returned {A} a.
Arguments Thrown {A} message.

End Js.

Import Js.

(* ================================================================== *)
(** ** VectorService                                                  *)
(* ================================================================== *)

Module VectorService.

(* ---------------------------------------------------------------- *)
(** *** Text splitting                                                *)
(* ---------------------------------------------------------------- *)

Definition CHUNK_SIZE : Z := 1000.
Definition CHUNK_OVERLAP : Z := 200.
Definition EMBEDDING_DIMENSION : nat := 1536.

(** The break point searched by one iteration of the loop of [splitText]:
    [Math.max(lastPeriod, lastNewline, lastSpace)] from [end]. *)
Definition breakPoint (text : jsstring) (end_ : Z) : Z :=
  let lastPeriod := lastIndexOf text 46 end_ in
  let lastNewline := lastIndexOf text 10 end_ in
  let lastSpace := lastIndexOf text 32 end_ in
  Z.max (Z.max lastPeriod lastNewline) lastSpace.

(** Whether the iteration starting at [start] moves its window end to a
    break point: [end < text.length] and
    [breakPoint > start + CHUNK_SIZE * 0.5]. *)
Definition snapped (text : jsstring) (start : Z) : bool :=
  let end_ := start + CHUNK_SIZE in
  (end_ <? len text) && (start + CHUNK_SIZE / 2 <? breakPoint text end_).

(** The value of [end] when the chunk is pushed. *)
Definition windowEnd (text : jsstring) (start : Z) : Z :=
  let end_ := start + CHUNK_SIZE in
  if snapped text start then breakPoint text end_ + 1 else end_.

(** The value of [start] after the iteration: [end - CHUNK_OVERLAP]. *)
Definition nextStart (text : jsstring) (start : Z) : Z :=
  windowEnd text start - CHUNK_OVERLAP.

(** The [while (start < text.length)] loop; [None] when [fuel] iterations
    were not enough to leave it. *)
Fixpoint splitLoop (fuel : nat) (text : jsstring) (start : Z)
         (chunks : list jsstring) : option (list jsstring) :=
  if start <? len text then
    match fuel with
    | O => None
    | S fuel' =>
        let end_ := windowEnd text start in
        splitLoop fuel' text (end_ - CHUNK_OVERLAP)
                  (chunks ++ [trim (slice text start end_)])
    end
  else Some chunks.

Definition nonEmpty (chunk : jsstring) : bool := 0 <? len chunk.

(** [splitText(text)], the loop being given [fuel] iterations. *)
Definition splitText_fuel (fuel : nat) (text : jsstring)
  : option (list jsstring) :=
  if len text =? 0 then Some []
  else option_map (filter nonEmpty) (splitLoop fuel text 0 []).

(** [splitText(text)]: one iteration per code unit is always enough
    (see [splitLoop_enough_fuel]). *)
Definition splitText (text : jsstring) : option (list jsstring) :=
  splitText_fuel (List.length text) text.

(* ---------------------------------------------------------------- *)
(** *** Embeddings                                                    *)
(* ---------------------------------------------------------------- *)

Definition embedding := list R.

(** [e[i] = v], for an index inside the array (every index written by
    [generateMockEmbedding] is below [EMBEDDING_DIMENSION], so the array
    never grows). *)
Fixpoint arraySet (e : embedding) (i : nat) (v : R) : embedding :=
  match e, i with
  | [], _ => []
  | _ :: r, O => v :: r
  | x :: r, S i' => x :: arraySet r i' v
  end.

Definition charCodeAt (text : jsstring) (i : nat) : Z := nth i text 0.

(** The first loop of [generateMockEmbedding]:
    [embedding[i] = Math.sin(charCode * (i + 1)) * 0.1] for
    [i < text.length && i < EMBEDDING_DIMENSION]. *)
Definition fillFromText (text : jsstring) (e : embedding) : embedding :=
  fold_left
    (fun e i =>
       arraySet e i
         (sin (IZR (charCodeAt text i * (Z.of_nat i + 1))) * (1 / 10))%R)
    (seq 0 (Nat.min (List.length text) EMBEDDING_DIMENSION)) e.

Module TextFeatures.
Record t : Type := {
  length : Z;
  wordCount : Z;
  hasNumbers : bool;
  hasUpperCase : bool;
  hasPunctuation : bool
}.
End TextFeatures.

Definition textFeatures (text : jsstring) : TextFeatures.t := {|
  TextFeatures.length := len text;
  TextFeatures.wordCount := len (split_ws text);
  TextFeatures.hasNumbers := testClass isDigit text;
  TextFeatures.hasUpperCase := testClass isUpper text;
  TextFeatures.hasPunctuation := testClass isPunct text
|}.

Definition indicator (b : bool) : R := if b then (1 / 2)%R else (- (1 / 2))%R.

(** The array of [generateMockEmbedding] before it is normalised. *)
Definition featureEmbedding (text : jsstring) : embedding :=
  let e := repeat 0%R EMBEDDING_DIMENSION in
  let e := fillFromText text e in
  let f := textFeatures text in
  let e := arraySet e 0 (tanh (IZR (TextFeatures.length f) / 1000)) in
  let e := arraySet e 1 (tanh (IZR (TextFeatures.wordCount f) / 100)) in
  let e := arraySet e 2 (indicator (TextFeatures.hasNumbers f)) in
  let e := arraySet e 3 (indicator (TextFeatures.hasUpperCase f)) in
  let e := arraySet e 4 (indicator (TextFeatures.hasPunctuation f)) in
  e.

(** [embedding.reduce((sum, val) => sum + val * val, 0)] *)
Definition sumSquares (e : embedding) : R :=
  fold_left (fun sum val => (sum + val * val)%R) e 0%R.

(** [Math.sqrt(embedding.reduce(...))] *)
Definition norm (e : embedding) : R := sqrt (sumSquares e).

(** [embedding.map(val => norm > 0 ? val / norm : 0)] *)
Definition normalize (e : embedding) : embedding :=
  let n := norm e in
  map (fun val => if Rlt_dec 0 n then (val / n)%R else 0%R) e.

Definition generateMockEmbedding (text : jsstring) : embedding :=
  normalize (featureEmbedding text).

(** The embedding client.  [None] is the client that was not initialised;
    [Some create] answers [create text] to
    [(await openaiClient.embeddings.create({model, input: text})).data[0]?.embedding]:
    [Returned None] when the response holds no first embedding, [Thrown]
    when the call rejects or the response cannot be read. *)
Definition OpenAI : Type := option (jsstring -> outcome (option embedding)).

(** [generateEmbedding(text)]; [Returned None] is the [null] result.  The
    outcome type leaves room for an error reaching the caller. *)
Definition generateEmbedding (openaiClient : OpenAI) (text : jsstring)
  : outcome (option embedding) :=
  match openaiClient with
  | None => Returned (Some (generateMockEmbedding text))
  | Some create =>
      match create text with
      | Returned response => Returned response
      | Thrown _ => Returned (Some (generateMockEmbedding text))
      end
  end.

(** The loop of [cosineSimilarity]: [dotProduct], [normA] and [normB]
    after the last index; [a[i] || 0] is [a[i]] on reals. *)
Definition cosineSums (a b : embedding) : R * R * R :=
  fold_left
    (fun '(dotProduct, normA, normB) i =>
       let aVal := nth i a 0%R in
       let bVal := nth i b 0%R in
       ((dotProduct + aVal * bVal)%R,
        (normA + aVal * aVal)%R,
        (normB + bVal * bVal)%R))
    (seq 0 (List.length a)) (0%R, 0%R, 0%R).

(** [cosineSimilarity(a, b)].  The quotient is [0 / 0], that is [NaN],
    when a norm is zero (see [cosineSums_zero_over_zero]). *)
Definition cosineSimilarity (a b : embedding) : jsnum :=
  if negb (Nat.eqb (List.length a) (List.length b)) then Num 0
  else
    let '(dotProduct, normA, normB) := cosineSums a b in
    jsDiv dotProduct (sqrt normA * sqrt normB).

(* ---------------------------------------------------------------- *)
(** *** The two storage tiers                                         *)
(* ---------------------------------------------------------------- *)

(** A value of the in-process map [memoryVectors]. *)
Module MemoryVector.
Record t : Type := {
  id : jsstring;
  document_id : jsstring;
  content : jsstring;
  embedding : list R;
  page_number : option Z;
  chunk_index : Z;
  token_count : option Z;
  created_at : Z
}.
End MemoryVector.

(** A row of the durable table [documentChunk], with the columns that
    [saveChunkVector] writes: the embedding is not one of them. *)
Module DocumentChunk.
Record t : Type := {
  document_id : jsstring;
  content : jsstring;
  page_number : option Z;
  chunk_index : Z;
  token_count : option Z
}.
End DocumentChunk.

Module SearchResult.
Record t : Type := {
  content : jsstring;
  similarity : jsnum;
  document_id : jsstring;
  chunk_index : Z;
  page_number : option Z
}.
End SearchResult.

Module ChunkInfo.
Record t : Type := {
  content : jsstring;
  chunk_index : Z;
  page_number : option Z;
  token_count : option Z
}.
End ChunkInfo.

Record Store : Type := {
  documentChunk : list DocumentChunk.t;
  memoryVectors : jsmap MemoryVector.t
}.

(** The durable backend as one call meets it: [NoPrisma] when the client
    of [config/database] is [null]; [Prisma up] when it is configured,
    [up] telling whether the query of this call resolves ([true]) or
    rejects ([false]). *)
Inductive Backend : Type :=
| NoPrisma
| Prisma (up : bool).

(** [`${documentId}_chunk_${chunkIndex}`] *)
Definition vectorKey (documentId : jsstring) (chunkIndex : Z) : jsstring :=
  documentId ++ lit "_chunk_" ++ numberToString chunkIndex.

(** [Math.ceil(content.length / 4)] *)
Definition tokenEstimate (content : jsstring) : Z := (len content + 3) / 4.

Definition memoryVectorOf (documentId content : jsstring) (e : embedding)
           (chunkIndex : Z) (pageNumber : option Z) (now : Z)
  : MemoryVector.t := {|
  MemoryVector.id := vectorKey documentId chunkIndex;
  MemoryVector.document_id := documentId;
  MemoryVector.content := content;
  MemoryVector.embedding := e;
  MemoryVector.page_number := orNull pageNumber;
  MemoryVector.chunk_index := chunkIndex;
  MemoryVector.token_count := Some (tokenEstimate content);
  MemoryVector.created_at := now
|}.

Definition saveToMemory (documentId content : jsstring) (e : embedding)
           (chunkIndex : Z) (pageNumber : option Z) (now : Z) (s : Store)
  : Store := {|
  documentChunk := documentChunk s;
  memoryVectors :=
    mapSet (vectorKey documentId chunkIndex)
           (memoryVectorOf documentId content e chunkIndex pageNumber now)
           (memoryVectors s)
|}.

(** [saveChunkVector(documentId, content, embedding, chunkIndex, pageNumber)];
    [now] is the value of [new Date()]. *)
Definition saveChunkVector (prisma : Backend) (documentId content : jsstring)
           (e : embedding) (chunkIndex : Z) (pageNumber : option Z)
           (now : Z) (s : Store) : bool * Store :=
  match prisma with
  | Prisma true =>
      (true,
       {| documentChunk :=
            documentChunk s ++
            [{| DocumentChunk.document_id := documentId;
                DocumentChunk.content := content;
                DocumentChunk.page_number := orNull pageNumber;
                DocumentChunk.chunk_index := chunkIndex;
                DocumentChunk.token_count := Some (tokenEstimate content) |}];
          memoryVectors := memoryVectors s |})
  | Prisma false =>
      (true, saveToMemory documentId content e chunkIndex pageNumber now s)
  | NoPrisma =>
      (true, saveToMemory documentId content e chunkIndex pageNumber now s)
  end.

(** An optional document id used as a condition: [undefined] and the
    empty string are falsy. *)
Definition truthy (documentId : option jsstring) : option jsstring :=
  match documentId with
  | Some [] => None
  | _ => documentId
  end.

(** [prisma.documentChunk.findMany({where, orderBy: {chunk_index: 'asc'}})]
    with [where] either [{document_id}] or [{}]; rows of equal index are
    kept in table order. *)
Definition findMany (where_ : option jsstring) (table : list DocumentChunk.t)
  : list DocumentChunk.t :=
  sort (fun a b => DocumentChunk.chunk_index a ?= DocumentChunk.chunk_index b)
    (filter (fun c => match where_ with
                      | Some d => streq (DocumentChunk.document_id c) d
                      | None => true
                      end) table).

(** The comparator [(a, b) => b.similarity - a.similarity]. *)
Definition bySimilarity (a b : SearchResult.t) : comparison :=
  sortOrder (jsSub (SearchResult.similarity b) (SearchResult.similarity a)).

Definition resultOfVector (queryEmbedding : embedding)
           (vector : MemoryVector.t) : SearchResult.t := {|
  SearchResult.content := MemoryVector.content vector;
  SearchResult.similarity :=
    cosineSimilarity queryEmbedding (MemoryVector.embedding vector);
  SearchResult.document_id := MemoryVector.document_id vector;
  SearchResult.chunk_index := MemoryVector.chunk_index vector;
  SearchResult.page_number := MemoryVector.page_number vector
|}.

(** [documentId && vector.document_id !== documentId] *)
Definition otherDocument (documentId : option jsstring)
           (vector : MemoryVector.t) : bool :=
  match truthy documentId with
  | Some d => negb (streq (MemoryVector.document_id vector) d)
  | None => false
  end.

(** [memorySemanticSearch(queryEmbedding, documentId, limit)] *)
Definition memorySemanticSearch (queryEmbedding : embedding)
           (documentId : option jsstring) (limit : Z) (s : Store)
  : list SearchResult.t :=
  let results :=
    fold_left
      (fun results vector =>
         if otherDocument documentId vector then results
         else results ++ [resultOfVector queryEmbedding vector])
      (mapValues (memoryVectors s)) [] in
  slice (sort bySimilarity results) 0 limit.

(** The loop of [semanticSearch] over the rows the durable query
    returned: a row is scored when the in-process map holds a vector
    under its key, and skipped otherwise. *)
Definition scoreChunks (queryEmbedding : embedding)
           (chunks : list DocumentChunk.t) (s : Store)
  : list SearchResult.t :=
  fold_left
    (fun results chunk =>
       let vectorKey_ := vectorKey (DocumentChunk.document_id chunk)
                                   (DocumentChunk.chunk_index chunk) in
       match mapGet vectorKey_ (memoryVectors s) with
       | Some memoryVector =>
           results ++
             [{| SearchResult.content := DocumentChunk.content chunk;
                 SearchResult.similarity :=
                   cosineSimilarity queryEmbedding
                                    (MemoryVector.embedding memoryVector);
                 SearchResult.document_id := DocumentChunk.document_id chunk;
                 SearchResult.chunk_index := DocumentChunk.chunk_index chunk;
                 SearchResult.page_number :=
                   orNull (DocumentChunk.page_number chunk) |}]
       | None => results
       end)
    chunks [].

(** [semanticSearch(query, documentId, limit)] *)
Definition semanticSearch (openaiClient : OpenAI) (prisma : Backend)
           (query : jsstring) (documentId : option jsstring) (limit : Z)
           (s : Store) : list SearchResult.t :=
  match generateEmbedding openaiClient query with
  | Thrown _ => []
  | Returned None => []
  | Returned (Some queryEmbedding) =>
      match prisma with
      | Prisma true =>
          let chunks := findMany (truthy documentId) (documentChunk s) in
          let results := scoreChunks queryEmbedding chunks s in
          slice (sort bySimilarity results) 0 limit
      | Prisma false =>
          memorySemanticSearch queryEmbedding documentId limit s
      | NoPrisma =>
          memorySemanticSearch queryEmbedding documentId limit s
      end
  end.

(** The in-process branch of [getDocumentChunks]. *)
Definition memoryDocumentChunks (documentId : jsstring) (s : Store)
  : list ChunkInfo.t :=
  let chunks :=
    sort (fun a b => MemoryVector.chunk_index a ?= MemoryVector.chunk_index b)
      (filter (fun v => streq (MemoryVector.document_id v) documentId)
              (mapValues (memoryVectors s))) in
  map (fun chunk =>
         {| ChunkInfo.content := MemoryVector.content chunk;
            ChunkInfo.chunk_index := MemoryVector.chunk_index chunk;
            ChunkInfo.page_number := MemoryVector.page_number chunk;
            ChunkInfo.token_count := MemoryVector.token_count chunk |})
      chunks.

(** [getDocumentChunks(documentId)] *)
Definition getDocumentChunks (prisma : Backend) (documentId : jsstring)
           (s : Store) : list ChunkInfo.t :=
  match prisma with
  | Prisma true =>
      map (fun chunk =>
             {| ChunkInfo.content := DocumentChunk.content chunk;
                ChunkInfo.chunk_index := DocumentChunk.chunk_index chunk;
                ChunkInfo.page_number := orNull (DocumentChunk.page_number chunk);
                ChunkInfo.token_count := orNull (DocumentChunk.token_count chunk) |})
          (findMany (Some documentId) (documentChunk s))
  | Prisma false => memoryDocumentChunks documentId s
  | NoPrisma => memoryDocumentChunks documentId s
  end.

(** The body of the loop over [memoryVectors.entries()]. *)
Definition deleteIfOf (documentId : jsstring) (m : jsmap MemoryVector.t)
           (entry : jsstring * MemoryVector.t) : jsmap MemoryVector.t :=
  if streq (MemoryVector.document_id (snd entry)) documentId
  then mapDelete (fst entry) m else m.

(** The loop deleting from [memoryVectors] every entry of the document;
    it visits the entries the map had when it started, in order. *)
Definition clearMemory (documentId : jsstring) (m : jsmap MemoryVector.t)
  : jsmap MemoryVector.t :=
  fold_left (deleteIfOf documentId) m m.

(** [prisma.documentChunk.deleteMany({where: {document_id}})] *)
Definition deleteMany (documentId : jsstring) (table : list DocumentChunk.t)
  : list DocumentChunk.t :=
  filter (fun c => negb (streq (DocumentChunk.document_id c) documentId)) table.

(** [deleteDocumentVectors(documentId)] *)
Definition deleteDocumentVectors (prisma : Backend) (documentId : jsstring)
           (s : Store) : bool * Store :=
  match prisma with
  | Prisma true =>
      (true, {| documentChunk := deleteMany documentId (documentChunk s);
                memoryVectors := clearMemory documentId (memoryVectors s) |})
  | Prisma false =>
      (true, {| documentChunk := documentChunk s;
                memoryVectors := clearMemory documentId (memoryVectors s) |})
  | NoPrisma =>
      (true, {| documentChunk := documentChunk s;
                memoryVectors := clearMemory documentId (memoryVectors s) |})
  end.

(* ---------------------------------------------------------------- *)
(** *** Vectorization of a document, statistics                       *)
(* ---------------------------------------------------------------- *)

(** The loop of [processDocumentVectorization] from the chunk of index
    [i] on.  [prisma i] is the durable backend as the save of chunk [i]
    meets it, and [now i] the value of [new Date()] there.  [false] is
    the result of the [catch] around the loop. *)
Fixpoint vectorizeChunks (openaiClient : OpenAI) (prisma : Z -> Backend)
         (now : Z -> Z) (documentId : jsstring) (chunks : list jsstring)
         (i : Z) (s : Store) : bool * Store :=
  match chunks with
  | [] => (true, s)
  | chunk :: rest =>
      if len chunk =? 0
      then vectorizeChunks openaiClient prisma now documentId rest (i + 1) s
      else
        match generateEmbedding openaiClient chunk with
        | Thrown _ => (false, s)
        | Returned None =>
            vectorizeChunks openaiClient prisma now documentId rest (i + 1) s
        | Returned (Some e) =>
            vectorizeChunks openaiClient prisma now documentId rest (i + 1)
              (snd (saveChunkVector (prisma i) documentId chunk e i None
                                    (now i) s))
        end
  end.

(** [processDocumentVectorization(documentId, text)]; [None] only if
    [splitText] ran out of fuel, which it does not
    (see [splitText_terminates]). *)
Definition processDocumentVectorization (openaiClient : OpenAI)
           (prisma : Z -> Backend) (now : Z -> Z)
           (documentId text : jsstring) (s : Store) : option (bool * Store) :=
  option_map
    (fun chunks =>
       vectorizeChunks openaiClient prisma now documentId chunks 0 s)
    (splitText text).

Module VectorStats.
Record t : Type := {
  totalChunks : Z;
  totalDocuments : Z;
  averageChunksPerDocument : R
}.
End VectorStats.

(** [new Set(ids).size], and the number of groups of
    [groupBy({by: ['document_id']})]. *)
Definition uniqueCount (ids : list jsstring) : Z :=
  len (nodup jsstring_eq_dec ids).

(** The statistics of a collection of chunks given by the document ids
    of its chunks. *)
Definition statsOf (ids : list jsstring) : VectorStats.t := {|
  VectorStats.totalChunks := len ids;
  VectorStats.totalDocuments := uniqueCount ids;
  VectorStats.averageChunksPerDocument :=
    if 0 <? uniqueCount ids
    then (IZR (len ids) / IZR (uniqueCount ids))%R
    else 0%R
|}.

(** [getMemoryVectorStats()] *)
Definition getMemoryVectorStats (s : Store) : VectorStats.t :=
  statsOf (map MemoryVector.document_id (mapValues (memoryVectors s))).

(** [getVectorStats()] *)
Definition getVectorStats (prisma : Backend) (s : Store) : VectorStats.t :=
  match prisma with
  | Prisma true => statsOf (map DocumentChunk.document_id (documentChunk s))
  | Prisma false => getMemoryVectorStats s
  | NoPrisma => getMemoryVectorStats s
  end.

End VectorService.

Import VectorService.


(* ================================================================== *)
(** ** QueueService                                                    *)
(* ================================================================== *)

Module QueueService.

Inductive JobType : Type :=
| PROCESS_SINGLE_DOCUMENT
| PROCESS_BATCH_DOCUMENTS
| GENERATE_SUMMARY
| EXTRACT_KEYWORDS
| VECTORIZE_DOCUMENT.

(** The status strings of jobs; per-file results use ['completed'] and
    ['failed'] of the same. *)
Inductive Status : Type :=
| waiting
| active
| completed
| failed.

Definition status_eqb (a b : Status) : bool :=
  match a, b with
  | waiting, waiting | active, active
  | completed, completed | failed, failed => true
  | _, _ => false
  end.

Module FileInfo.
Record t : Type := {
  fileId : jsstring;
  originalName : jsstring;
  filePath : jsstring;
  fileSize : Z;
  mimeType : jsstring
}.
End FileInfo.

Module Options.
Record t : Type := {
  generateSummary : bool;
  extractKeywords : bool;
  vectorize : bool;
  deleteAfterProcessing : bool
}.
End Options.

Module JobData.
Record t : Type := {
  type : JobType;
  batchId : option jsstring;
  userId : option jsstring;
  files : list FileInfo.t;
  options : option Options.t
}.
End JobData.

(** The argument of [DocumentService.createDocument]. *)
Module NewDocument.
Record t : Type := {
  file_id : jsstring;
  original_name : jsstring;
  file_size : Z;
  page_count : Z;
  text_content : jsstring;
  file_path : jsstring;
  user_id : option jsstring
}.
End NewDocument.

(** What [processJob] reads of the record [createDocument] returns. *)
Module Document.
Record t : Type := {
  id : jsstring;
  file_id : jsstring;
  page_count : Z;
  file_size : Z
}.
End Document.

Module FileResult.
Record t : Type := {
  fileId : jsstring;
  originalName : jsstring;
  status : Status;
  document : option Document.t;
  vectorized : option bool;
  error : option jsstring
}.
End FileResult.

Module JobResult.
Record t : Type := {
  batchId : option jsstring;
  totalFiles : Z;
  processedFiles : Z;
  failedFiles : Z;
  results : list FileResult.t
}.
End JobResult.

(** [options = {}]: a flag that is absent is falsy. *)
Definition optionsOf (data : JobData.t) : Options.t :=
  match JobData.options data with
  | Some o => o
  | None => {| Options.generateSummary := false;
               Options.extractKeywords := false;
               Options.vectorize := false;
               Options.deleteAfterProcessing := false |}
  end.

(** [Math.round((i / total) * 100)], on exact quotients. *)
Definition percent (i total : Z) : Z := (2 * (100 * i) + total) / (2 * total).

(* ---------------------------------------------------------------- *)
(** *** Job processing, over the state of the collaborators           *)
(* ---------------------------------------------------------------- *)

Section Exec.
(** The state of what [processJob] acts on: file system, document
    store, vector store, and whatever the progress callback writes. *)
Variable World : Type.

(** A computation that reads and writes the world and returns or
    throws. *)
Definition M (A : Type) : Type := World -> outcome A * World.

Definition ret {A : Type} (a : A) : M A := fun w => (Returned a, w).

Definition bind {A B : Type} (m : M A) (k : A -> M B) : M B :=
  fun w =>
    match m w with
    | (Returned a, w') => k a w'
    | (Thrown message, w') => (Thrown message, w')
    end.

(** [try { body } catch (error) { handler(message of error) }] *)
Definition tryCatch {A : Type} (body : M A) (handler : jsstring -> M A)
  : M A :=
  fun w =>
    match body w with
    | (Returned a, w') => (Returned a, w')
    | (Thrown message, w') => handler message w'
    end.

Notation "x <- m ;; k" := (bind m (fun x => k))
  (at level 61, m at next level, right associativity).

Variable readFileSync : jsstring -> M jsstring.
Variable pdfParse : jsstring -> M (Z * jsstring).
Variable createDocument : NewDocument.t -> M Document.t.
Variable processDocumentVectorization : jsstring -> jsstring -> M bool.
Variable unlinkSync : jsstring -> M unit.

(** The text and the page count of a file, by its mime type. *)
Definition readContent (file : FileInfo.t) : M (jsstring * Z) :=
  if streq (FileInfo.mimeType file) (lit "application/pdf") then
    dataBuffer <- readFileSync (FileInfo.filePath file) ;;
    pdfData <- pdfParse dataBuffer ;;
    ret (snd pdfData, fst pdfData)
  else if streq (FileInfo.mimeType file) (lit "text/plain") then
    textContent <- readFileSync (FileInfo.filePath file) ;;
    ret (textContent, 1)
  else ret ([], 1).

(** The body of the [try] of one iteration, up to the entry it
    pushes. *)
Definition processFileBody (data : JobData.t) (file : FileInfo.t)
  : M FileResult.t :=
  content <- readContent file ;;
  let textContent := fst content in
  let pageCount := snd content in
  document <- createDocument
    {| NewDocument.file_id := FileInfo.fileId file;
       NewDocument.original_name := FileInfo.originalName file;
       NewDocument.file_size := FileInfo.fileSize file;
       NewDocument.page_count := pageCount;
       NewDocument.text_content := textContent;
       NewDocument.file_path := FileInfo.filePath file;
       NewDocument.user_id := JobData.userId data |} ;;
  let fileResult (vectorized : option bool) :=
    {| FileResult.fileId := FileInfo.fileId file;
       FileResult.originalName := FileInfo.originalName file;
       FileResult.status := completed;
       FileResult.document := Some document;
       FileResult.vectorized := vectorized;
       FileResult.error := None |} in
  vectorized <-
    (if Options.vectorize (optionsOf data) && (0 <? len textContent)
     then tryCatch
            (_ <- processDocumentVectorization (Document.id document)
                                               textContent ;;
             ret (Some true))
            (fun _ => ret (Some false))
     else ret None) ;;
  _ <- (if Options.deleteAfterProcessing (optionsOf data)
        then tryCatch (unlinkSync (FileInfo.filePath file))
                      (fun _ => ret tt)
        else ret tt) ;;
  ret (fileResult vectorized).

(** One iteration after the progress report: the [try] and its
    [catch], which pushes a ['failed'] entry with the message. *)
Definition processFile (data : JobData.t) (file : FileInfo.t)
  : M FileResult.t :=
  tryCatch (processFileBody data file)
    (fun message =>
       ret {| FileResult.fileId := FileInfo.fileId file;
              FileResult.originalName := FileInfo.originalName file;
              FileResult.status := failed;
              FileResult.document := None;
              FileResult.vectorized := None;
              FileResult.error := Some message |}).

(** The [for] loop of [processJob] from index [i] on; [total] is
    [files.length]. *)
Fixpoint processFiles (data : JobData.t) (progressCallback : Z -> M unit)
         (total i : Z) (files : list FileInfo.t)
         (results : list FileResult.t) : M (list FileResult.t) :=
  match files with
  | [] => ret results
  | file :: rest =>
      _ <- progressCallback (percent i total) ;;
      entry <- processFile data file ;;
      processFiles data progressCallback total (i + 1) rest
                   (results ++ [entry])
  end.

Definition countStatus (st : Status) (results : list FileResult.t) : Z :=
  len (filter (fun r => status_eqb (FileResult.status r) st) results).

(** [processJob(data, progressCallback)] *)
Definition processJob (data : JobData.t) (progressCallback : Z -> M unit)
  : M JobResult.t :=
  let files := JobData.files data in
  results <- processFiles data progressCallback (len files) 0 files [] ;;
  _ <- progressCallback 100 ;;
  ret {| JobResult.batchId := JobData.batchId data;
         JobResult.totalFiles := len files;
         JobResult.processedFiles := countStatus completed results;
         JobResult.failedFiles := countStatus failed results;
         JobResult.results := results |}.
End Exec.

(* ---------------------------------------------------------------- *)
(** *** The in-process queue                                          *)
(* ---------------------------------------------------------------- *)

Module MemoryJob.
Record t : Type := {
  id : jsstring;
  data : JobData.t;
  status : Status;
  progress : Z;
  result : option JobResult.t;
  error : option jsstring;
  createdAt : Z;
  updatedAt : Z
}.
End MemoryJob.

(** The module state.  [memoryQueue] holds the job objects of
    [memoryJobs], here by their ids; [running] is the job the drain loop
    of [processMemoryQueue] has shifted and is awaiting.  The durable
    queue is [null] ([useRedis] is [false]). *)
Record Queue : Type := {
  memoryJobs : jsmap MemoryJob.t;
  memoryQueue : list jsstring;
  isProcessing : bool;
  jobIdCounter : Z;
  running : option jsstring
}.

Definition initial : Queue := {|
  memoryJobs := [];
  memoryQueue := [];
  isProcessing := false;
  jobIdCounter := 1;
  running := None
|}.

(** An assignment to fields of the job object of id [jobId]. *)
Definition updateJob (jobId : jsstring) (f : MemoryJob.t -> MemoryJob.t)
           (jobs : jsmap MemoryJob.t) : jsmap MemoryJob.t :=
  map (fun e => if streq (fst e) jobId then (fst e, f (snd e)) else e) jobs.

Definition setActive (now : Z) (job : MemoryJob.t) : MemoryJob.t := {|
  MemoryJob.id := MemoryJob.id job;
  MemoryJob.data := MemoryJob.data job;
  MemoryJob.status := active;
  MemoryJob.progress := MemoryJob.progress job;
  MemoryJob.result := MemoryJob.result job;
  MemoryJob.error := MemoryJob.error job;
  MemoryJob.createdAt := MemoryJob.createdAt job;
  MemoryJob.updatedAt := now
|}.

Definition setProgress (p now : Z) (job : MemoryJob.t) : MemoryJob.t := {|
  MemoryJob.id := MemoryJob.id job;
  MemoryJob.data := MemoryJob.data job;
  MemoryJob.status := MemoryJob.status job;
  MemoryJob.progress := p;
  MemoryJob.result := MemoryJob.result job;
  MemoryJob.error := MemoryJob.error job;
  MemoryJob.createdAt := MemoryJob.createdAt job;
  MemoryJob.updatedAt := now
|}.

Definition setCompleted (r : JobResult.t) (now : Z) (job : MemoryJob.t)
  : MemoryJob.t := {|
  MemoryJob.id := MemoryJob.id job;
  MemoryJob.data := MemoryJob.data job;
  MemoryJob.status := completed;
  MemoryJob.progress := 100;
  MemoryJob.result := Some r;
  MemoryJob.error := MemoryJob.error job;
  MemoryJob.createdAt := MemoryJob.createdAt job;
  MemoryJob.updatedAt := now
|}.

Definition setFailed (message : jsstring) (now : Z) (job : MemoryJob.t)
  : MemoryJob.t := {|
  MemoryJob.id := MemoryJob.id job;
  MemoryJob.data := MemoryJob.data job;
  MemoryJob.status := failed;
  MemoryJob.progress := MemoryJob.progress job;
  MemoryJob.result := MemoryJob.result job;
  MemoryJob.error := Some message;
  MemoryJob.createdAt := MemoryJob.createdAt job;
  MemoryJob.updatedAt := now
|}.

(** The head of the [while] loop of [processMemoryQueue]: leave it when
    the queue is empty, else shift a job and make it active. *)
Definition nextJob (now : Z) (q : Queue) : Queue :=
  match memoryQueue q with
  | [] =>
      {| memoryJobs := memoryJobs q;
         memoryQueue := [];
         isProcessing := false;
         jobIdCounter := jobIdCounter q;
         running := None |}
  | jobId :: rest =>
      {| memoryJobs := updateJob jobId (setActive now) (memoryJobs q);
         memoryQueue := rest;
         isProcessing := true;
         jobIdCounter := jobIdCounter q;
         running := Some jobId |}
  end.

(** [processMemoryQueue()], up to its first [await]. *)
Definition processMemoryQueue (now : Z) (q : Queue) : Queue :=
  if isProcessing q || (len (memoryQueue q) =? 0) then q
  else nextJob now q.

(** [addMemoryJob(data)]: the id of the job and the state when the call
    returns. *)
Definition addMemoryJob (data : JobData.t) (now : Z) (q : Queue)
  : jsstring * Queue :=
  let jobId := lit "job_" ++ numberToString (jobIdCounter q) in
  let memoryJob :=
    {| MemoryJob.id := jobId;
       MemoryJob.data := data;
       MemoryJob.status := waiting;
       MemoryJob.progress := 0;
       MemoryJob.result := None;
       MemoryJob.error := None;
       MemoryJob.createdAt := now;
       MemoryJob.updatedAt := now |} in
  (jobId,
   processMemoryQueue now
     {| memoryJobs := mapSet jobId memoryJob (memoryJobs q);
        memoryQueue := memoryQueue q ++ [jobId];
        isProcessing := isProcessing q;
        jobIdCounter := jobIdCounter q + 1;
        running := running q |}).

(** The progress callback of the drain loop, called by the running
    job. *)
Definition reportProgress (p now : Z) (q : Queue) : Queue :=
  match running q with
  | None => q
  | Some jobId =>
      {| memoryJobs := updateJob jobId (setProgress p now) (memoryJobs q);
         memoryQueue := memoryQueue q;
         isProcessing := isProcessing q;
         jobIdCounter := jobIdCounter q;
         running := running q |}
  end.

(** The drain loop resumes after [await this.processJob(...)] with the
    outcome [o]: the job is completed or failed, and the loop goes to
    its head. *)
Definition settle (o : outcome JobResult.t) (now : Z) (q : Queue) : Queue :=
  match running q with
  | None => q
  | Some jobId =>
      let finish :=
        match o with
        | Returned r => setCompleted r now
        | Thrown message => setFailed message now
        end in
      nextJob now
        {| memoryJobs := updateJob jobId finish (memoryJobs q);
           memoryQueue := memoryQueue q;
           isProcessing := isProcessing q;
           jobIdCounter := jobIdCounter q;
           running := running q |}
  end.

(** [memoryQueue.splice(index, 1)] at the first job of id [jobId]. *)
Fixpoint removeFirst (jobId : jsstring) (queue : list jsstring)
  : option (list jsstring) :=
  match queue with
  | [] => None
  | j :: rest =>
      if streq j jobId then Some rest
      else option_map (cons j) (removeFirst jobId rest)
  end.

(** [cancelJob(jobId)] *)
Definition cancelJob (jobId : jsstring) (q : Queue) : bool * Queue :=
  match mapGet jobId (memoryJobs q) with
  | Some job =>
      if status_eqb (MemoryJob.status job) waiting then
        match removeFirst jobId (memoryQueue q) with
        | Some queue' =>
            (true,
             {| memoryJobs := mapDelete jobId (memoryJobs q);
                memoryQueue := queue';
                isProcessing := isProcessing q;
                jobIdCounter := jobIdCounter q;
                running := running q |})
        | None => (false, q)
        end
      else (false, q)
  | None => (false, q)
  end.

(** [cleanupJobs()]: completed jobs last updated more than a day before
    [now] leave the table. *)
Definition cleanupJobs (now : Z) (q : Queue) : Queue :=
  let oneDayAgo := now - 24 * 60 * 60 * 1000 in
  {| memoryJobs :=
       filter (fun e =>
                 negb (status_eqb (MemoryJob.status (snd e)) completed
                       && (MemoryJob.updatedAt (snd e) <? oneDayAgo)))
              (memoryJobs q);
     memoryQueue := memoryQueue q;
     isProcessing := isProcessing q;
     jobIdCounter := jobIdCounter q;
     running := running q |}.

Module Stats.
Record t : Type := {
  waiting : Z;
  active : Z;
  completed : Z;
  failed : Z;
  total : Z
}.
End Stats.

(** [stats[job.status]++; stats.total++] *)
Definition count (stats : Stats.t) (job : MemoryJob.t) : Stats.t :=
  let w := Stats.waiting stats in
  let a := Stats.active stats in
  let c := Stats.completed stats in
  let f := Stats.failed stats in
  let t := Stats.total stats + 1 in
  match MemoryJob.status job with
  | waiting => {| Stats.waiting := w + 1; Stats.active := a;
                  Stats.completed := c; Stats.failed := f; Stats.total := t |}
  | active => {| Stats.waiting := w; Stats.active := a + 1;
                 Stats.completed := c; Stats.failed := f; Stats.total := t |}
  | completed => {| Stats.waiting := w; Stats.active := a;
                    Stats.completed := c + 1; Stats.failed := f;
                    Stats.total := t |}
  | failed => {| Stats.waiting := w; Stats.active := a;
                 Stats.completed := c; Stats.failed := f + 1;
                 Stats.total := t |}
  end.

(** [getQueueStats()] of the in-process backend. *)
Definition getQueueStats (q : Queue) : Stats.t :=
  fold_left count (mapValues (memoryJobs q))
    {| Stats.waiting := 0; Stats.active := 0; Stats.completed := 0;
       Stats.failed := 0; Stats.total := 0 |}.

(** What can happen to the queue between two suspension points. *)
Inductive Op : Type :=
| Submit (data : JobData.t) (now : Z)
| Cancel (jobId : jsstring)
| Progress (p now : Z)
| Settle (o : outcome JobResult.t) (now : Z)
| Cleanup (now : Z).

Definition apply (q : Queue) (op : Op) : Queue :=
  match op with
  | Submit data now => snd (addMemoryJob data now q)
  | Cancel jobId => snd (cancelJob jobId q)
  | Progress p now => reportProgress p now q
  | Settle o now => settle o now q
  | Cleanup now => cleanupJobs now q
  end.

Definition run (ops : list Op) : Queue := fold_left apply ops initial.

(* ---------------------------------------------------------------- *)
(** *** Status of jobs and batches                                    *)
(* ---------------------------------------------------------------- *)

Module JobProgress.
Record t : Type := {
  jobId : jsstring;
  batchId : option jsstring;
  status : Status;
  progress : Z;
  total : Z;
  processed : Z;
  failed : Z;
  result : option JobResult.t;
  error : option jsstring;
  createdAt : Z;
  updatedAt : Z
}.
End JobProgress.

(** [getMemoryJobStatus(jobId)]; [None] is [null]. *)
Definition getMemoryJobStatus (jobId : jsstring) (q : Queue)
  : option JobProgress.t :=
  match mapGet jobId (memoryJobs q) with
  | None => None
  | Some job =>
      Some {| JobProgress.jobId := MemoryJob.id job;
              JobProgress.batchId := JobData.batchId (MemoryJob.data job);
              JobProgress.status := MemoryJob.status job;
              JobProgress.progress := MemoryJob.progress job;
              JobProgress.total := len (JobData.files (MemoryJob.data job));
              JobProgress.processed :=
                match MemoryJob.result job with
                | Some r => JobResult.processedFiles r
                | None => 0
                end;
              JobProgress.failed :=
                match MemoryJob.result job with
                | Some r => JobResult.failedFiles r
                | None => 0
                end;
              JobProgress.result := MemoryJob.result job;
              JobProgress.error := MemoryJob.error job;
              JobProgress.createdAt := MemoryJob.createdAt job;
              JobProgress.updatedAt := MemoryJob.updatedAt job |}
  end.

(** [getJobStatus(jobId)]: the durable queue is [null]. *)
Definition getJobStatus (jobId : jsstring) (q : Queue)
  : option JobProgress.t :=
  getMemoryJobStatus jobId q.

(** [job.data.batchId === batchId] *)
Definition inBatch (batchId : jsstring) (job : MemoryJob.t) : bool :=
  match JobData.batchId (MemoryJob.data job) with
  | Some b => streq b batchId
  | None => false
  end.

(** [getBatchStatus(batchId)]: the loop over [memoryJobs.entries()]. *)
Definition getBatchStatus (batchId : jsstring) (q : Queue)
  : list JobProgress.t :=
  fold_left
    (fun jobs entry =>
       if inBatch batchId (snd entry) then
         match getMemoryJobStatus (fst entry) q with
         | Some status => jobs ++ [status]
         | None => jobs
         end
       else jobs)
    (memoryJobs q) [].

End QueueService.

(* ================================================================== *)
(** ** Batch routes of [routes/upload.ts]                              *)
(* ================================================================== *)

Module UploadRoutes.

Import QueueService.

Inductive OverallStatus : Type :=
| batch_completed
| batch_partial
| batch_processing
| batch_waiting.

Module BatchOverview.
Record t : Type := {
  status : OverallStatus;
  progress : Z;
  totalFiles : Z;
  processedFiles : Z;
  failedFiles : Z
}.
End BatchOverview.

(** [jobs.reduce((sum, job) => sum + job.f, 0)] *)
Definition sumOf (f : JobProgress.t -> Z) (jobs : list JobProgress.t) : Z :=
  fold_left (fun sum job => sum + f job) jobs 0.

Definition hasStatus (st : Status) (job : JobProgress.t) : bool :=
  status_eqb (JobProgress.status job) st.

(** The overall state that [GET /batch/:batchId/status] computes from the
    jobs of a batch that is not empty. *)
Definition batchOverview (jobs : list JobProgress.t) : BatchOverview.t :=
  let totalFiles := sumOf JobProgress.total jobs in
  let processedFiles := sumOf JobProgress.processed jobs in
  let failedFiles := sumOf JobProgress.failed jobs in
  let overallStatus :=
    if forallb (hasStatus completed) jobs then batch_completed
    else if existsb (hasStatus failed) jobs then batch_partial
    else if existsb (hasStatus active) jobs then batch_processing
    else batch_waiting in
  let overallProgress :=
    if 0 <? totalFiles then percent processedFiles totalFiles else 0 in
  {| BatchOverview.status := overallStatus;
     BatchOverview.progress := overallProgress;
     BatchOverview.totalFiles := totalFiles;
     BatchOverview.processedFiles := processedFiles;
     BatchOverview.failedFiles := failedFiles |}.

(** The loop of [DELETE /batch/:batchId] over the jobs that
    [getBatchStatus] returned: the number of jobs cancelled and the
    queue afterwards. *)
Definition cancelJobs (jobs : list JobProgress.t) (q : Queue) : Z * Queue :=
  fold_left
    (fun '(cancelledCount, q) job =>
       if hasStatus waiting job then
         let '(cancelled, q') := cancelJob (JobProgress.jobId job) q in
         (if cancelled then cancelledCount + 1 else cancelledCount, q')
       else (cancelledCount, q))
    jobs (0, q).

(** [DELETE /batch/:batchId] on a batch that exists. *)
Definition cancelBatch (batchId : jsstring) (q : Queue) : Z * Queue :=
  cancelJobs (getBatchStatus batchId q) q.

End UploadRoutes.

(* ================================================================== *)
(** ** Vocabulary of the statements                                    *)
(* ================================================================== *)

(** [a] does not come after a result of greater similarity: both
    similarities are numbers and that of [a] is at least that of [b]. *)
Definition notBelow (a b : SearchResult.t) : Prop :=
  match SearchResult.similarity a, SearchResult.similarity b with
  | Num x, Num y => (y <= x)%R
  | _, _ => False
  end.

Definition scored (r : SearchResult.t) : Prop :=
  SearchResult.similarity r <> NaN.

(** The entry pushed for a row, if any. *)
Definition scoredRow (queryEmbedding : embedding) (s : Store)
           (chunk : DocumentChunk.t) : list SearchResult.t :=
  match mapGet (vectorKey (DocumentChunk.document_id chunk)
                          (DocumentChunk.chunk_index chunk))
               (memoryVectors s) with
  | Some memoryVector =>
      [{| SearchResult.content := DocumentChunk.content chunk;
          SearchResult.similarity :=
            cosineSimilarity queryEmbedding
                             (MemoryVector.embedding memoryVector);
          SearchResult.document_id := DocumentChunk.document_id chunk;
          SearchResult.chunk_index := DocumentChunk.chunk_index chunk;
          SearchResult.page_number :=
            orNull (DocumentChunk.page_number chunk) |}]
  | None => []
  end.

(** *** Stores and clients used as concrete inputs *)

Definition emptyStore : Store := {| documentChunk := []; memoryVectors := [] |}.

(** A client whose API answers the embedding [[1]] to every text. *)
Definition unitClient : OpenAI := Some (fun _ => Returned (Some [1%R])).

(** Two chunks of document X saved while no database is configured. *)
Definition memoryStoreX : Store :=
  snd (saveChunkVector NoPrisma (lit "X") (lit "second chunk") [(-1)%R] 1
         None 0
         (snd (saveChunkVector NoPrisma (lit "X") (lit "first chunk") [1%R] 0
                 None 0 emptyStore))).

(** Two chunks of document X in the in-process map, the second with an
    all-zero vector. *)
Definition zeroStoreX : Store :=
  snd (saveChunkVector NoPrisma (lit "X") (lit "second chunk") [0%R] 1
         None 0
         (snd (saveChunkVector NoPrisma (lit "X") (lit "first chunk") [1%R] 0
                 None 0 emptyStore))).

(** One chunk of document X saved while the database answers. *)
Definition durableStoreX : Store :=
  snd (saveChunkVector (Prisma true) (lit "X") (lit "first chunk") [1%R] 0
         None 0 emptyStore).

Import QueueService.


(** The entry pushed by the [catch] of one iteration. *)
Definition failedEntry (file : FileInfo.t) (message : jsstring)
  : FileResult.t := {|
  FileResult.fileId := FileInfo.fileId file;
  FileResult.originalName := FileInfo.originalName file;
  FileResult.status := failed;
  FileResult.document := None;
  FileResult.vectorized := None;
  FileResult.error := Some message
|}.

(** *** A batch of three files, the second of which cannot be read *)

(** The world of the example is the list of the progress values
    reported so far. *)
Definition logProgress (p : Z) : M (list Z) unit :=
  fun w => (Returned tt, w ++ [p]).

Definition readExample (path : jsstring) : M (list Z) jsstring :=
  fun w => if streq path (lit "/tmp/b.txt")
           then (Thrown (lit "ENOENT: no such file"), w)
           else (Returned (lit "plain text"), w).

Definition parseExample (buffer : jsstring) : M (list Z) (Z * jsstring) :=
  fun w => (Returned (1, buffer), w).

Definition createExample (d : NewDocument.t) : M (list Z) Document.t :=
  fun w => (Returned {| Document.id := NewDocument.file_id d;
                        Document.file_id := NewDocument.file_id d;
                        Document.page_count := NewDocument.page_count d;
                        Document.file_size := NewDocument.file_size d |}, w).

Definition vectorizeExample (documentId text : jsstring) : M (list Z) bool :=
  fun w => (Returned true, w).

Definition unlinkExample (path : jsstring) : M (list Z) unit :=
  fun w => (Returned tt, w).

Definition textFile (name : string) : FileInfo.t := {|
  FileInfo.fileId := lit name;
  FileInfo.originalName := lit name;
  FileInfo.filePath := lit "/tmp/" ++ lit name;
  FileInfo.fileSize := 500;
  FileInfo.mimeType := lit "text/plain"
|}.

Definition batchOfThree : JobData.t := {|
  JobData.type := PROCESS_BATCH_DOCUMENTS;
  JobData.batchId := Some (lit "batch-1");
  JobData.userId := None;
  JobData.files := [textFile "a.txt"; textFile "b.txt"; textFile "c.txt"];
  JobData.options := None
|}.

Definition processExample : outcome JobResult.t * list Z :=
  processJob (list Z) readExample parseExample createExample
             vectorizeExample unlinkExample batchOfThree logProgress [].

(** The counts of a statistics record add up to its total. *)
Definition balanced (stats : Stats.t) : Prop :=
  Stats.waiting stats + Stats.active stats + Stats.completed stats
  + Stats.failed stats = Stats.total stats.

(** *** A run of the queue: three submissions, the third cancelled while
    it waits, the first settled *)

Definition emptyResult : JobResult.t := {|
  JobResult.batchId := None;
  JobResult.totalFiles := 0;
  JobResult.processedFiles := 0;
  JobResult.failedFiles := 0;
  JobResult.results := []
|}.

Definition queueExample : Queue :=
  run [Submit batchOfThree 10; Submit batchOfThree 11; Submit batchOfThree 12;
       Cancel (lit "job_3"); Progress 33 13; Settle (Returned emptyResult) 14].

(* ================================================================== *)
(** ** Vocabulary of the further properties                            *)
(* ================================================================== *)

Import UploadRoutes.

(** The chunk record returned for a vector of the in-process map, and
    for a row of the table. *)
Definition infoOfVector (v : MemoryVector.t) : ChunkInfo.t := {|
  ChunkInfo.content := MemoryVector.content v;
  ChunkInfo.chunk_index := MemoryVector.chunk_index v;
  ChunkInfo.page_number := MemoryVector.page_number v;
  ChunkInfo.token_count := MemoryVector.token_count v
|}.

Definition infoOfRow (c : DocumentChunk.t) : ChunkInfo.t := {|
  ChunkInfo.content := DocumentChunk.content c;
  ChunkInfo.chunk_index := DocumentChunk.chunk_index c;
  ChunkInfo.page_number := orNull (DocumentChunk.page_number c);
  ChunkInfo.token_count := orNull (DocumentChunk.token_count c)
|}.

(** Chunk records in ascending order of index. *)
Definition ascending (a b : ChunkInfo.t) : Prop :=
  ChunkInfo.chunk_index a <= ChunkInfo.chunk_index b.

(** The dot product of two arrays, index by index. *)
Fixpoint dot (a b : embedding) : R :=
  match a, b with
  | x :: a', y :: b' => (x * y + dot a' b')%R
  | _, _ => 0%R
  end.

(** The in-process map is well keyed: no key occurs twice, and every
    vector sits under the key made of its own document id and chunk
    index. *)
Definition wellKeyed (m : jsmap MemoryVector.t) : Prop :=
  NoDup (map fst m)
  /\ forall k v, In (k, v) m ->
                 k = vectorKey (MemoryVector.document_id v)
                               (MemoryVector.chunk_index v).

(** The chunk records that [processDocumentVectorization] leaves for
    chunks numbered from [i]: one for each chunk that is not empty and
    whose embedding is not [null]. *)
Fixpoint savedChunks (client : OpenAI) (chunks : list jsstring) (i : Z)
  : list ChunkInfo.t :=
  match chunks with
  | [] => []
  | chunk :: rest =>
      if len chunk =? 0 then savedChunks client rest (i + 1)
      else
        match generateEmbedding client chunk with
        | Returned (Some _) =>
            {| ChunkInfo.content := chunk;
               ChunkInfo.chunk_index := i;
               ChunkInfo.page_number := None;
               ChunkInfo.token_count := Some (tokenEstimate chunk) |}
            :: savedChunks client rest (i + 1)
        | _ => savedChunks client rest (i + 1)
        end
  end.

(** The id of the [n]-th job submitted: [`job_${n}`]. *)
Definition jobKey (n : Z) : jsstring := lit "job_" ++ numberToString n.

Definition isWaiting (e : jsstring * MemoryJob.t) : bool :=
  status_eqb (MemoryJob.status (snd e)) waiting.

Definition isActive (e : jsstring * MemoryJob.t) : bool :=
  status_eqb (MemoryJob.status (snd e)) active.

(** What holds of the in-process queue between two operations:
    - the ids of the table are distinct, each job sits under its own id,
      and the ids are those of jobs numbered below the counter;
    - the queue lists the waiting jobs of the table, in table order;
    - the active jobs are the running job, if any;
    - the processing flag is set exactly when a job is running;
    - when no job is running, no job waits. *)
Definition queueOk (q : Queue) : Prop :=
  NoDup (map fst (memoryJobs q))
  /\ (1 <= jobIdCounter q
      /\ forall k job, In (k, job) (memoryJobs q) ->
                       MemoryJob.id job = k
                       /\ exists n, 1 <= n < jobIdCounter q /\ k = jobKey n)
  /\ memoryQueue q = map fst (filter isWaiting (memoryJobs q))
  /\ map fst (filter isActive (memoryJobs q))
     = match running q with Some jobId => [jobId] | None => [] end
  /\ isProcessing q = match running q with Some _ => true | None => false end
  /\ (running q = None -> memoryQueue q = []).

(** The status record of a job of the table. *)
Definition progressOf (job : MemoryJob.t) : JobProgress.t := {|
  JobProgress.jobId := MemoryJob.id job;
  JobProgress.batchId := JobData.batchId (MemoryJob.data job);
  JobProgress.status := MemoryJob.status job;
  JobProgress.progress := MemoryJob.progress job;
  JobProgress.total := len (JobData.files (MemoryJob.data job));
  JobProgress.processed :=
    match MemoryJob.result job with
    | Some r => JobResult.processedFiles r
    | None => 0
    end;
  JobProgress.failed :=
    match MemoryJob.result job with
    | Some r => JobResult.failedFiles r
    | None => 0
    end;
  JobProgress.result := MemoryJob.result job;
  JobProgress.error := MemoryJob.error job;
  JobProgress.createdAt := MemoryJob.createdAt job;
  JobProgress.updatedAt := MemoryJob.updatedAt job
|}.

(** A status record of a waiting job of the batch. *)
Definition waitingIn (batchId : jsstring) (st : JobProgress.t) : bool :=
  match JobProgress.batchId st with
  | Some b => streq b batchId && hasStatus waiting st
  | None => false
  end.

(** The record that [processJob] passes to [createDocument] for a file
    whose content was read. *)
Definition newDocumentOf (data : JobData.t) (file : FileInfo.t)
           (content : jsstring * Z) : NewDocument.t := {|
  NewDocument.file_id := FileInfo.fileId file;
  NewDocument.original_name := FileInfo.originalName file;
  NewDocument.file_size := FileInfo.fileSize file;
  NewDocument.page_count := snd content;
  NewDocument.text_content := fst content;
  NewDocument.file_path := FileInfo.filePath file;
  NewDocument.user_id := JobData.userId data
|}.

(** The code unit at index [p] of [text] lies in an occurrence of
    [chunk] in [text]. *)
Definition covers (text chunk : jsstring) (p : nat) : Prop :=
  exists pre post,
    text = pre ++ chunk ++ post
    /\ (List.length pre <= p < List.length pre + List.length chunk)%nat.

(** What a chunk of [text] is: trimmed, a part of the text, and at most
    one code unit longer than [CHUNK_SIZE]. *)
Definition chunkOf (text chunk : jsstring) : Prop :=
  len chunk <= CHUNK_SIZE + 1
  /\ trim chunk = chunk
  /\ exists pre post, text = pre ++ chunk ++ post.

(* ================================================================== *)
(** ** Properties of [splitText]                                       *)
(* ================================================================== *)

Section SplitText.

Lemma len_nonneg {A : Type} (l : list A) : 0 <= len l.
Proof. unfold len. lia. Qed.

Lemma len_nil_inv {A : Type} (l : list A) : len l = 0 -> l = [].
Proof. destruct l; [reflexivity | unfold len; simpl; lia]. Qed.

Lemma slice_prefix_all {A : Type} (l : list A) (e : Z) :
  len l <= e -> slice l 0 e = l.
Proof.
  intros He. unfold slice, relIndex.
  pose proof (len_nonneg l) as Hl.
  replace (0 <? 0) with false by reflexivity.
  destruct (e <? 0) eqn:E; [apply Z.ltb_lt in E; lia |].
  rewrite (Z.min_l 0 (len l)) by lia.
  rewrite (Z.min_r e (len l)) by lia.
  simpl skipn. rewrite Z.sub_0_r. unfold len.
  rewrite Nat2Z.id. apply firstn_all.
Qed.

Lemma splitLoop_done (fuel : nat) (text : jsstring) (start : Z) chunks :
  len text <= start -> splitLoop fuel text start chunks = Some chunks.
Proof.
  intros H. destruct fuel; simpl;
    destruct (start <? len text) eqn:E; try reflexivity;
    apply Z.ltb_lt in E; lia.
Qed.

Lemma splitLoop_step (fuel : nat) (text : jsstring) (start : Z) chunks :
  start < len text ->
  splitLoop (S fuel) text start chunks =
  splitLoop fuel text (nextStart text start)
            (chunks ++ [trim (slice text start (windowEnd text start))]).
Proof.
  intros H. simpl. apply Z.ltb_lt in H. rewrite H. reflexivity.
Qed.

(** Without a snap the window is [CHUNK_SIZE] long. *)
Lemma nextStart_plain (text : jsstring) (start : Z) :
  snapped text start = false ->
  nextStart text start = start + (CHUNK_SIZE - CHUNK_OVERLAP).
Proof.
  intros H. unfold nextStart, windowEnd. rewrite H.
  unfold CHUNK_SIZE, CHUNK_OVERLAP. lia.
Qed.

(** A snap is taken only beyond the middle of the window. *)
Lemma nextStart_snapped (text : jsstring) (start : Z) :
  snapped text start = true ->
  start + (CHUNK_SIZE / 2 - CHUNK_OVERLAP + 1) < nextStart text start.
Proof.
  intros H. unfold nextStart, windowEnd. rewrite H.
  unfold snapped in H. apply andb_prop in H as [_ H].
  apply Z.ltb_lt in H. revert H.
  unfold CHUNK_SIZE, CHUNK_OVERLAP.
  replace (1000 / 2) with 500 by reflexivity. lia.
Qed.

Lemma nextStart_progress (text : jsstring) (start : Z) :
  start < nextStart text start.
Proof.
  destruct (snapped text start) eqn:E.
  - pose proof (nextStart_snapped _ _ E) as H. revert H.
    unfold CHUNK_SIZE, CHUNK_OVERLAP.
    replace (1000 / 2) with 500 by reflexivity. lia.
  - rewrite (nextStart_plain _ _ E). unfold CHUNK_SIZE, CHUNK_OVERLAP. lia.
Qed.

(** One iteration for each code unit still ahead of [start] is enough
    to leave the loop. *)
Lemma splitLoop_enough_fuel (fuel : nat) :
  forall (text : jsstring) (start : Z) chunks,
    len text - start <= Z.of_nat fuel ->
    exists result, splitLoop fuel text start chunks = Some result.
Proof.
  induction fuel as [| fuel IH]; intros text start chunks Hfuel.
  - exists chunks. apply splitLoop_done. lia.
  - destruct (Z_lt_ge_dec start (len text)) as [Hlt | Hge].
    + rewrite splitLoop_step by assumption.
      apply IH. pose proof (nextStart_progress text start). lia.
    + exists chunks. apply splitLoop_done. lia.
Qed.

(** Once the loop has been left, more fuel changes nothing. *)
Lemma splitLoop_more_fuel (fuel : nat) :
  forall (text : jsstring) (start : Z) chunks result,
    splitLoop fuel text start chunks = Some result ->
    forall fuel', (fuel <= fuel')%nat ->
                  splitLoop fuel' text start chunks = Some result.
Proof.
  induction fuel as [| fuel IH]; intros text start chunks result H fuel' Hle.
  - simpl in H. destruct (start <? len text) eqn:E; [discriminate |].
    apply Z.ltb_ge in E. rewrite splitLoop_done by lia. exact H.
  - destruct (Z_lt_ge_dec start (len text)) as [Hlt | Hge].
    + destruct fuel' as [| fuel']; [lia |].
      rewrite splitLoop_step in * by assumption.
      apply (IH _ _ _ _ H). lia.
    + rewrite splitLoop_done in * by lia. exact H.
Qed.

Lemma splitText_fuel_stable (text : jsstring) (fuel : nat) :
  (List.length text <= fuel)%nat ->
  splitText_fuel fuel text = splitText text.
Proof.
  intros Hle. unfold splitText, splitText_fuel.
  destruct (len text =? 0); [reflexivity |].
  destruct (splitLoop_enough_fuel (List.length text) text 0 [])
    as [result Hr]; [unfold len; lia |].
  rewrite Hr. rewrite (splitLoop_more_fuel _ _ _ _ _ Hr fuel Hle).
  reflexivity.
Qed.

Lemma splitText_returns (text : jsstring) :
  exists chunks, splitText text = Some chunks.
Proof.
  unfold splitText, splitText_fuel.
  destruct (len text =? 0); [exists []; reflexivity |].
  destruct (splitLoop_enough_fuel (List.length text) text 0 [])
    as [result Hr]; [unfold len; lia |].
  rewrite Hr. eexists. reflexivity.
Qed.

(** No snap when the window reaches the end of the text. *)
Lemma snapped_at_end (text : jsstring) (start : Z) :
  len text <= start + CHUNK_SIZE -> snapped text start = false.
Proof.
  intros H. unfold snapped.
  destruct (start + CHUNK_SIZE <? len text) eqn:E; [| reflexivity].
  apply Z.ltb_lt in E. lia.
Qed.

Lemma trim_nil : trim [] = [].
Proof. reflexivity. Qed.

End SplitText.




(** Between [CHUNK_SIZE - CHUNK_OVERLAP] and [CHUNK_SIZE] code units the
    loop runs a second time, on the last units of the text. *)
Lemma splitText_tail_chunk (text : jsstring) :
  CHUNK_SIZE - CHUNK_OVERLAP < len text < CHUNK_SIZE ->
  splitText text =
  Some (filter nonEmpty
          [trim text; trim (slice text (CHUNK_SIZE - CHUNK_OVERLAP)
                                  (2 * CHUNK_SIZE - CHUNK_OVERLAP))]).
Proof.
  unfold CHUNK_SIZE, CHUNK_OVERLAP. intros [Hlo Hhi].
  unfold splitText, splitText_fuel.
  destruct (len text =? 0) eqn:E0; [apply Z.eqb_eq in E0; lia |].
  destruct text as [| c0 [| c1 text']];
    [unfold len in Hlo; simpl in Hlo; lia
    | unfold len in Hlo; simpl in Hlo; lia |].
  remember (c0 :: c1 :: text') as text eqn:Ht.
  replace (List.length text) with (S (S (List.length text')))
    by (subst text; reflexivity).
  rewrite splitLoop_step by lia.
  assert (Hsnap : snapped text 0 = false)
    by (apply snapped_at_end; unfold CHUNK_SIZE; lia).
  rewrite (nextStart_plain _ _ Hsnap).
  unfold windowEnd at 1. rewrite Hsnap.
  rewrite slice_prefix_all by (unfold CHUNK_SIZE; lia).
  unfold CHUNK_SIZE, CHUNK_OVERLAP. simpl (0 + (1000 - 200)).
  rewrite splitLoop_step by lia.
  assert (Hsnap' : snapped text 800 = false)
    by (apply snapped_at_end; unfold CHUNK_SIZE; lia).
  rewrite (nextStart_plain _ _ Hsnap').
  unfold windowEnd. rewrite Hsnap'.
  rewrite splitLoop_done by (unfold CHUNK_SIZE, CHUNK_OVERLAP; lia).
  reflexivity.
Qed.

Example splitText_900_units :
  option_map (map (@List.length Z)) (splitText (repeat 97 900))
  = Some [900%nat; 100%nat].
Proof. vm_compute. reflexivity. Qed.

(** A text whose window is moved back to a space: 700 units, a space,
    1000 units. *)
Example splitText_snap :
  snapped (repeat 97 700 ++ [32] ++ repeat 97 1000) 0 = true
  /\ nextStart (repeat 97 700 ++ [32] ++ repeat 97 1000) 0 = 501
  /\ option_map (map (@List.length Z))
       (splitText (repeat 97 700 ++ [32] ++ repeat 97 1000))
     = Some [700%nat; 1000%nat; 400%nat].
Proof. repeat split; vm_compute; reflexivity. Qed.

(** C9.  In each iteration of the loop of [splitText] the start offset
    grows: by [CHUNK_SIZE - CHUNK_OVERLAP] without a snap, by more than
    [CHUNK_SIZE / 2 - CHUNK_OVERLAP + 1] with one; so the loop is left
    after at most one iteration per code unit, and [splitText] returns on
    every text. *)
Theorem splitText_terminates (text : jsstring) :
  (forall start, snapped text start = false ->
                 nextStart text start = start + (CHUNK_SIZE - CHUNK_OVERLAP))
  /\ (forall start, snapped text start = true ->
                    start + (CHUNK_SIZE / 2 - CHUNK_OVERLAP + 1)
                    <= nextStart text start)
  /\ (forall start, start < nextStart text start)
  /\ (forall fuel, (List.length text <= fuel)%nat ->
                   splitText_fuel fuel text = splitText text)
  /\ (exists chunks, splitText text = Some chunks).
Proof.
  split; [| split; [| split; [| split]]].
  - intros start. apply nextStart_plain.
  - intros start H. apply Z.lt_le_incl. apply nextStart_snapped. exact H.
  - intros start. apply nextStart_progress.
  - intros fuel. apply splitText_fuel_stable.
  - apply splitText_returns.
Qed.

(* ================================================================== *)
(** ** Properties of the fallback embedding                            *)
(* ================================================================== *)

Section MockEmbedding.

Lemma arraySet_length (e : embedding) :
  forall i v, List.length (arraySet e i v) = List.length e.
Proof.
  induction e as [| x e IH]; intros [| i] v; simpl; try reflexivity.
  now rewrite IH.
Qed.

Lemma nth_arraySet_same (e : embedding) :
  forall i v d, (i < List.length e)%nat -> nth i (arraySet e i v) d = v.
Proof.
  induction e as [| x e IH]; intros [| i] v d H; simpl in *;
    try lia; try reflexivity.
  apply IH. lia.
Qed.

Lemma nth_arraySet_other (e : embedding) :
  forall i j v d, i <> j -> nth j (arraySet e i v) d = nth j e d.
Proof.
  induction e as [| x e IH]; intros [| i] [| j] v d H; simpl;
    try reflexivity; try contradiction.
  apply IH. congruence.
Qed.

Lemma fillFromText_length (text : jsstring) (e : embedding) :
  List.length (fillFromText text e) = List.length e.
Proof.
  unfold fillFromText.
  generalize (seq 0 (Nat.min (List.length text) EMBEDDING_DIMENSION)).
  intros idx. revert e.
  induction idx as [| i idx IH]; intros e; simpl; [reflexivity |].
  rewrite IH. apply arraySet_length.
Qed.

Lemma featureEmbedding_length (text : jsstring) :
  List.length (featureEmbedding text) = EMBEDDING_DIMENSION.
Proof.
  unfold featureEmbedding.
  rewrite !arraySet_length, fillFromText_length. apply repeat_length.
Qed.

(** Index 2 holds the digit indicator when the array is normalised. *)
Lemma featureEmbedding_index2 (text : jsstring) :
  nth 2 (featureEmbedding text) 0%R
  = indicator (TextFeatures.hasNumbers (textFeatures text)).
Proof.
  unfold featureEmbedding.
  rewrite (nth_arraySet_other _ 4 2) by discriminate.
  rewrite (nth_arraySet_other _ 3 2) by discriminate.
  apply nth_arraySet_same.
  rewrite !arraySet_length, fillFromText_length, repeat_length.
  unfold EMBEDDING_DIMENSION. lia.
Qed.

Local Open Scope R_scope.

Lemma sumSquares_from (e : embedding) :
  forall a, fold_left (fun sum val => sum + val * val) e a
            = a + sumSquares e.
Proof.
  unfold sumSquares.
  induction e as [| x e IH]; intros a; simpl; [lra |].
  rewrite (IH (a + x * x)), (IH (0 + x * x)). lra.
Qed.

Lemma sumSquares_cons (x : R) (e : embedding) :
  sumSquares (x :: e) = x * x + sumSquares e.
Proof.
  unfold sumSquares at 1. simpl. rewrite sumSquares_from. lra.
Qed.

Lemma sumSquares_nonneg (e : embedding) : 0 <= sumSquares e.
Proof.
  induction e as [| x e IH]; [unfold sumSquares; simpl; lra |].
  rewrite sumSquares_cons. nra.
Qed.

(** Every component bounds the sum of squares from below. *)
Lemma sumSquares_ge_component (e : embedding) :
  forall i, nth i e 0 * nth i e 0 <= sumSquares e.
Proof.
  induction e as [| x e IH]; intros [| i]; simpl;
    try (unfold sumSquares; simpl; lra).
  - rewrite sumSquares_cons. pose proof (sumSquares_nonneg e). lra.
  - rewrite sumSquares_cons. specialize (IH i). nra.
Qed.

Lemma sumSquares_scaled (e : embedding) (n : R) :
  n <> 0 ->
  sumSquares (map (fun val => val / n) e) = sumSquares e / (n * n).
Proof.
  intros Hn. induction e as [| x e IH].
  - unfold sumSquares. simpl. lra.
  - simpl map. rewrite !sumSquares_cons, IH. field. exact Hn.
Qed.

Lemma featureEmbedding_sumSquares (text : jsstring) :
  1 / 4 <= sumSquares (featureEmbedding text).
Proof.
  pose proof (sumSquares_ge_component (featureEmbedding text) 2) as H.
  rewrite featureEmbedding_index2 in H.
  destruct (TextFeatures.hasNumbers (textFeatures text));
    unfold indicator in H; lra.
Qed.

Lemma featureEmbedding_norm_pos (text : jsstring) :
  0 < norm (featureEmbedding text).
Proof.
  unfold norm. apply sqrt_lt_R0.
  pose proof (featureEmbedding_sumSquares text). lra.
Qed.

(** The division is the branch [normalize] takes on a positive norm. *)
Lemma normalize_positive (e : embedding) :
  0 < norm e -> normalize e = map (fun val => val / norm e) e.
Proof.
  intros Hpos. unfold normalize. apply map_ext. intros val.
  destruct (Rlt_dec 0 (norm e)); [reflexivity | contradiction].
Qed.

Lemma normalize_length (e : embedding) :
  List.length (normalize e) = List.length e.
Proof. unfold normalize. apply length_map. Qed.

Lemma generateMockEmbedding_length (text : jsstring) :
  List.length (generateMockEmbedding text) = EMBEDDING_DIMENSION.
Proof.
  unfold generateMockEmbedding.
  rewrite normalize_length. apply featureEmbedding_length.
Qed.

Lemma normalize_unit (e : embedding) :
  0 < norm e -> norm (normalize e) = 1.
Proof.
  intros Hpos. rewrite (normalize_positive e Hpos).
  unfold norm at 1. rewrite sumSquares_scaled by lra.
  unfold norm. rewrite sqrt_sqrt by apply sumSquares_nonneg.
  assert (Hs : 0 < sumSquares e).
  { destruct (sumSquares_nonneg e) as [H | H]; [exact H |].
    unfold norm in Hpos. rewrite <- H, sqrt_0 in Hpos. lra. }
  replace (sumSquares e / sumSquares e) with 1 by (field; lra).
  apply sqrt_1.
Qed.

(** In [cosineSimilarity] a denominator that is zero comes with a
    numerator that is zero: the quotient is never infinite. *)
Lemma cosineSums_zero_over_zero (a b : embedding) :
  let '(dotProduct, normA, normB) := cosineSums a b in
  sqrt normA * sqrt normB = 0 -> dotProduct = 0.
Proof.
  unfold cosineSums.
  assert (Hinv : forall idx d na nb,
             0 <= na -> 0 <= nb -> (na = 0 -> d = 0) -> (nb = 0 -> d = 0) ->
             let '(d', na', nb') :=
               fold_left
                 (fun '(dotProduct, normA, normB) i =>
                    let aVal := nth i a 0 in
                    let bVal := nth i b 0 in
                    (dotProduct + aVal * bVal,
                     normA + aVal * aVal,
                     normB + bVal * bVal))
                 idx (d, na, nb) in
             0 <= na' /\ 0 <= nb' /\ (na' = 0 -> d' = 0)
             /\ (nb' = 0 -> d' = 0)).
  { induction idx as [| i idx IH]; intros d na nb Hna Hnb Ha Hb; simpl.
    - auto.
    - apply IH; nra. }
  specialize (Hinv (seq 0 (List.length a)) 0 0 0
                   (Rle_refl 0) (Rle_refl 0) (fun _ => eq_refl)
                   (fun _ => eq_refl)).
  destruct (fold_left _ (seq 0 (List.length a)) (0, 0, 0)) as [[d na] nb].
  destruct Hinv as [Hna [Hnb [Ha Hb]]]. intros Hden.
  apply Rmult_integral in Hden as [Hz | Hz];
    apply sqrt_eq_0 in Hz; auto.
Qed.

End MockEmbedding.

(** C3.  When the call to the embedding API throws, [generateEmbedding]
    returns, and what it returns is the local fallback vector, which is
    not [null] and has [EMBEDDING_DIMENSION] = 1536 elements. *)
Theorem generateEmbedding_api_failure
        (create : jsstring -> outcome (option embedding))
        (text message : jsstring) :
  create text = Thrown message ->
  generateEmbedding (Some create) text
  = Returned (Some (generateMockEmbedding text))
  /\ List.length (generateMockEmbedding text) = 1536%nat.
Proof.
  intros Hthrow. split.
  - unfold generateEmbedding. rewrite Hthrow. reflexivity.
  - apply generateMockEmbedding_length.
Qed.

Lemma generateEmbedding_api_failure_witness :
  generateEmbedding (Some (fun _ => Thrown (lit "quota exceeded")))
                    (lit "some text")
  = Returned (Some (generateMockEmbedding (lit "some text")))
  /\ List.length (generateMockEmbedding (lit "some text")) = 1536%nat.
Proof.
  apply (generateEmbedding_api_failure
           (fun _ => Thrown (lit "quota exceeded"))
           (lit "some text") (lit "quota exceeded")).
  reflexivity.
Defined.

(** C5.  Two calls of [generateMockEmbedding] on the same text give
    vectors of 1536 elements that agree at every index. *)
Theorem generateMockEmbedding_deterministic (text1 text2 : jsstring) :
  text1 = text2 ->
  List.length (generateMockEmbedding text1) = 1536%nat
  /\ List.length (generateMockEmbedding text2) = 1536%nat
  /\ forall i, nth i (generateMockEmbedding text1) 0%R
               = nth i (generateMockEmbedding text2) 0%R.
Proof.
  intros Heq. subst text2.
  repeat split; try apply generateMockEmbedding_length.
Qed.

Lemma generateMockEmbedding_deterministic_witness :
  List.length (generateMockEmbedding (lit "same text")) = 1536%nat
  /\ List.length (generateMockEmbedding (lit "same text")) = 1536%nat
  /\ forall i, nth i (generateMockEmbedding (lit "same text")) 0%R
               = nth i (generateMockEmbedding (lit "same text")) 0%R.
Proof.
  apply (generateMockEmbedding_deterministic (lit "same text")
                                             (lit "same text")).
  reflexivity.
Defined.

(** C10.  For every text, the empty one included, index 2 of the array
    built by [generateMockEmbedding] is 0.5 or -0.5 when it is
    normalised, so its norm is positive, every element is divided by the
    norm (the zero branch is not taken), and the vector returned has norm
    1.  Stated on reals, the idealisation of the doubles of the source. *)
Theorem generateMockEmbedding_unit_norm (text : jsstring) :
  (nth 2 (featureEmbedding text) 0 = 1 / 2
   \/ nth 2 (featureEmbedding text) 0 = - (1 / 2))%R
  /\ (0 < norm (featureEmbedding text))%R
  /\ generateMockEmbedding text
     = map (fun val => (val / norm (featureEmbedding text))%R)
           (featureEmbedding text)
  /\ norm (generateMockEmbedding text) = 1%R.
Proof.
  pose proof (featureEmbedding_norm_pos text) as Hpos.
  split; [| split; [exact Hpos | split]].
  - rewrite featureEmbedding_index2.
    destruct (TextFeatures.hasNumbers (textFeatures text));
      [left | right]; reflexivity.
  - apply normalize_positive. exact Hpos.
  - apply normalize_unit. exact Hpos.
Qed.

(* ================================================================== *)
(** ** Properties of strings, maps, sort and slice                     *)
(* ================================================================== *)

Section JsFacts.

Lemma streq_true (a b : jsstring) : streq a b = true <-> a = b.
Proof.
  unfold streq. destruct (jsstring_eq_dec a b); split; intros H;
    try reflexivity; try assumption; try discriminate. contradiction.
Qed.

Lemma streq_refl (a : jsstring) : streq a a = true.
Proof. now apply streq_true. Qed.

Lemma mapGet_In {V : Type} (k : jsstring) (m : jsmap V) (v : V) :
  mapGet k m = Some v -> In (k, v) m.
Proof.
  induction m as [| [k' v'] m IH]; simpl; [discriminate |].
  destruct (streq k' k) eqn:E.
  - intros H. injection H as ->. apply streq_true in E. subst. now left.
  - intros H. right. now apply IH.
Qed.

Lemma mapDelete_In {V : Type} (k : jsstring) (m : jsmap V) e :
  In e (mapDelete k m) -> In e m /\ fst e <> k.
Proof.
  unfold mapDelete. rewrite filter_In. intros [Hin Hk]. split; [exact Hin |].
  intros Heq. rewrite Heq, streq_refl in Hk. discriminate.
Qed.

Context {A : Type}.

Section SortFacts.
Variable cmp : A -> A -> comparison.

Lemma insertSorted_perm (x : A) (l : list A) :
  Permutation (x :: l) (insertSorted cmp x l).
Proof.
  induction l as [| y l IH]; simpl; [apply Permutation_refl |].
  destruct (cmp x y); try apply Permutation_refl.
  eapply perm_trans; [apply perm_swap |]. now apply perm_skip.
Qed.

(** [sort] rearranges and neither adds nor drops. *)
Lemma sort_perm (l : list A) : Permutation l (sort cmp l).
Proof.
  induction l as [| x l IH]; simpl; [apply perm_nil |].
  eapply perm_trans; [| apply insertSorted_perm]. now apply perm_skip.
Qed.

Lemma sort_In (l : list A) (x : A) : In x (sort cmp l) <-> In x l.
Proof.
  split; apply Permutation_in;
    [apply Permutation_sym |]; apply sort_perm.
Qed.

Lemma sort_length (l : list A) : List.length (sort cmp l) = List.length l.
Proof. symmetry. apply Permutation_length, sort_perm. Qed.

End SortFacts.

(** From index 0, [slice] keeps a prefix. *)
Lemma slice_from_0 (l : list A) (limit : Z) :
  slice l 0 limit = firstn (Z.to_nat (relIndex (len l) limit)) l.
Proof.
  unfold slice. pose proof (len_nonneg l) as Hl.
  replace (relIndex (len l) 0) with 0
    by (unfold relIndex; simpl; lia).
  rewrite Z.sub_0_r. reflexivity.
Qed.

Lemma slice_In (l : list A) (limit : Z) (x : A) :
  In x (slice l 0 limit) -> In x l.
Proof.
  rewrite slice_from_0.
  generalize (Z.to_nat (relIndex (len l) limit)). intros n. revert l.
  induction n as [| n IH]; intros [| y l']; simpl; try tauto.
  intros [H | H]; [now left | right; now apply IH].
Qed.

(** With a limit that is not negative, [slice] keeps at most [limit]
    elements. *)
Lemma slice_length_le (l : list A) (limit : Z) :
  0 <= limit -> len (slice l 0 limit) <= limit.
Proof.
  intros Hlimit. rewrite slice_from_0. unfold len.
  rewrite length_firstn. unfold relIndex.
  destruct (limit <? 0) eqn:E; [apply Z.ltb_lt in E; lia |]. lia.
Qed.

Lemma StronglySorted_firstn (R : A -> A -> Prop) (n : nat) :
  forall l, StronglySorted R l -> StronglySorted R (firstn n l).
Proof.
  induction n as [| n IH]; intros l Hs; simpl; [constructor |].
  destruct l as [| x l]; [constructor |].
  apply StronglySorted_inv in Hs as [Hs Hx].
  constructor; [now apply IH |].
  rewrite Forall_forall in *. intros y Hy. apply Hx.
  rewrite <- (firstn_skipn n l). apply in_or_app. now left.
Qed.

(** A loop that pushes onto its accumulator builds a [flat_map]. *)
Lemma fold_left_push {B : Type} (f : list B -> A -> list B)
      (g : A -> list B) :
  (forall acc x, f acc x = acc ++ g x) ->
  forall l acc, fold_left f l acc = acc ++ flat_map g l.
Proof.
  intros Hf. induction l as [| x l IH]; intros acc; simpl.
  - now rewrite app_nil_r.
  - rewrite IH, Hf. now rewrite <- app_assoc.
Qed.

Lemma filter_none (p : A -> bool) (l : list A) :
  (forall x, In x l -> p x = false) -> filter p l = [].
Proof.
  induction l as [| x l IH]; intros H; simpl; [reflexivity |].
  rewrite (H x (or_introl eq_refl)). apply IH.
  intros y Hy. apply H. now right.
Qed.

End JsFacts.

(* ================================================================== *)
(** ** Properties of the vector store                                  *)
(* ================================================================== *)

Section Search.

Lemma notBelow_trans (a b c : SearchResult.t) :
  notBelow a b -> notBelow b c -> notBelow a c.
Proof.
  unfold notBelow.
  destruct (SearchResult.similarity a), (SearchResult.similarity b),
    (SearchResult.similarity c); try tauto. lra.
Qed.

(** What the comparator decides on two scored results. *)
Lemma bySimilarity_order (x y : SearchResult.t) :
  scored x -> scored y ->
  match bySimilarity x y with
  | Gt => notBelow y x
  | _ => notBelow x y
  end.
Proof.
  unfold scored, bySimilarity, notBelow, sortOrder, jsSub.
  destruct (SearchResult.similarity x) as [sx |],
           (SearchResult.similarity y) as [sy |]; try congruence.
  intros _ _.
  destruct (Rlt_dec (sy - sx) 0); [lra |].
  destruct (Rlt_dec 0 (sy - sx)); lra.
Qed.

Lemma insertSorted_bySimilarity (x : SearchResult.t) (l : list SearchResult.t) :
  scored x -> Forall scored l ->
  StronglySorted notBelow l ->
  StronglySorted notBelow (insertSorted bySimilarity x l).
Proof.
  intros Hx Hl Hs. induction l as [| y l IH]; simpl.
  - repeat constructor.
  - apply Forall_cons_iff in Hl as [Hy Hl].
    apply StronglySorted_inv in Hs as [Hs Hyl].
    pose proof (bySimilarity_order x y Hx Hy) as Hord.
    assert (Hfront : notBelow x y ->
                     StronglySorted notBelow (x :: y :: l)).
    { intros Hxy. constructor; [constructor; assumption |].
      constructor; [exact Hxy |].
      rewrite Forall_forall in *. intros z Hz.
      apply (notBelow_trans x y z Hxy). now apply Hyl. }
    destruct (bySimilarity x y); try (now apply Hfront).
    constructor; [now apply IH |].
    rewrite Forall_forall in *. intros z Hz.
    apply (Permutation_in _ (Permutation_sym (insertSorted_perm _ x l)))
      in Hz.
    destruct Hz as [<- | Hz]; [exact Hord | now apply Hyl].
Qed.

(** Scored results leave [sort] in non-increasing order of similarity. *)
Lemma sort_bySimilarity (l : list SearchResult.t) :
  Forall scored l -> StronglySorted notBelow (sort bySimilarity l).
Proof.
  induction l as [| x l IH]; intros H; simpl; [constructor |].
  apply Forall_cons_iff in H as [Hx Hl].
  apply insertSorted_bySimilarity; [exact Hx | | now apply IH].
  rewrite Forall_forall in *. intros y Hy. apply Hl.
  now apply (sort_In bySimilarity l y).
Qed.

Lemma scoreChunks_flat_map (q : embedding) (s : Store) chunks :
  scoreChunks q chunks s = flat_map (scoredRow q s) chunks.
Proof.
  unfold scoreChunks.
  rewrite (fold_left_push _ (scoredRow q s)); [reflexivity |].
  intros acc chunk. unfold scoredRow.
  destruct (mapGet _ (memoryVectors s)); [reflexivity |].
  now rewrite app_nil_r.
Qed.

Lemma findMany_In (where_ : option jsstring) table chunk :
  In chunk (findMany where_ table) -> In chunk table.
Proof.
  unfold findMany. rewrite sort_In, filter_In. tauto.
Qed.

Lemma memoryResults_flat_map (q : embedding) (documentId : option jsstring)
      (vectors : list MemoryVector.t) :
  fold_left
    (fun results vector =>
       if otherDocument documentId vector then results
       else results ++ [resultOfVector q vector])
    vectors []
  = flat_map (fun vector => if otherDocument documentId vector then []
                            else [resultOfVector q vector]) vectors.
Proof.
  rewrite (fold_left_push _ (fun vector =>
                               if otherDocument documentId vector then []
                               else [resultOfVector q vector]));
    [reflexivity |].
  intros acc v. destruct (otherDocument documentId v); [| reflexivity].
  now rewrite app_nil_r.
Qed.

(** Every result of the durable branch is a row of the table scored
    with the vector the in-process map holds under the key of the row. *)
Lemma durable_result_origin (q : embedding) (documentId : option jsstring)
      (limit : Z) (s : Store) (r : SearchResult.t) :
  In r (slice (sort bySimilarity
                 (scoreChunks q (findMany (truthy documentId)
                                          (documentChunk s)) s))
              0 limit) ->
  exists chunk memoryVector,
    In chunk (documentChunk s)
    /\ mapGet (vectorKey (DocumentChunk.document_id chunk)
                         (DocumentChunk.chunk_index chunk))
              (memoryVectors s) = Some memoryVector
    /\ r = {| SearchResult.content := DocumentChunk.content chunk;
              SearchResult.similarity :=
                cosineSimilarity q (MemoryVector.embedding memoryVector);
              SearchResult.document_id := DocumentChunk.document_id chunk;
              SearchResult.chunk_index := DocumentChunk.chunk_index chunk;
              SearchResult.page_number :=
                orNull (DocumentChunk.page_number chunk) |}.
Proof.
  intros H. apply slice_In in H. rewrite sort_In in H.
  rewrite scoreChunks_flat_map in H. apply in_flat_map in H.
  destruct H as [chunk [Hchunk Hr]]. apply findMany_In in Hchunk.
  unfold scoredRow in Hr.
  destruct (mapGet _ (memoryVectors s)) as [mv |] eqn:Hget;
    [| contradiction].
  destruct Hr as [<- | []]. exists chunk, mv.
  split; [exact Hchunk | split; [exact Hget | reflexivity]].
Qed.

(** The results before [sort] are scored when the stored vectors are. *)
Lemma semanticSearch_sorted_part (q : embedding)
      (prisma : Backend) (documentId : option jsstring) (s : Store) :
  (forall key v, In (key, v) (memoryVectors s) ->
                 cosineSimilarity q (MemoryVector.embedding v) <> NaN) ->
  Forall scored
    (scoreChunks q (findMany (truthy documentId) (documentChunk s)) s)
  /\ Forall scored
       (fold_left
          (fun results vector =>
             if otherDocument documentId vector then results
             else results ++ [resultOfVector q vector])
          (mapValues (memoryVectors s)) []).
Proof.
  intros Hnum. split; rewrite Forall_forall; intros r Hr.
  - rewrite scoreChunks_flat_map in Hr. apply in_flat_map in Hr.
    destruct Hr as [chunk [_ Hr]]. unfold scoredRow in Hr.
    destruct (mapGet _ (memoryVectors s)) as [mv |] eqn:Hget;
      [| contradiction].
    destruct Hr as [<- | []]. unfold scored. simpl.
    apply mapGet_In in Hget. now apply (Hnum _ _ Hget).
  - rewrite memoryResults_flat_map in Hr. apply in_flat_map in Hr.
    destruct Hr as [v [Hv Hr]].
    destruct (otherDocument documentId v); [contradiction |].
    destruct Hr as [<- | []]. unfold scored, resultOfVector. simpl.
    unfold mapValues in Hv. apply in_map_iff in Hv.
    destruct Hv as [[key v'] [Heq Hin]]. simpl in Heq. subst v'.
    now apply (Hnum _ _ Hin).
Qed.

End Search.

(** C2.  With the database configured and its query answering,
    [semanticSearch] returns only rows scored with the vector that the
    in-process map holds under the key of the row; a chunk that
    [saveChunkVector] wrote to the database alone, the map holding nothing
    under its key, is in no result: the row of the table has no vector. *)
Theorem semanticSearch_durable_needs_memory_vector
        (client : OpenAI) (query : jsstring) (documentId : option jsstring)
        (limit : Z) (s : Store) :
  (forall r,
      In r (semanticSearch client (Prisma true) query documentId limit s) ->
      exists q chunk memoryVector,
        generateEmbedding client query = Returned (Some q)
        /\ In chunk (documentChunk s)
        /\ mapGet (vectorKey (DocumentChunk.document_id chunk)
                             (DocumentChunk.chunk_index chunk))
                  (memoryVectors s) = Some memoryVector
        /\ r = {| SearchResult.content := DocumentChunk.content chunk;
                  SearchResult.similarity :=
                    cosineSimilarity q (MemoryVector.embedding memoryVector);
                  SearchResult.document_id := DocumentChunk.document_id chunk;
                  SearchResult.chunk_index := DocumentChunk.chunk_index chunk;
                  SearchResult.page_number :=
                    orNull (DocumentChunk.page_number chunk) |})
  /\ (forall d content e i pageNumber now,
         mapGet (vectorKey d i) (memoryVectors s) = None ->
         let saved :=
           saveChunkVector (Prisma true) d content e i pageNumber now s in
         fst saved = true
         /\ memoryVectors (snd saved) = memoryVectors s
         /\ In {| DocumentChunk.document_id := d;
                  DocumentChunk.content := content;
                  DocumentChunk.page_number := orNull pageNumber;
                  DocumentChunk.chunk_index := i;
                  DocumentChunk.token_count := Some (tokenEstimate content) |}
               (documentChunk (snd saved))
         /\ forall r,
             In r (semanticSearch client (Prisma true) query documentId limit
                                  (snd saved)) ->
             ~ (SearchResult.document_id r = d
                /\ SearchResult.chunk_index r = i)).
Proof.
  assert (Horigin : forall s' r,
             In r (semanticSearch client (Prisma true) query documentId limit s') ->
             exists q chunk memoryVector,
               generateEmbedding client query = Returned (Some q)
               /\ In chunk (documentChunk s')
               /\ mapGet (vectorKey (DocumentChunk.document_id chunk)
                                    (DocumentChunk.chunk_index chunk))
                         (memoryVectors s') = Some memoryVector
               /\ r = {| SearchResult.content := DocumentChunk.content chunk;
                         SearchResult.similarity :=
                           cosineSimilarity q (MemoryVector.embedding memoryVector);
                         SearchResult.document_id := DocumentChunk.document_id chunk;
                         SearchResult.chunk_index := DocumentChunk.chunk_index chunk;
                         SearchResult.page_number :=
                           orNull (DocumentChunk.page_number chunk) |}).
  { intros s' r Hr. unfold semanticSearch in Hr.
    destruct (generateEmbedding client query) as [[q |] | message];
      try contradiction.
    apply durable_result_origin in Hr.
    destruct Hr as [chunk [mv [Hin [Hget Heq]]]].
    exists q, chunk, mv. auto. }
  split; [apply Horigin |].
  intros d content e i pageNumber now Hnone saved.
  split; [reflexivity | split; [reflexivity | split]].
  - simpl. apply in_or_app. right. now left.
  - intros r Hr [Hd Hi]. apply Horigin in Hr.
    destruct Hr as [q [chunk [mv [_ [_ [Hget Heq]]]]]].
    subst r. simpl in Hd, Hi, Hget. rewrite Hd, Hi in Hget. congruence.
Qed.

(** A chunk saved to the database alone is not found by the search. *)
Example semanticSearch_durable_only_chunk :
  semanticSearch unitClient (Prisma true) (lit "chunk") None 5 durableStoreX
  = []
  /\ List.length (documentChunk durableStoreX) = 1%nat.
Proof. split; reflexivity. Qed.

(** C4, as the code has it.  With a limit that is not negative,
    [semanticSearch] returns at most [limit] results; and when the
    similarity of the query to every stored vector is a number (not
    [NaN]), the results are in non-increasing order of similarity. *)
Theorem semanticSearch_limit_and_order
        (client : OpenAI) (prisma : Backend) (query : jsstring)
        (documentId : option jsstring) (limit : Z) (s : Store) :
  0 <= limit ->
  len (semanticSearch client prisma query documentId limit s) <= limit
  /\ ((forall q key v,
          generateEmbedding client query = Returned (Some q) ->
          In (key, v) (memoryVectors s) ->
          cosineSimilarity q (MemoryVector.embedding v) <> NaN) ->
      StronglySorted notBelow
        (semanticSearch client prisma query documentId limit s)).
Proof.
  intros Hlimit. unfold semanticSearch, memorySemanticSearch.
  destruct (generateEmbedding client query) as [[q |] | message];
    try (split; [simpl; assumption | intros _; constructor]).
  assert (Hsorted : forall results,
             Forall scored results ->
             StronglySorted notBelow (slice (sort bySimilarity results) 0 limit)).
  { intros results Hres. rewrite slice_from_0.
    apply StronglySorted_firstn. now apply sort_bySimilarity. }
  destruct prisma as [| [|]];
    (split; [now apply slice_length_le |]);
    intros Hnum; apply Hsorted;
    apply (semanticSearch_sorted_part q (Prisma true) documentId s);
    intros key v; now apply (Hnum q key v).
Qed.

Lemma cosineSimilarity_1_1 : cosineSimilarity [1%R] [1%R] = Num 1.
Proof.
  unfold cosineSimilarity, cosineSums. simpl.
  replace (0 + 1 * 1)%R with 1%R by lra. rewrite sqrt_1.
  unfold jsDiv. destruct (Req_dec_T (1 * 1) 0); [lra |].
  f_equal. field.
Qed.

Lemma cosineSimilarity_1_minus1 : cosineSimilarity [1%R] [(-1)%R] = Num (-1).
Proof.
  unfold cosineSimilarity, cosineSums. simpl.
  replace (0 + -1 * -1)%R with 1%R by lra.
  replace (0 + 1 * 1)%R with 1%R by lra. rewrite sqrt_1.
  unfold jsDiv. destruct (Req_dec_T (1 * 1) 0); [lra |].
  f_equal. field.
Qed.

(** A stored vector that is all zero has no similarity to compare. *)
Example cosineSimilarity_zero_vector : cosineSimilarity [1%R] [0%R] = NaN.
Proof.
  unfold cosineSimilarity, cosineSums. simpl.
  replace (0 + 0 * 0)%R with 0%R by lra. rewrite sqrt_0.
  unfold jsDiv. destruct (Req_dec_T (sqrt (0 + 1 * 1) * 0) 0) as [_ | Hne];
    [reflexivity | exfalso; apply Hne; ring].
Qed.

Lemma semanticSearch_limit_and_order_witness :
  len (semanticSearch unitClient NoPrisma (lit "test") (Some (lit "X")) 1
                      memoryStoreX) <= 1
  /\ StronglySorted notBelow
       (semanticSearch unitClient NoPrisma (lit "test") (Some (lit "X")) 1
                       memoryStoreX).
Proof.
  destruct (semanticSearch_limit_and_order
              unitClient NoPrisma (lit "test") (Some (lit "X")) 1 memoryStoreX)
    as [Hlen Hsorted]; [lia |].
  split; [exact Hlen |]. apply Hsorted.
  intros q key v Hq Hin. injection Hq as <-.
  destruct Hin as [Hin | [Hin | []]]; injection Hin as _ <-; simpl.
  - rewrite cosineSimilarity_1_1. discriminate.
  - rewrite cosineSimilarity_1_minus1. discriminate.
Defined.

(** C4, as stated, fails for a negative limit: [slice(0, -1)] drops the
    last result only, so a search with limit -1 over two stored vectors
    returns one result, which is more than the limit. *)
Lemma semanticSearch_limit_counterexample :
  len (semanticSearch unitClient NoPrisma (lit "test") (Some (lit "X")) (-1)
                      memoryStoreX) = 1
  /\ ~ (len (semanticSearch unitClient NoPrisma (lit "test") (Some (lit "X"))
                            (-1) memoryStoreX) <= -1).
Proof.
  assert (Hlen : len (semanticSearch unitClient NoPrisma (lit "test")
                                     (Some (lit "X")) (-1) memoryStoreX) = 1).
  { unfold semanticSearch, memorySemanticSearch. simpl generateEmbedding.
    cbv iota beta. rewrite slice_from_0. unfold len.
    rewrite length_firstn, sort_length. reflexivity. }
  split; [exact Hlen | rewrite Hlen; lia].
Qed.

(** With an all-zero vector in the store one similarity is [NaN], and
    the results are in no order of similarity. *)
Example semanticSearch_nan_unordered :
  ~ StronglySorted notBelow
      (semanticSearch unitClient NoPrisma (lit "test") None 5 zeroStoreX).
Proof.
  unfold semanticSearch, memorySemanticSearch. simpl generateEmbedding.
  cbv iota beta. cbn -[cosineSimilarity bySimilarity slice sort].
  unfold resultOfVector. cbn -[cosineSimilarity bySimilarity slice sort lit].
  rewrite cosineSimilarity_1_1, cosineSimilarity_zero_vector.
  unfold sort. cbn -[bySimilarity slice lit].
  unfold bySimilarity at 1. cbn -[slice lit].
  rewrite slice_from_0. cbn -[lit].
  intros H. apply StronglySorted_inv in H as [_ H].
  apply Forall_inv in H. exact H.
Qed.

Section Delete.

Lemma clearMemory_subset (documentId : jsstring) (snapshot : jsmap MemoryVector.t) :
  forall m e,
    In e (fold_left (deleteIfOf documentId) snapshot m) ->
    In e m.
Proof.
  induction snapshot as [| x snapshot IH]; intros m e H; simpl in H;
    [exact H |].
  apply IH in H. unfold deleteIfOf in H.
  destruct (streq (MemoryVector.document_id (snd x)) documentId);
    [now apply mapDelete_In in H | exact H].
Qed.

Lemma clearMemory_visited (documentId : jsstring) (snapshot : jsmap MemoryVector.t) :
  forall m e,
    In e snapshot ->
    In e (fold_left (deleteIfOf documentId) snapshot m) ->
    streq (MemoryVector.document_id (snd e)) documentId = false.
Proof.
  induction snapshot as [| x snapshot IH]; intros m e Hin H;
    [contradiction |].
  simpl in H. destruct Hin as [-> | Hin]; [| now apply (IH _ _ Hin H)].
  destruct (streq (MemoryVector.document_id (snd e)) documentId) eqn:E;
    [| reflexivity].
  apply clearMemory_subset in H. unfold deleteIfOf in H. rewrite E in H.
  apply mapDelete_In in H. now destruct H.
Qed.

(** After the loop the map holds no vector of the document. *)
Lemma clearMemory_clears (documentId : jsstring) (m : jsmap MemoryVector.t) e :
  In e (clearMemory documentId m) ->
  In e m /\ streq (MemoryVector.document_id (snd e)) documentId = false.
Proof.
  unfold clearMemory. intros H. split.
  - now apply clearMemory_subset in H.
  - apply (clearMemory_visited documentId m m e); [| exact H].
    now apply clearMemory_subset in H.
Qed.

Lemma memoryDocumentChunks_cleared (documentId : jsstring) (s : Store) table :
  memoryDocumentChunks documentId
    {| documentChunk := table;
       memoryVectors := clearMemory documentId (memoryVectors s) |} = [].
Proof.
  unfold memoryDocumentChunks. simpl memoryVectors.
  rewrite filter_none; [reflexivity |].
  intros v Hv. unfold mapValues in Hv. apply in_map_iff in Hv.
  destruct Hv as [e [<- He]]. now apply clearMemory_clears in He.
Qed.

Lemma findMany_deleted (documentId : jsstring) table :
  findMany (Some documentId) (deleteMany documentId table) = [].
Proof.
  unfold findMany, deleteMany. rewrite filter_none; [reflexivity |].
  intros c Hc. apply filter_In in Hc as [_ Hc].
  now apply negb_true_iff in Hc.
Qed.

End Delete.

(** C6, as the code has it.  [deleteDocumentVectors] returns [true] on
    every call.  After [deleteDocumentVectors(d)], [getDocumentChunks(d)]
    is empty when the delete reached the database ([prisma1] is
    [Prisma true]) or when the read is served by the in-process map
    ([prisma2] is not [Prisma true]: no database, or its query rejects). *)
Theorem deleteDocumentVectors_then_getDocumentChunks
        (prisma1 prisma2 : Backend) (d : jsstring) (s : Store) :
  prisma1 = Prisma true \/ prisma2 <> Prisma true ->
  getDocumentChunks prisma2 d (snd (deleteDocumentVectors prisma1 d s)) = []
  /\ fst (deleteDocumentVectors prisma1 d s) = true
  /\ fst (deleteDocumentVectors prisma2 d
            (snd (deleteDocumentVectors prisma1 d s))) = true
  /\ (forall prisma d' s', fst (deleteDocumentVectors prisma d' s') = true).
Proof.
  intros Hcase.
  assert (Htrue : forall prisma d' s',
             fst (deleteDocumentVectors prisma d' s') = true)
    by (intros [| [|]] d' s'; reflexivity).
  split; [| repeat split; apply Htrue].
  destruct prisma2 as [| [|]].
  - destruct prisma1 as [| [|]]; simpl; apply memoryDocumentChunks_cleared.
  - destruct Hcase as [-> | Hne]; [| congruence].
    simpl. now rewrite findMany_deleted.
  - destruct prisma1 as [| [|]]; simpl; apply memoryDocumentChunks_cleared.
Qed.

Lemma deleteDocumentVectors_then_getDocumentChunks_witness :
  getDocumentChunks NoPrisma (lit "X")
    (snd (deleteDocumentVectors NoPrisma (lit "X") memoryStoreX)) = []
  /\ fst (deleteDocumentVectors NoPrisma (lit "X") memoryStoreX) = true
  /\ fst (deleteDocumentVectors NoPrisma (lit "X")
            (snd (deleteDocumentVectors NoPrisma (lit "X") memoryStoreX)))
     = true
  /\ (forall prisma d' s', fst (deleteDocumentVectors prisma d' s') = true).
Proof.
  apply (deleteDocumentVectors_then_getDocumentChunks
           NoPrisma NoPrisma (lit "X") memoryStoreX).
  right. discriminate.
Defined.

(** C6, as stated, fails when the delete meets a database whose query
    rejects and the read that follows meets it answering: the rows of the
    document are still in the table, and they are returned. *)
Lemma deleteDocumentVectors_counterexample :
  fst (deleteDocumentVectors (Prisma false) (lit "X") durableStoreX) = true
  /\ getDocumentChunks (Prisma true) (lit "X")
       (snd (deleteDocumentVectors (Prisma false) (lit "X") durableStoreX))
     <> [].
Proof.
  split; [reflexivity | vm_compute; discriminate].
Qed.

(* ================================================================== *)
(** ** Properties of job processing                                    *)
(* ================================================================== *)

Section JobProcessing.

Variable World : Type.
Variable readFileSync : jsstring -> M World jsstring.
Variable pdfParse : jsstring -> M World (Z * jsstring).
Variable createDocument : NewDocument.t -> M World Document.t.
Variable processDocumentVectorization : jsstring -> jsstring -> M World bool.
Variable unlinkSync : jsstring -> M World unit.

Local Abbreviation fileBody :=
  (processFileBody World readFileSync pdfParse createDocument
                   processDocumentVectorization unlinkSync).
Local Abbreviation oneFile :=
  (processFile World readFileSync pdfParse createDocument
               processDocumentVectorization unlinkSync).
Local Abbreviation allFiles :=
  (processFiles World readFileSync pdfParse createDocument
                processDocumentVectorization unlinkSync).





Variable progressCallback : Z -> M World unit.
Hypothesis progressCallback_returns :
  forall p w, fst (progressCallback p w) = Returned tt.



End JobProcessing.



(** Three files, the second of which cannot be read: two ['completed']
    entries and one ['failed'], and progress 0, 33, 67, 100. *)
Example processJob_three_files :
  exists result,
    processExample = (Returned result, [0; 33; 67; 100])
    /\ map FileResult.status (JobResult.results result)
       = [completed; failed; completed]
    /\ map FileResult.error (JobResult.results result)
       = [None; Some (lit "ENOENT: no such file"); None]
    /\ JobResult.totalFiles result = 3
    /\ JobResult.processedFiles result = 2
    /\ JobResult.failedFiles result = 1.
Proof.
  eexists. split; [vm_compute; reflexivity |]. repeat split.
Qed.

(* ================================================================== *)
(** ** Properties of the in-process queue                              *)
(* ================================================================== *)

Section QueueStats.

Lemma count_balanced (stats : Stats.t) (job : MemoryJob.t) :
  balanced stats -> balanced (count stats job).
Proof.
  unfold balanced, count. intros H.
  destruct (MemoryJob.status job); simpl; lia.
Qed.

Lemma count_total (stats : Stats.t) (job : MemoryJob.t) :
  Stats.total (count stats job) = Stats.total stats + 1.
Proof. unfold count. destruct (MemoryJob.status job); reflexivity. Qed.

Lemma fold_count (jobs : list MemoryJob.t) :
  forall stats,
    balanced stats ->
    balanced (fold_left count jobs stats)
    /\ Stats.total (fold_left count jobs stats)
       = Stats.total stats + len jobs.
Proof.
  induction jobs as [| job jobs IH]; intros stats H; simpl.
  - split; [exact H | unfold len; simpl; lia].
  - destruct (IH (count stats job) (count_balanced _ _ H)) as [Hb Ht].
    split; [exact Hb |]. rewrite Ht, count_total.
    unfold len. simpl List.length. lia.
Qed.

(** The counts of any table of jobs add up. *)
Lemma getQueueStats_balanced (q : Queue) :
  balanced (getQueueStats q)
  /\ Stats.total (getQueueStats q) = len (memoryJobs q).
Proof.
  unfold getQueueStats.
  destruct (fold_count (mapValues (memoryJobs q))
              {| Stats.waiting := 0; Stats.active := 0; Stats.completed := 0;
                 Stats.failed := 0; Stats.total := 0 |} eq_refl) as [Hb Ht].
  split; [exact Hb |]. rewrite Ht. unfold mapValues, len.
  rewrite length_map. reflexivity.
Qed.

End QueueStats.

(** C8.  After any sequence of submissions, cancellations, progress
    reports, settlements of the running job and clean-ups, the counts of
    [getQueueStats] add up: waiting + active + completed + failed = total,
    and total is the number of jobs in the table. *)
Theorem getQueueStats_sum (ops : list Op) :
  Stats.waiting (getQueueStats (run ops))
  + Stats.active (getQueueStats (run ops))
  + Stats.completed (getQueueStats (run ops))
  + Stats.failed (getQueueStats (run ops))
  = Stats.total (getQueueStats (run ops))
  /\ Stats.total (getQueueStats (run ops)) = len (memoryJobs (run ops)).
Proof.
  apply getQueueStats_balanced.
Qed.

(** The run of [queueExample]: job 1 is completed, job 2 is running,
    job 3 has left the table. *)
Example getQueueStats_example :
  getQueueStats queueExample
  = {| Stats.waiting := 0; Stats.active := 1; Stats.completed := 1;
       Stats.failed := 0; Stats.total := 2 |}
  /\ map fst (memoryJobs queueExample) = [lit "job_1"; lit "job_2"]
  /\ running queueExample = Some (lit "job_2")
  /\ memoryQueue queueExample = [].
Proof. repeat split; vm_compute; reflexivity. Qed.

(* ================================================================== *)
(** ** Further properties: cosine similarity                           *)
(* ================================================================== *)

Section Cosine.

Local Open Scope R_scope.

Lemma fold_left_pointwise {S I : Type} (f g : S -> I -> S) (l : list I) :
  (forall acc i, f acc i = g acc i) ->
  forall acc, fold_left f l acc = fold_left g l acc.
Proof.
  intros Hfg. induction l as [| i l IH]; intros acc; simpl; [reflexivity |].
  rewrite Hfg. apply IH.
Qed.

Lemma fold_left_shifted {S : Type} (f : S -> nat -> S) (l : list nat) :
  forall acc,
    fold_left f (map Datatypes.S l) acc
    = fold_left (fun acc i => f acc (Datatypes.S i)) l acc.
Proof.
  induction l as [| i l IH]; intros acc; simpl; [reflexivity | apply IH].
Qed.

Lemma cosineSums_from (a : embedding) :
  forall b d na nb,
    List.length a = List.length b ->
    fold_left
      (fun '(dotProduct, normA, normB) i =>
         let aVal := nth i a 0 in
         let bVal := nth i b 0 in
         (dotProduct + aVal * bVal, normA + aVal * aVal,
          normB + bVal * bVal))
      (seq 0 (List.length a)) (d, na, nb)
    = (d + dot a b, na + sumSquares a, nb + sumSquares b).
Proof.
  induction a as [| x a IH]; intros [| y b] d na nb Hlen;
    try discriminate.
  - simpl. unfold sumSquares. simpl. f_equal; [f_equal |]; ring.
  - simpl List.length. simpl seq. simpl fold_left.
    rewrite <- seq_shift, fold_left_shifted.
    rewrite (fold_left_pointwise _
               (fun '(dotProduct, normA, normB) i =>
                  let aVal := nth i a 0 in
                  let bVal := nth i b 0 in
                  (dotProduct + aVal * bVal, normA + aVal * aVal,
                   normB + bVal * bVal)))
      by (intros [[d' na'] nb'] i; reflexivity).
    rewrite IH by (simpl in Hlen; lia).
    rewrite !sumSquares_cons. simpl dot. f_equal; [f_equal |]; ring.
Qed.

(** The three sums of [cosineSimilarity] on arrays of one length. *)
Lemma cosineSums_value (a b : embedding) :
  List.length a = List.length b ->
  cosineSums a b = (dot a b, sumSquares a, sumSquares b).
Proof.
  intros Hlen. unfold cosineSums. rewrite cosineSums_from by exact Hlen.
  f_equal; [f_equal |]; ring.
Qed.

Lemma dot_comm (a : embedding) : forall b, dot a b = dot b a.
Proof.
  induction a as [| x a IH]; intros [| y b]; simpl; try reflexivity.
  rewrite IH. ring.
Qed.








End Cosine.

(** X1.  [cosineSimilarity] does not depend on the order of its
    arguments. *)
Theorem cosineSimilarity_comm (a b : embedding) :
  cosineSimilarity a b = cosineSimilarity b a.
Proof.
  unfold cosineSimilarity.
  destruct (Nat.eqb (List.length a) (List.length b)) eqn:E.
  - apply Nat.eqb_eq in E. rewrite <- E, Nat.eqb_refl. simpl.
    rewrite (cosineSums_value a b E), (cosineSums_value b a (eq_sym E)).
    rewrite dot_comm, Rmult_comm. reflexivity.
  - rewrite Nat.eqb_sym in E. rewrite E. reflexivity.
Qed.




(* ================================================================== *)
(** ** Further properties: reading the vector store                    *)
(* ================================================================== *)

Section SortByKey.

Context {A : Type}.
Variable key : A -> Z.

Lemma insertSorted_by_key (x : A) (l : list A) :
  StronglySorted (fun a b => key a <= key b) l ->
  StronglySorted (fun a b => key a <= key b)
                 (insertSorted (fun a b => key a ?= key b) x l).
Proof.
  intros Hs. induction l as [| y l IH]; simpl.
  - repeat constructor.
  - apply StronglySorted_inv in Hs as [Hs Hy].
    destruct (Z.compare_spec (key x) (key y)) as [E | E | E].
    + constructor; [now constructor |].
      constructor; [cbv beta; lia |]. rewrite Forall_forall in *.
      intros z Hz. specialize (Hy z Hz). cbv beta in *. lia.
    + constructor; [now constructor |].
      constructor; [cbv beta; lia |]. rewrite Forall_forall in *.
      intros z Hz. specialize (Hy z Hz). cbv beta in *. lia.
    + constructor; [now apply IH |].
      rewrite Forall_forall in *. intros z Hz.
      apply (Permutation_in _ (Permutation_sym (insertSorted_perm _ x l)))
        in Hz.
      destruct Hz as [<- | Hz]; [cbv beta; lia | now apply Hy].
Qed.

(** Sorting by an integer key leaves the keys in ascending order. *)
Lemma sort_by_key (l : list A) :
  StronglySorted (fun a b => key a <= key b)
                 (sort (fun a b => key a ?= key b) l).
Proof.
  induction l as [| x l IH]; simpl; [constructor |].
  now apply insertSorted_by_key.
Qed.

(** A list whose keys ascend is left as it is. *)
Lemma sort_ascending_id (l : list A) :
  StronglySorted (fun a b => key a <= key b) l ->
  sort (fun a b => key a ?= key b) l = l.
Proof.
  induction l as [| x l IH]; intros Hs; simpl; [reflexivity |].
  apply StronglySorted_inv in Hs as [Hs Hx]. rewrite (IH Hs).
  destruct l as [| y l]; [reflexivity |]. simpl.
  apply Forall_inv in Hx.
  destruct (Z.compare_spec (key x) (key y)) as [E | E | E];
    try reflexivity.
  lia.
Qed.

End SortByKey.

Lemma StronglySorted_map {A B : Type} (f : A -> B) (R : B -> B -> Prop)
      (l : list A) :
  StronglySorted (fun a b => R (f a) (f b)) l -> StronglySorted R (map f l).
Proof.
  induction 1 as [| x l Hs IH Hx]; simpl; constructor; [exact IH |].
  rewrite Forall_forall in *. intros y Hy. apply in_map_iff in Hy.
  destruct Hy as [z [<- Hz]]. now apply Hx.
Qed.

(** X4.  [getDocumentChunks] returns the chunks of the document and no
    other, in ascending order of index: the rows of the table when the
    database answers, the vectors of the in-process map otherwise. *)
Theorem getDocumentChunks_complete_and_ascending
        (prisma : Backend) (d : jsstring) (s : Store) :
  StronglySorted ascending (getDocumentChunks prisma d s)
  /\ (forall c,
         In c (getDocumentChunks prisma d s) <->
         match prisma with
         | Prisma true =>
             exists row, In row (documentChunk s)
                         /\ DocumentChunk.document_id row = d
                         /\ c = infoOfRow row
         | _ =>
             exists v, In v (mapValues (memoryVectors s))
                       /\ MemoryVector.document_id v = d
                       /\ c = infoOfVector v
         end).
Proof.
  assert (Hmem :
    StronglySorted ascending (memoryDocumentChunks d s)
    /\ (forall c,
           In c (memoryDocumentChunks d s) <->
           exists v, In v (mapValues (memoryVectors s))
                     /\ MemoryVector.document_id v = d
                     /\ c = infoOfVector v)).
  { unfold memoryDocumentChunks. split.
    - apply (StronglySorted_map _ ascending).
      apply (sort_by_key MemoryVector.chunk_index).
    - intros c. rewrite in_map_iff. split.
      + intros [v [<- Hv]]. rewrite sort_In, filter_In in Hv.
        destruct Hv as [Hv Hd]. apply streq_true in Hd.
        exists v. auto.
      + intros [v [Hv [Hd ->]]]. exists v. split; [reflexivity |].
        rewrite sort_In, filter_In. split; [exact Hv |].
        now apply streq_true. }
  destruct prisma as [| [|]]; try exact Hmem.
  unfold getDocumentChunks, findMany. split.
  - apply (StronglySorted_map _ ascending).
    apply (sort_by_key DocumentChunk.chunk_index).
  - intros c. rewrite in_map_iff. split.
    + intros [row [<- Hrow]]. rewrite sort_In, filter_In in Hrow.
      destruct Hrow as [Hrow Hd]. apply streq_true in Hd.
      exists row. auto.
    + intros [row [Hrow [Hd ->]]]. exists row. split; [reflexivity |].
      rewrite sort_In, filter_In. split; [exact Hrow |].
      now apply streq_true.
Qed.

Lemma semanticSearch_results_of (client : OpenAI) (prisma : Backend)
      (query : jsstring) (documentId : option jsstring) (limit : Z)
      (s : Store) (r : SearchResult.t) :
  In r (semanticSearch client prisma query documentId limit s) ->
  exists q,
    generateEmbedding client query = Returned (Some q)
    /\ match prisma with
       | Prisma true =>
           In r (scoreChunks q (findMany (truthy documentId)
                                         (documentChunk s)) s)
       | _ =>
           exists v, In v (mapValues (memoryVectors s))
                     /\ otherDocument documentId v = false
                     /\ r = resultOfVector q v
       end.
Proof.
  unfold semanticSearch, memorySemanticSearch. intros Hr.
  destruct (generateEmbedding client query) as [[q |] | message];
    try contradiction.
  exists q. split; [reflexivity |].
  assert (Hmem : In r (slice (sort bySimilarity
                    (fold_left
                       (fun results vector =>
                          if otherDocument documentId vector then results
                          else results ++ [resultOfVector q vector])
                       (mapValues (memoryVectors s)) [])) 0 limit) ->
                 exists v, In v (mapValues (memoryVectors s))
                           /\ otherDocument documentId v = false
                           /\ r = resultOfVector q v).
  { intros H. apply slice_In in H. rewrite sort_In in H.
    rewrite memoryResults_flat_map in H. apply in_flat_map in H.
    destruct H as [v [Hv H]]. exists v.
    destruct (otherDocument documentId v); [contradiction |].
    destruct H as [<- | []]. auto. }
  destruct prisma as [| [|]]; try (now apply Hmem).
  apply slice_In in Hr. now rewrite sort_In in Hr.
Qed.

(** X5.  With a document id that is not empty, every result of
    [semanticSearch] belongs to that document, whatever the backend. *)
Theorem semanticSearch_filters_document
        (client : OpenAI) (prisma : Backend) (query d : jsstring)
        (limit : Z) (s : Store) :
  d <> [] ->
  Forall (fun r => SearchResult.document_id r = d)
         (semanticSearch client prisma query (Some d) limit s).
Proof.
  intros Hd. apply Forall_forall. intros r Hr.
  apply semanticSearch_results_of in Hr.
  destruct Hr as [q [_ Hr]].
  assert (Htruthy : truthy (Some d) = Some d)
    by (destruct d; [contradiction | reflexivity]).
  destruct prisma as [| [|]].
  - destruct Hr as [v [_ [Hother ->]]]. unfold otherDocument in Hother.
    rewrite Htruthy in Hother. apply negb_false_iff in Hother.
    now apply streq_true in Hother.
  - rewrite Htruthy, scoreChunks_flat_map in Hr. apply in_flat_map in Hr.
    destruct Hr as [chunk [Hchunk Hr]]. unfold findMany in Hchunk.
    rewrite sort_In, filter_In in Hchunk. destruct Hchunk as [_ Hdoc].
    apply streq_true in Hdoc. unfold scoredRow in Hr.
    destruct (mapGet _ (memoryVectors s)); [| contradiction].
    destruct Hr as [<- | []]. exact Hdoc.
  - destruct Hr as [v [_ [Hother ->]]]. unfold otherDocument in Hother.
    rewrite Htruthy in Hother. apply negb_false_iff in Hother.
    now apply streq_true in Hother.
Qed.

Lemma semanticSearch_filters_document_witness :
  lit "X" <> []
  /\ Forall (fun r => SearchResult.document_id r = lit "X")
            (semanticSearch unitClient NoPrisma (lit "test")
                            (Some (lit "X")) 5 memoryStoreX).
Proof.
  split; [discriminate |].
  apply (semanticSearch_filters_document unitClient NoPrisma (lit "test")
           (lit "X") 5 memoryStoreX).
  discriminate.
Defined.



(* ================================================================== *)
(** ** Further properties: keys of the in-process map                  *)
(* ================================================================== *)

Section Keys.

Lemma uintUnits_inj (d : Decimal.uint) :
  forall d', uintUnits d = uintUnits d' -> d = d'.
Proof.
  induction d as [| d IH | d IH | d IH | d IH | d IH | d IH | d IH | d IH
                  | d IH | d IH];
    intros [| d' | d' | d' | d' | d' | d' | d' | d' | d' | d'] H;
    simpl in H; try discriminate; try reflexivity;
    injection H as H; f_equal; now apply IH.
Qed.

Lemma uintUnits_digits (d : Decimal.uint) (c : Z) :
  In c (uintUnits d) -> 48 <= c <= 57.
Proof.
  induction d; simpl; intros H; try contradiction;
    destruct H as [<- | H]; try lia; now apply IHd.
Qed.

(** The decimal text of a number is made of digits and a sign. *)
Lemma numberToString_units (n c : Z) :
  In c (numberToString n) -> c = 45 \/ 48 <= c <= 57.
Proof.
  destruct n as [| p | p]; simpl.
  - intros [<- | []]. lia.
  - intros H. right. now apply uintUnits_digits in H.
  - intros [<- | H]; [now left | right]. now apply uintUnits_digits in H.
Qed.

Lemma positive_units_not_zero (p : positive) :
  uintUnits (Pos.to_uint p) <> [48].
Proof.
  intros H. change [48] with (uintUnits (Decimal.D0 Decimal.Nil)) in H.
  apply uintUnits_inj in H.
  pose proof (Unsigned.of_to p) as Hp. rewrite H in Hp. discriminate.
Qed.

(** Different numbers have different decimal texts. *)
Lemma numberToString_inj (n m : Z) :
  numberToString n = numberToString m -> n = m.
Proof.
  assert (Hneg : forall p q, 45 :: uintUnits (Pos.to_uint p)
                             <> uintUnits (Pos.to_uint q)).
  { intros p q H.
    assert (Hin : In 45 (uintUnits (Pos.to_uint q)))
      by (rewrite <- H; now left).
    apply uintUnits_digits in Hin. lia. }
  destruct n as [| p | p], m as [| q | q]; simpl; intros H;
    try reflexivity; try discriminate.
  - symmetry in H. now apply positive_units_not_zero in H.
  - now apply positive_units_not_zero in H.
  - apply uintUnits_inj, Unsigned.to_uint_inj in H. now subst.
  - symmetry in H. now apply Hneg in H.
  - now apply Hneg in H.
  - injection H as H. apply uintUnits_inj, Unsigned.to_uint_inj in H.
    now subst.
Qed.

(** Two lists that agree around the first occurrence of [c] in each
    agree on both sides of it. *)
Lemma split_at_first {A : Type} (c : A) (l1 : list A) :
  forall l2 r1 r2,
    ~ In c l1 -> ~ In c l2 ->
    l1 ++ c :: r1 = l2 ++ c :: r2 ->
    l1 = l2 /\ r1 = r2.
Proof.
  induction l1 as [| x l1 IH]; intros [| y l2] r1 r2 H1 H2 H; simpl in *.
  - injection H as ->. auto.
  - injection H as -> _. tauto.
  - injection H as -> _. tauto.
  - injection H as -> H. destruct (IH l2 r1 r2) as [-> ->]; auto.
Qed.

Lemma vectorKey_inj (d d' : jsstring) (i i' : Z) :
  vectorKey d i = vectorKey d' i' -> d = d' /\ i = i'.
Proof.
  unfold vectorKey. intros H.
  apply (f_equal (@rev Z)) in H. rewrite !rev_app_distr in H.
  change (rev (lit "_chunk_")) with (95 :: [107; 110; 117; 104; 99; 95]) in H.
  rewrite <- !app_assoc in H. simpl in H.
  assert (Hno : forall n, ~ In 95 (rev (numberToString n))).
  { intros n Hin. apply in_rev in Hin.
    apply numberToString_units in Hin. lia. }
  apply split_at_first in H; try apply Hno.
  destruct H as [Hn Hd]. apply rev_inj in Hn.
  apply numberToString_inj in Hn. injection Hd as Hd.
  apply rev_inj in Hd. auto.
Qed.

Lemma mapGet_mapSet_same {V : Type} (k : jsstring) (v : V) (m : jsmap V) :
  mapGet k (mapSet k v m) = Some v.
Proof.
  induction m as [| [k' v'] m IH]; simpl.
  - now rewrite streq_refl.
  - destruct (streq k' k) eqn:E; simpl.
    + now rewrite streq_refl.
    + now rewrite E.
Qed.

Lemma mapGet_mapSet_other {V : Type} (k k' : jsstring) (v : V)
      (m : jsmap V) :
  k <> k' -> mapGet k' (mapSet k v m) = mapGet k' m.
Proof.
  intros Hne. induction m as [| [k0 v0] m IH]; simpl.
  - destruct (streq k k') eqn:E; [apply streq_true in E; contradiction |].
    reflexivity.
  - destruct (streq k0 k) eqn:E; simpl.
    + apply streq_true in E. subst k0.
      destruct (streq k k') eqn:E'; [apply streq_true in E'; contradiction |].
      reflexivity.
    + destruct (streq k0 k'); [reflexivity | exact IH].
Qed.

Lemma mapGet_None_keys {V : Type} (k : jsstring) (m : jsmap V) :
  mapGet k m = None <-> ~ In k (map fst m).
Proof.
  induction m as [| [k' v'] m IH]; simpl; [tauto |].
  destruct (streq k' k) eqn:E.
  - apply streq_true in E. split; [discriminate | tauto].
  - rewrite IH. split; [| tauto]. intros H [Heq | Hin]; [| tauto].
    apply streq_true in Heq. congruence.
Qed.

(** Setting a key that is absent appends the entry. *)
Lemma mapSet_fresh {V : Type} (k : jsstring) (v : V) (m : jsmap V) :
  mapGet k m = None -> mapSet k v m = m ++ [(k, v)].
Proof.
  induction m as [| [k' v'] m IH]; simpl; [reflexivity |].
  destruct (streq k' k); [discriminate |]. intros H. now rewrite IH.
Qed.

Lemma mapSet_keys {V : Type} (k : jsstring) (v : V) (m : jsmap V) :
  map fst (mapSet k v m)
  = if existsb (fun k' => streq k' k) (map fst m)
    then map fst m else map fst m ++ [k].
Proof.
  induction m as [| [k' v'] m IH]; simpl; [reflexivity |].
  destruct (streq k' k) eqn:E; simpl.
  - apply streq_true in E. now subst.
  - rewrite IH. now destruct (existsb _ (map fst m)).
Qed.

Lemma mapSet_In {V : Type} (k : jsstring) (v : V) (m : jsmap V) e :
  In e (mapSet k v m) -> e = (k, v) \/ In e m.
Proof.
  induction m as [| [k' v'] m IH]; simpl.
  - intros [<- | []]. now left.
  - destruct (streq k' k) eqn:E; simpl.
    + intros [<- | H]; [now left | right; now right].
    + intros [<- | H]; [right; now left |].
      destruct (IH H) as [-> | Hin]; [now left | right; now right].
Qed.

End Keys.

Lemma getDocumentChunks_memory_In (prisma : Backend) (d : jsstring)
      (s : Store) (v : MemoryVector.t) :
  prisma <> Prisma true ->
  In v (mapValues (memoryVectors s)) ->
  MemoryVector.document_id v = d ->
  In (infoOfVector v) (getDocumentChunks prisma d s).
Proof.
  intros Hprisma Hv Hd.
  assert (Hmem : In (infoOfVector v) (memoryDocumentChunks d s)).
  { unfold memoryDocumentChunks. apply in_map_iff. exists v.
    split; [reflexivity |]. rewrite sort_In, filter_In.
    split; [exact Hv | now apply streq_true]. }
  destruct prisma as [| [|]]; [exact Hmem | congruence | exact Hmem].
Qed.

(** X7.  The key of the in-process map determines the document id and
    the chunk index: two chunks share a key only if they are the same
    chunk of the same document. *)
Theorem vectorKey_injective (d d' : jsstring) (i i' : Z) :
  vectorKey d i = vectorKey d' i' <-> d = d' /\ i = i'.
Proof.
  split; [apply vectorKey_inj | intros [-> ->]; reflexivity].
Qed.

Section StoreInvariant.

Lemma NoDup_keys_filter {V : Type} (f : jsstring * V -> bool) (m : jsmap V) :
  NoDup (map fst m) -> NoDup (map fst (filter f m)).
Proof.
  induction m as [| e m IH]; simpl; intros H; [constructor |].
  apply NoDup_cons_iff in H as [Hnotin Hnd].
  destruct (f e); simpl; [| now apply IH].
  constructor; [| now apply IH].
  intros Hin. apply Hnotin. apply in_map_iff in Hin.
  destruct Hin as [x [Hx Hin]]. apply filter_In in Hin as [Hin _].
  apply in_map_iff. now exists x.
Qed.

Lemma clearMemory_NoDup (documentId : jsstring) (snapshot : jsmap MemoryVector.t) :
  forall m, NoDup (map fst m) ->
            NoDup (map fst (fold_left (deleteIfOf documentId) snapshot m)).
Proof.
  induction snapshot as [| x snapshot IH]; intros m H; simpl; [exact H |].
  apply IH. unfold deleteIfOf.
  destruct (streq (MemoryVector.document_id (snd x)) documentId);
    [| exact H].
  unfold mapDelete. now apply NoDup_keys_filter.
Qed.

Lemma wellKeyed_mapSet (d content : jsstring) (e : embedding) (i : Z)
      (pageNumber : option Z) (now : Z) (m : jsmap MemoryVector.t) :
  wellKeyed m ->
  wellKeyed (mapSet (vectorKey d i)
                    (memoryVectorOf d content e i pageNumber now) m).
Proof.
  intros [Hnd Hkey]. split.
  - rewrite mapSet_keys.
    destruct (existsb _ (map fst m)) eqn:E; [exact Hnd |].
    apply NoDup_app; [exact Hnd | repeat constructor; intros [] |].
    intros k Hin [<- | []].
    assert (Hex : existsb (fun k' => streq k' (vectorKey d i)) (map fst m)
                  = true).
    { apply existsb_exists. exists (vectorKey d i).
      split; [exact Hin | apply streq_refl]. }
    congruence.
  - intros k v Hin. apply mapSet_In in Hin.
    destruct Hin as [Heq | Hin]; [| now apply Hkey].
    injection Heq as -> ->. reflexivity.
Qed.

Lemma wellKeyed_clearMemory (d : jsstring) (m : jsmap MemoryVector.t) :
  wellKeyed m -> wellKeyed (clearMemory d m).
Proof.
  intros [Hnd Hkey]. split.
  - now apply clearMemory_NoDup.
  - intros k v Hin. apply clearMemory_clears in Hin as [Hin _].
    now apply Hkey.
Qed.

Lemma wellKeyed_saveChunkVector (prisma : Backend) (d content : jsstring)
      (e : embedding) (i : Z) (pageNumber : option Z) (now : Z) (s : Store) :
  wellKeyed (memoryVectors s) ->
  wellKeyed (memoryVectors
               (snd (saveChunkVector prisma d content e i pageNumber now s))).
Proof.
  intros H. destruct prisma as [| [|]]; simpl;
    try (now apply wellKeyed_mapSet); exact H.
Qed.

Lemma wellKeyed_vectorizeChunks (client : OpenAI) (prisma : Z -> Backend)
      (now : Z -> Z) (d : jsstring) (chunks : list jsstring) :
  forall i s,
    wellKeyed (memoryVectors s) ->
    wellKeyed (memoryVectors
                 (snd (vectorizeChunks client prisma now d chunks i s))).
Proof.
  induction chunks as [| chunk chunks IH]; intros i s H; simpl; [exact H |].
  destruct (len chunk =? 0); [now apply IH |].
  destruct (generateEmbedding client chunk) as [[e |] | message].
  - apply IH. now apply wellKeyed_saveChunkVector.
  - now apply IH.
  - exact H.
Qed.

(** What the loop of [deleteDocumentVectors] removes from [m]: the
    entries that share their key with an entry of the document met in
    [snapshot]. *)
Lemma clearMemory_as_filter (d : jsstring) (snapshot : jsmap MemoryVector.t) :
  forall m,
    fold_left (deleteIfOf d) snapshot m
    = filter (fun e =>
                negb (existsb
                        (fun x => streq (MemoryVector.document_id (snd x)) d
                                  && streq (fst e) (fst x))
                        snapshot))
             m.
Proof.
  induction snapshot as [| x snapshot IH]; intros m; simpl.
  - induction m as [| e m IHm]; simpl; [reflexivity | now rewrite <- IHm].
  - rewrite IH. unfold deleteIfOf.
    destruct (streq (MemoryVector.document_id (snd x)) d); simpl.
    + unfold mapDelete. induction m as [| e m IHm]; simpl; [reflexivity |].
      destruct (streq (fst e) (fst x)); simpl; [exact IHm |].
      destruct (existsb _ snapshot); simpl; [exact IHm | now rewrite IHm].
    + reflexivity.
Qed.

(** On a map without repeated keys the loop removes the vectors of the
    document and nothing else. *)
Lemma clearMemory_filter (d : jsstring) (m : jsmap MemoryVector.t) :
  NoDup (map fst m) ->
  clearMemory d m
  = filter (fun e => negb (streq (MemoryVector.document_id (snd e)) d)) m.
Proof.
  intros Hnd. unfold clearMemory. rewrite clearMemory_as_filter.
  apply filter_ext_in. intros e He. f_equal.
  destruct (streq (MemoryVector.document_id (snd e)) d) eqn:Ed.
  - apply existsb_exists. exists e. split; [exact He |].
    now rewrite Ed, streq_refl.
  - destruct (existsb _ m) eqn:Ex; [| reflexivity].
    apply existsb_exists in Ex. destruct Ex as [x [Hx Hc]].
    apply andb_prop in Hc as [Hdx Hk]. apply streq_true in Hk.
    assert (x = e).
    { clear - Hnd He Hx Hk. induction m as [| y m IH]; [contradiction |].
      simpl in Hnd. apply NoDup_cons_iff in Hnd as [Hnotin Hnd].
      destruct He as [-> | He], Hx as [-> | Hx]; try reflexivity.
      - exfalso. apply Hnotin. rewrite Hk. now apply in_map.
      - exfalso. apply Hnotin. rewrite <- Hk. now apply in_map.
      - now apply IH. }
    subst x. congruence.
Qed.

End StoreInvariant.

(** X8.  [saveChunkVector], [deleteDocumentVectors] and
    [processDocumentVectorization] keep the in-process map well keyed:
    no key twice, and each vector under the key made of its own document
    id and chunk index. *)
Theorem memoryVectors_stay_well_keyed (s : Store) :
  wellKeyed (memoryVectors s) ->
  (forall prisma d content e i pageNumber now,
      wellKeyed (memoryVectors
                   (snd (saveChunkVector prisma d content e i pageNumber
                                         now s))))
  /\ (forall prisma d,
         wellKeyed (memoryVectors (snd (deleteDocumentVectors prisma d s))))
  /\ (forall client prisma now d text result,
         processDocumentVectorization client prisma now d text s
         = Some result ->
         wellKeyed (memoryVectors (snd result))).
Proof.
  intros H. split; [| split].
  - intros. now apply wellKeyed_saveChunkVector.
  - intros [| [|]] d; simpl; now apply wellKeyed_clearMemory.
  - intros client prisma now d text result Hrun.
    unfold processDocumentVectorization in Hrun.
    destruct (splitText text) as [chunks |]; [| discriminate].
    injection Hrun as <-. now apply wellKeyed_vectorizeChunks.
Qed.

Lemma memoryVectors_stay_well_keyed_witness :
  (forall prisma d content e i pageNumber now,
      wellKeyed (memoryVectors
                   (snd (saveChunkVector prisma d content e i pageNumber
                                         now emptyStore))))
  /\ (forall prisma d,
         wellKeyed (memoryVectors
                      (snd (deleteDocumentVectors prisma d emptyStore))))
  /\ (forall client prisma now d text result,
         processDocumentVectorization client prisma now d text emptyStore
         = Some result ->
         wellKeyed (memoryVectors (snd result))).
Proof.
  apply (memoryVectors_stay_well_keyed emptyStore).
  split; [constructor | intros k v []].
Defined.

(** X9.  Without an answering database, a chunk saved by
    [saveChunkVector] is found again: the map holds it under its key,
    [getDocumentChunks] of its document returns it, the vectors under
    the keys of other chunks are as before, and the call returns
    [true]. *)
Theorem saveChunkVector_then_lookup
        (prisma : Backend) (d content : jsstring) (e : embedding) (i : Z)
        (pageNumber : option Z) (now : Z) (s : Store) :
  prisma <> Prisma true ->
  fst (saveChunkVector prisma d content e i pageNumber now s) = true
  /\ mapGet (vectorKey d i)
            (memoryVectors
               (snd (saveChunkVector prisma d content e i pageNumber now s)))
     = Some (memoryVectorOf d content e i pageNumber now)
  /\ (forall d' i',
         d' <> d \/ i' <> i ->
         mapGet (vectorKey d' i')
                (memoryVectors
                   (snd (saveChunkVector prisma d content e i pageNumber
                                         now s)))
         = mapGet (vectorKey d' i') (memoryVectors s))
  /\ In {| ChunkInfo.content := content;
           ChunkInfo.chunk_index := i;
           ChunkInfo.page_number := orNull pageNumber;
           ChunkInfo.token_count := Some (tokenEstimate content) |}
        (getDocumentChunks prisma d
           (snd (saveChunkVector prisma d content e i pageNumber now s))).
Proof.
  intros Hprisma.
  assert (Hsave : snd (saveChunkVector prisma d content e i pageNumber now s)
                  = saveToMemory d content e i pageNumber now s)
    by (destruct prisma as [| [|]]; [reflexivity | congruence | reflexivity]).
  rewrite Hsave. split; [destruct prisma as [| [|]]; reflexivity |].
  split; [apply mapGet_mapSet_same | split].
  - intros d' i' Hne. apply mapGet_mapSet_other. intros Heq.
    apply vectorKey_inj in Heq. destruct Heq as [-> ->].
    destruct Hne; congruence.
  - apply (getDocumentChunks_memory_In prisma d
             (saveToMemory d content e i pageNumber now s)
             (memoryVectorOf d content e i pageNumber now) Hprisma).
    + unfold mapValues. apply in_map_iff.
      exists (vectorKey d i, memoryVectorOf d content e i pageNumber now).
      split; [reflexivity |]. apply mapGet_In. apply mapGet_mapSet_same.
    + reflexivity.
Qed.

Lemma saveChunkVector_then_lookup_witness :
  fst (saveChunkVector NoPrisma (lit "X") (lit "first chunk") [1%R] 0 None 0
                       emptyStore) = true
  /\ mapGet (vectorKey (lit "X") 0)
            (memoryVectors
               (snd (saveChunkVector NoPrisma (lit "X") (lit "first chunk")
                                     [1%R] 0 None 0 emptyStore)))
     = Some (memoryVectorOf (lit "X") (lit "first chunk") [1%R] 0 None 0)
  /\ (forall d' i',
         d' <> lit "X" \/ i' <> 0 ->
         mapGet (vectorKey d' i')
                (memoryVectors
                   (snd (saveChunkVector NoPrisma (lit "X")
                           (lit "first chunk") [1%R] 0 None 0 emptyStore)))
         = mapGet (vectorKey d' i') (memoryVectors emptyStore))
  /\ In {| ChunkInfo.content := lit "first chunk";
           ChunkInfo.chunk_index := 0;
           ChunkInfo.page_number := orNull None;
           ChunkInfo.token_count := Some (tokenEstimate (lit "first chunk")) |}
        (getDocumentChunks NoPrisma (lit "X")
           (snd (saveChunkVector NoPrisma (lit "X") (lit "first chunk")
                                 [1%R] 0 None 0 emptyStore))).
Proof.
  apply (saveChunkVector_then_lookup NoPrisma (lit "X") (lit "first chunk")
           [1%R] 0 None 0 emptyStore).
  discriminate.
Defined.

Section DeleteFrame.

Lemma filter_other_document_rows (d d' : jsstring) (table : list DocumentChunk.t) :
  d' <> d ->
  filter (fun c => streq (DocumentChunk.document_id c) d')
         (deleteMany d table)
  = filter (fun c => streq (DocumentChunk.document_id c) d') table.
Proof.
  intros Hne. unfold deleteMany.
  induction table as [| c table IH]; simpl; [reflexivity |].
  destruct (streq (DocumentChunk.document_id c) d) eqn:Ed; simpl.
  - destruct (streq (DocumentChunk.document_id c) d') eqn:Ed';
      [| exact IH].
    apply streq_true in Ed, Ed'. congruence.
  - now rewrite IH.
Qed.

Lemma filter_other_document_vectors (d d' : jsstring)
      (m : jsmap MemoryVector.t) :
  d' <> d ->
  filter (fun v => streq (MemoryVector.document_id v) d')
         (mapValues
            (filter (fun e => negb (streq (MemoryVector.document_id (snd e)) d))
                    m))
  = filter (fun v => streq (MemoryVector.document_id v) d') (mapValues m).
Proof.
  intros Hne. unfold mapValues.
  induction m as [| [k v] m IH]; simpl; [reflexivity |].
  destruct (streq (MemoryVector.document_id v) d) eqn:Ed; simpl.
  - destruct (streq (MemoryVector.document_id v) d') eqn:Ed';
      [| exact IH].
    apply streq_true in Ed, Ed'. congruence.
  - now rewrite IH.
Qed.

End DeleteFrame.

(** X10.  On a map without repeated keys, [deleteDocumentVectors(d)]
    leaves the chunks of every other document as they were, in both
    tiers: [getDocumentChunks] of another document returns the same
    before and after. *)
Theorem deleteDocumentVectors_keeps_other_documents
        (prisma1 prisma2 : Backend) (d d' : jsstring) (s : Store) :
  NoDup (map fst (memoryVectors s)) ->
  d' <> d ->
  getDocumentChunks prisma2 d' (snd (deleteDocumentVectors prisma1 d s))
  = getDocumentChunks prisma2 d' s.
Proof.
  intros Hnd Hne.
  assert (Hmem : forall table,
             memoryDocumentChunks d'
               {| documentChunk := table;
                  memoryVectors := clearMemory d (memoryVectors s) |}
             = memoryDocumentChunks d' s).
  { intros table. unfold memoryDocumentChunks. simpl memoryVectors.
    rewrite clearMemory_filter by exact Hnd.
    now rewrite filter_other_document_vectors. }
  destruct prisma2 as [| [|]]; destruct prisma1 as [| [|]]; simpl;
    try apply Hmem; try reflexivity.
  unfold findMany. now rewrite filter_other_document_rows.
Qed.

Lemma deleteDocumentVectors_keeps_other_documents_witness :
  getDocumentChunks NoPrisma (lit "X")
    (snd (deleteDocumentVectors NoPrisma (lit "Y") memoryStoreX))
  = getDocumentChunks NoPrisma (lit "X") memoryStoreX.
Proof.
  apply (deleteDocumentVectors_keeps_other_documents
           NoPrisma NoPrisma (lit "Y") (lit "X") memoryStoreX).
  - vm_compute. repeat constructor; simpl; intuition discriminate.
  - discriminate.
Defined.

Section Vectorization.

Lemma generateEmbedding_returns (client : OpenAI) (text : jsstring) :
  exists r, generateEmbedding client text = Returned r.
Proof.
  unfold generateEmbedding. destruct client as [create |];
    [| eexists; reflexivity].
  destruct (create text); eexists; reflexivity.
Qed.

Lemma vectorizeChunks_true (client : OpenAI) (prisma : Z -> Backend)
      (now : Z -> Z) (d : jsstring) (chunks : list jsstring) :
  forall i s, fst (vectorizeChunks client prisma now d chunks i s) = true.
Proof.
  induction chunks as [| chunk chunks IH]; intros i s; simpl;
    [reflexivity |].
  destruct (len chunk =? 0); [apply IH |].
  destruct (generateEmbedding_returns client chunk) as [[e |] Hr];
    rewrite Hr; apply IH.
Qed.

Lemma mapGet_app_None {V : Type} (k k0 : jsstring) (v : V) (m : jsmap V) :
  mapGet k m = None -> k0 <> k -> mapGet k (m ++ [(k0, v)]) = None.
Proof.
  intros Hm Hne. induction m as [| [k' v'] m IH]; simpl in *.
  - destruct (streq k0 k) eqn:E; [apply streq_true in E; contradiction |].
    reflexivity.
  - destruct (streq k' k); [discriminate | now apply IH].
Qed.

(** Without an answering database and with the keys of the document
    free from [i] on, the loop appends one vector per saved chunk, in
    the order of the chunks. *)
Lemma vectorizeChunks_appends (client : OpenAI) (prisma : Z -> Backend)
      (now : Z -> Z) (d : jsstring) (chunks : list jsstring) :
  (forall j, prisma j <> Prisma true) ->
  forall i s,
    (forall j, i <= j -> mapGet (vectorKey d j) (memoryVectors s) = None) ->
    exists added,
      snd (vectorizeChunks client prisma now d chunks i s)
      = {| documentChunk := documentChunk s;
           memoryVectors := memoryVectors s ++ added |}
      /\ map (fun e => infoOfVector (snd e)) added = savedChunks client chunks i
      /\ Forall (fun e => MemoryVector.document_id (snd e) = d
                          /\ i <= MemoryVector.chunk_index (snd e)) added
      /\ StronglySorted
           (fun a b => MemoryVector.chunk_index a <= MemoryVector.chunk_index b)
           (map snd added).
Proof.
  intros Hprisma.
  induction chunks as [| chunk chunks IH]; intros i s Hfree; simpl.
  - exists []. rewrite app_nil_r. destruct s. repeat split; constructor.
  - assert (Hskip : exists added,
               snd (vectorizeChunks client prisma now d chunks (i + 1) s)
               = {| documentChunk := documentChunk s;
                    memoryVectors := memoryVectors s ++ added |}
               /\ map (fun e => infoOfVector (snd e)) added
                  = savedChunks client chunks (i + 1)
               /\ Forall (fun e => MemoryVector.document_id (snd e) = d
                                   /\ i <= MemoryVector.chunk_index (snd e))
                         added
               /\ StronglySorted
                    (fun a b => MemoryVector.chunk_index a
                                <= MemoryVector.chunk_index b)
                    (map snd added)).
    { destruct (IH (i + 1) s) as [added [Hs [Hinfo [Hall Hsorted]]]].
      + intros j Hj. apply Hfree. lia.
      + exists added. repeat split; try assumption.
        eapply Forall_impl; [| exact Hall]. simpl. intros e [He1 He2].
        split; [exact He1 | lia]. }
    destruct (len chunk =? 0); [exact Hskip |].
    destruct (generateEmbedding_returns client chunk) as [[e |] Hr];
      rewrite Hr; [| exact Hskip].
    assert (Hsave : snd (saveChunkVector (prisma i) d chunk e i None
                                         (now i) s)
                    = {| documentChunk := documentChunk s;
                         memoryVectors :=
                           memoryVectors s
                           ++ [(vectorKey d i,
                                memoryVectorOf d chunk e i None (now i))] |}).
    { specialize (Hprisma i).
      destruct (prisma i) as [| [|]]; try congruence; simpl;
        unfold saveToMemory; now rewrite mapSet_fresh by (apply Hfree; lia). }
    rewrite Hsave.
    destruct (IH (i + 1)
                 {| documentChunk := documentChunk s;
                    memoryVectors :=
                      memoryVectors s
                      ++ [(vectorKey d i,
                           memoryVectorOf d chunk e i None (now i))] |})
      as [added [Hs [Hinfo [Hall Hsorted]]]].
    + intros j Hj. simpl. apply mapGet_app_None; [apply Hfree; lia |].
      intros Heq. apply vectorKey_inj in Heq. destruct Heq as [_ Heq]. lia.
    + exists ((vectorKey d i, memoryVectorOf d chunk e i None (now i))
                :: added).
      rewrite Hs. simpl. rewrite <- app_assoc. simpl.
      split; [reflexivity | split; [now rewrite Hinfo | split]].
      * constructor; [simpl; split; [reflexivity | lia] |].
        eapply Forall_impl; [| exact Hall]. simpl. intros x [Hx1 Hx2].
        split; [exact Hx1 | lia].
      * constructor; [exact Hsorted |].
        rewrite Forall_forall in *. intros v Hv.
        apply in_map_iff in Hv. destruct Hv as [x [<- Hx]].
        specialize (Hall x Hx). simpl in *. lia.
Qed.

Lemma splitText_chunks_nonEmpty (text : jsstring) (chunks : list jsstring) :
  splitText text = Some chunks -> Forall (fun c => nonEmpty c = true) chunks.
Proof.
  unfold splitText, splitText_fuel.
  destruct (len text =? 0); [intros H; injection H as <-; constructor |].
  destruct (splitLoop _ text 0 []) as [all |]; [| discriminate].
  simpl. intros H. injection H as <-.
  rewrite Forall_forall. intros c Hc. now apply filter_In in Hc.
Qed.

Lemma savedChunks_all (client : OpenAI) (chunks : list jsstring) :
  (forall chunk, generateEmbedding client chunk <> Returned None) ->
  Forall (fun c => nonEmpty c = true) chunks ->
  forall i, map ChunkInfo.content (savedChunks client chunks i) = chunks.
Proof.
  intros Hemb Hne. induction Hne as [| chunk chunks Hc _ IH]; intros i;
    simpl; [reflexivity |].
  unfold nonEmpty in Hc. apply Z.ltb_lt in Hc.
  destruct (len chunk =? 0) eqn:E; [apply Z.eqb_eq in E; lia |].
  destruct (generateEmbedding_returns client chunk) as [[e |] Hr];
    rewrite Hr; [simpl; now rewrite IH |].
  now apply Hemb in Hr.
Qed.

End Vectorization.

(** X11.  [processDocumentVectorization] returns, and what it returns is
    [true], for every text, embedding client and backend: neither
    [generateEmbedding] nor [saveChunkVector] throws, so the [catch] that
    would answer [false] is never entered. *)
Theorem processDocumentVectorization_returns_true
        (client : OpenAI) (prisma : Z -> Backend) (now : Z -> Z)
        (d text : jsstring) (s : Store) :
  exists s',
    processDocumentVectorization client prisma now d text s = Some (true, s').
Proof.
  unfold processDocumentVectorization.
  destruct (splitText_returns text) as [chunks Hchunks]. rewrite Hchunks.
  simpl. pose proof (vectorizeChunks_true client prisma now d chunks 0 s) as H.
  destruct (vectorizeChunks client prisma now d chunks 0 s) as [b s'].
  simpl in H. subst b. now exists s'.
Qed.

(** X12.  Without an answering database, on a well keyed map that holds
    no vector of the document, vectorizing a text and then reading the
    chunks of the document gives the chunks of [splitText] that got an
    embedding, in order, numbered by their position among all chunks;
    when no embedding is [null] (as with the fallback), these are all
    the chunks of [splitText]. *)
Theorem processDocumentVectorization_then_getDocumentChunks
        (client : OpenAI) (prisma : Z -> Backend) (now : Z -> Z)
        (reader : Backend) (d text : jsstring) (s : Store) :
  (forall j, prisma j <> Prisma true) ->
  reader <> Prisma true ->
  wellKeyed (memoryVectors s) ->
  (forall v, In v (mapValues (memoryVectors s)) ->
             MemoryVector.document_id v <> d) ->
  exists chunks s',
    splitText text = Some chunks
    /\ processDocumentVectorization client prisma now d text s
       = Some (true, s')
    /\ getDocumentChunks reader d s' = savedChunks client chunks 0
    /\ ((forall chunk, generateEmbedding client chunk <> Returned None) ->
        map ChunkInfo.content (getDocumentChunks reader d s') = chunks).
Proof.
  intros Hprisma Hreader [Hnd Hkey] Hnone.
  destruct (splitText_returns text) as [chunks Hchunks].
  assert (Hfree : forall j, 0 <= j ->
                            mapGet (vectorKey d j) (memoryVectors s) = None).
  { intros j _. destruct (mapGet (vectorKey d j) (memoryVectors s))
      as [v |] eqn:Hget; [| reflexivity].
    apply mapGet_In in Hget. pose proof (Hkey _ _ Hget) as Hk.
    apply vectorKey_inj in Hk. destruct Hk as [Hd _].
    exfalso. apply (Hnone v); [| now symmetry].
    unfold mapValues. apply in_map_iff. now exists (vectorKey d j, v). }
  destruct (vectorizeChunks_appends client prisma now d chunks Hprisma 0 s
                                    Hfree)
    as [added [Hs [Hinfo [Hall Hsorted]]]].
  pose proof (vectorizeChunks_true client prisma now d chunks 0 s) as Htrue.
  destruct (vectorizeChunks client prisma now d chunks 0 s) as [b s'] eqn:Hrun.
  simpl in Htrue, Hs. subst b.
  exists chunks, s'. split; [exact Hchunks |].
  split; [unfold processDocumentVectorization; rewrite Hchunks; simpl;
          now rewrite Hrun |].
  assert (Hread : getDocumentChunks reader d s' = savedChunks client chunks 0).
  { assert (Hmem : memoryDocumentChunks d s' = savedChunks client chunks 0).
    { unfold memoryDocumentChunks. rewrite Hs. simpl memoryVectors.
      unfold mapValues. rewrite map_app, filter_app.
      rewrite (filter_none _ (map snd (memoryVectors s))).
      - simpl app.
        assert (Hkeep : filter (fun v => streq (MemoryVector.document_id v) d)
                               (map snd added) = map snd added).
        { clear - Hall. induction added as [| x added IH];
            [reflexivity |].
          apply Forall_cons_iff in Hall as [[Hx _] Hall]. simpl.
          rewrite Hx, streq_refl. f_equal. now apply IH. }
        rewrite Hkeep.
        rewrite (sort_ascending_id MemoryVector.chunk_index) by exact Hsorted.
        rewrite <- Hinfo, map_map. reflexivity.
      - intros v Hv. specialize (Hnone v Hv).
        destruct (streq (MemoryVector.document_id v) d) eqn:E;
          [| reflexivity].
        apply streq_true in E. contradiction. }
    destruct reader as [| [|]]; [exact Hmem | congruence | exact Hmem]. }
  split; [exact Hread |].
  intros Hemb. rewrite Hread. apply savedChunks_all; [exact Hemb |].
  now apply (splitText_chunks_nonEmpty text).
Qed.

Lemma processDocumentVectorization_then_getDocumentChunks_witness :
  exists chunks s',
    splitText (lit "  hello world. ") = Some chunks
    /\ processDocumentVectorization None (fun _ => NoPrisma) (fun _ => 0)
         (lit "X") (lit "  hello world. ") emptyStore
       = Some (true, s')
    /\ getDocumentChunks NoPrisma (lit "X") s' = savedChunks None chunks 0
    /\ ((forall chunk, generateEmbedding None chunk <> Returned None) ->
        map ChunkInfo.content (getDocumentChunks NoPrisma (lit "X") s')
        = chunks).
Proof.
  apply (processDocumentVectorization_then_getDocumentChunks
           None (fun _ => NoPrisma) (fun _ => 0) NoPrisma
           (lit "X") (lit "  hello world. ") emptyStore).
  - discriminate.
  - discriminate.
  - split; [constructor | intros k v []].
  - intros v [].
Defined.

Section Stats.

Lemma nodup_length_le (ids : list jsstring) :
  (List.length (nodup jsstring_eq_dec ids) <= List.length ids)%nat.
Proof.
  induction ids as [| x ids IH]; simpl; [lia |].
  destruct (in_dec jsstring_eq_dec x ids); simpl; lia.
Qed.

Lemma nodup_length_pos (ids : list jsstring) :
  ids <> [] -> (0 < List.length (nodup jsstring_eq_dec ids))%nat.
Proof.
  intros Hne. destruct ids as [| x ids]; [contradiction |].
  assert (Hin : In x (nodup jsstring_eq_dec (x :: ids)))
    by (apply nodup_In; now left).
  destruct (nodup jsstring_eq_dec (x :: ids)); [contradiction | simpl; lia].
Qed.

Lemma statsOf_facts (ids : list jsstring) :
  let st := statsOf ids in
  0 <= VectorStats.totalDocuments st <= VectorStats.totalChunks st
  /\ (VectorStats.totalDocuments st = 0 <-> VectorStats.totalChunks st = 0)
  /\ (VectorStats.totalChunks st = 0 ->
      VectorStats.averageChunksPerDocument st = 0%R)
  /\ (0 < VectorStats.totalChunks st ->
      (VectorStats.averageChunksPerDocument st
       * IZR (VectorStats.totalDocuments st)
       = IZR (VectorStats.totalChunks st))%R
      /\ (1 <= VectorStats.averageChunksPerDocument st)%R).
Proof.
  unfold statsOf, uniqueCount, len. simpl.
  pose proof (nodup_length_le ids) as Hle.
  destruct ids as [| x ids].
  - simpl. repeat split; try lia; try reflexivity.
  - pose proof (nodup_length_pos (x :: ids)) as Hpos.
    specialize (Hpos ltac:(discriminate)).
    set (u := List.length (nodup jsstring_eq_dec (x :: ids))) in *.
    set (n := List.length (x :: ids)) in *.
    assert (Hn : (0 < n)%nat) by (unfold n; simpl; lia).
    split; [lia | split; [split; lia | split; [lia |]]].
    intros _.
    destruct (0 <? Z.of_nat u) eqn:E; [| apply Z.ltb_ge in E; lia].
    assert (Hu : (0 < IZR (Z.of_nat u))%R) by (apply IZR_lt; lia).
    assert (Hun : (IZR (Z.of_nat u) <= IZR (Z.of_nat n))%R)
      by (apply IZR_le; lia).
    split.
    + field. lra.
    + apply (Rmult_le_reg_r (IZR (Z.of_nat u))); [exact Hu |].
      unfold Rdiv. rewrite Rmult_assoc, Rinv_l by lra. lra.
Qed.

End Stats.

(** X13.  The statistics of [getVectorStats] are consistent: the number
    of documents is between 0 and the number of chunks, and is 0 exactly
    when there is no chunk; the average is 0 without chunks, and
    otherwise it is the quotient of the two counts and at least 1. *)
Theorem getVectorStats_consistent (prisma : Backend) (s : Store) :
  0 <= VectorStats.totalDocuments (getVectorStats prisma s)
    <= VectorStats.totalChunks (getVectorStats prisma s)
  /\ (VectorStats.totalDocuments (getVectorStats prisma s) = 0
      <-> VectorStats.totalChunks (getVectorStats prisma s) = 0)
  /\ (VectorStats.totalChunks (getVectorStats prisma s) = 0 ->
      VectorStats.averageChunksPerDocument (getVectorStats prisma s) = 0%R)
  /\ (0 < VectorStats.totalChunks (getVectorStats prisma s) ->
      (VectorStats.averageChunksPerDocument (getVectorStats prisma s)
       * IZR (VectorStats.totalDocuments (getVectorStats prisma s))
       = IZR (VectorStats.totalChunks (getVectorStats prisma s)))%R
      /\ (1 <= VectorStats.averageChunksPerDocument
                 (getVectorStats prisma s))%R).
Proof.
  destruct prisma as [| [|]]; unfold getVectorStats, getMemoryVectorStats;
    apply statsOf_facts.
Qed.

(* ================================================================== *)
(** ** Further properties: the in-process queue                        *)
(* ================================================================== *)

Section QueueFacts.

Lemma jobKey_inj (n m : Z) : jobKey n = jobKey m -> n = m.
Proof.
  unfold jobKey. intros H. apply app_inv_head in H.
  now apply numberToString_inj.
Qed.

Lemma status_eqb_true (a b : Status) : status_eqb a b = true <-> a = b.
Proof. destruct a, b; simpl; split; congruence. Qed.

Lemma updateJob_keys (k : jsstring) (f : MemoryJob.t -> MemoryJob.t)
      (jobs : jsmap MemoryJob.t) :
  map fst (updateJob k f jobs) = map fst jobs.
Proof.
  unfold updateJob. rewrite map_map. apply map_ext.
  intros e. now destruct (streq (fst e) k).
Qed.

Lemma updateJob_In (k : jsstring) (f : MemoryJob.t -> MemoryJob.t)
      (jobs : jsmap MemoryJob.t) (e : jsstring * MemoryJob.t) :
  In e (updateJob k f jobs) ->
  exists job, In (fst e, job) jobs
              /\ ((fst e <> k /\ snd e = job) \/ (fst e = k /\ snd e = f job)).
Proof.
  unfold updateJob. rewrite in_map_iff. intros [[k0 job] [He Hin]].
  simpl in He. destruct (streq k0 k) eqn:E; subst e; simpl; exists job.
  - apply streq_true in E. subst. auto.
  - split; [exact Hin | left]. split; [| reflexivity].
    intros ->. rewrite streq_refl in E. discriminate.
Qed.

(** An update that does not change what [p] sees leaves the filtered
    keys as they were. *)
Lemma updateJob_filter_keys (k : jsstring) (f : MemoryJob.t -> MemoryJob.t)
      (p : jsstring * MemoryJob.t -> bool) (jobs : jsmap MemoryJob.t) :
  (forall e, In e jobs -> fst e = k -> p (fst e, f (snd e)) = p e) ->
  map fst (filter p (updateJob k f jobs)) = map fst (filter p jobs).
Proof.
  unfold updateJob. intros H.
  induction jobs as [| e jobs IH]; simpl; [reflexivity |].
  assert (IH' := IH (fun x Hx => H x (or_intror Hx))).
  destruct (streq (fst e) k) eqn:E.
  - apply streq_true in E. rewrite (H e (or_introl eq_refl) E).
    destruct (p e); simpl; now rewrite IH'.
  - destruct (p e); simpl; now rewrite IH'.
Qed.


Lemma NoDup_keys_unique {V : Type} (m : jsmap V) (k : jsstring) (v v' : V) :
  NoDup (map fst m) -> In (k, v) m -> In (k, v') m -> v = v'.
Proof.
  induction m as [| e m IH]; simpl; [contradiction |].
  intros Hnd H1 H2. apply NoDup_cons_iff in Hnd as [Hnotin Hnd].
  destruct H1 as [-> | H1], H2 as [H2 | H2].
  - congruence.
  - exfalso. apply Hnotin. apply (in_map fst) in H2. exact H2.
  - subst e. exfalso. apply Hnotin. apply (in_map fst) in H1. exact H1.
  - now apply IH.
Qed.

Lemma mapGet_NoDup_In {V : Type} (m : jsmap V) (k : jsstring) (v : V) :
  NoDup (map fst m) -> In (k, v) m -> mapGet k m = Some v.
Proof.
  intros Hnd Hin. destruct (mapGet k m) as [v' |] eqn:Hget.
  - apply mapGet_In in Hget. f_equal.
    exact (NoDup_keys_unique m k v' v Hnd Hget Hin).
  - apply mapGet_None_keys in Hget. exfalso. apply Hget.
    apply (in_map fst) in Hin. exact Hin.
Qed.

Lemma mapGet_filter {V : Type} (f : jsstring * V -> bool) (m : jsmap V)
      (k : jsstring) :
  NoDup (map fst m) ->
  mapGet k (filter f m)
  = match mapGet k m with
    | Some v => if f (k, v) then Some v else None
    | None => None
    end.
Proof.
  intros Hnd. induction m as [| [k0 v0] m IH]; simpl; [reflexivity |].
  simpl in Hnd. apply NoDup_cons_iff in Hnd as [Hnotin Hnd].
  destruct (streq k0 k) eqn:E.
  - apply streq_true in E. subst k0.
    destruct (f (k, v0)); simpl; [now rewrite streq_refl |].
    rewrite (IH Hnd).
    destruct (mapGet k m) as [v |] eqn:Hget; [| reflexivity].
    apply mapGet_In in Hget. exfalso. apply Hnotin.
    apply (in_map fst) in Hget. exact Hget.
  - destruct (f (k0, v0)); simpl; [rewrite E |]; now apply IH.
Qed.

Lemma removeFirst_In (k : jsstring) (l : list jsstring) :
  In k l -> exists l', removeFirst k l = Some l'.
Proof.
  induction l as [| j l IH]; simpl; [contradiction |].
  destruct (streq j k) eqn:E; [eexists; reflexivity |].
  intros [-> | Hin]; [rewrite streq_refl in E; discriminate |].
  destruct (IH Hin) as [l' ->]. eexists. reflexivity.
Qed.

Lemma removeFirst_Some_In (k : jsstring) (l l' : list jsstring) :
  removeFirst k l = Some l' -> In k l.
Proof.
  revert l'. induction l as [| j l IH]; simpl; [discriminate |].
  intros l'. destruct (streq j k) eqn:E.
  - apply streq_true in E. now left.
  - destruct (removeFirst k l); [| discriminate]. intros _. right.
    now apply (IH l0).
Qed.

(** In a list without repetition, removing the first [k] removes [k]. *)
Lemma removeFirst_filter (k : jsstring) (l : list jsstring) :
  NoDup l ->
  forall l', removeFirst k l = Some l' ->
             l' = filter (fun j => negb (streq j k)) l.
Proof.
  induction l as [| j l IH]; simpl; intros Hnd l' H; [discriminate |].
  apply NoDup_cons_iff in Hnd as [Hnotin Hnd].
  destruct (streq j k) eqn:E; simpl.
  - injection H as <-. apply streq_true in E. subst j.
    symmetry. clear - Hnotin. induction l as [| x l IH]; [reflexivity |].
    simpl. destruct (streq x k) eqn:E.
    + apply streq_true in E. subst. exfalso. apply Hnotin. now left.
    + simpl. f_equal. apply IH. intros Hin. apply Hnotin. now right.
  - destruct (removeFirst k l) as [l0 |]; [| discriminate].
    injection H as <-. f_equal. now apply IH.
Qed.

Lemma filter_keys_commute (p : jsstring * MemoryJob.t -> bool) (k : jsstring)
      (jobs : jsmap MemoryJob.t) :
  map fst (filter p (mapDelete k jobs))
  = filter (fun j => negb (streq j k)) (map fst (filter p jobs)).
Proof.
  unfold mapDelete. induction jobs as [| e jobs IH]; simpl; [reflexivity |].
  destruct (streq (fst e) k) eqn:E; simpl.
  - destruct (p e); simpl; [rewrite E; simpl |]; exact IH.
  - destruct (p e); simpl; [rewrite E; simpl; f_equal |]; exact IH.
Qed.

Lemma filter_implied {A : Type} (p keep : A -> bool) (l : list A) :
  (forall x, In x l -> p x = true -> keep x = true) ->
  filter p (filter keep l) = filter p l.
Proof.
  induction l as [| x l IH]; intros H; simpl; [reflexivity |].
  assert (IH' := IH (fun y Hy => H y (or_intror Hy))).
  destruct (keep x) eqn:Ek; simpl.
  - destruct (p x); now rewrite IH'.
  - destruct (p x) eqn:Ep; [| exact IH'].
    rewrite (H x (or_introl eq_refl) Ep) in Ek. discriminate.
Qed.

Lemma NoDup_map_filter_keys (p : jsstring * MemoryJob.t -> bool)
      (jobs : jsmap MemoryJob.t) :
  NoDup (map fst jobs) -> NoDup (map fst (filter p jobs)).
Proof. apply NoDup_keys_filter. Qed.

(** The first entry that [p] selects, when the selected keys start with
    [k]. *)
Lemma filter_first_key (p : jsstring * MemoryJob.t -> bool) (k : jsstring)
      (rest : list jsstring) (jobs : jsmap MemoryJob.t) :
  map fst (filter p jobs) = k :: rest ->
  exists job, In (k, job) jobs /\ p (k, job) = true.
Proof.
  induction jobs as [| [k0 job0] jobs IH]; simpl; [discriminate |].
  destruct (p (k0, job0)) eqn:Ep; simpl.
  - intros H. injection H as -> _. exists job0. split; [now left | exact Ep].
  - intros H. destruct (IH H) as [job [Hin Hp]]. exists job.
    split; [now right | exact Hp].
Qed.

End QueueFacts.

Section QueueInvariant.

Lemma updateJob_absent (k : jsstring) (f : MemoryJob.t -> MemoryJob.t)
      (jobs : jsmap MemoryJob.t) :
  ~ In k (map fst jobs) -> updateJob k f jobs = jobs.
Proof.
  unfold updateJob. induction jobs as [| e jobs IH]; simpl; [reflexivity |].
  intros H. destruct (streq (fst e) k) eqn:E.
  - apply streq_true in E. tauto.
  - f_equal. apply IH. tauto.
Qed.

Lemma filter_keys_In (p : jsstring * MemoryJob.t -> bool) (k : jsstring)
      (jobs : jsmap MemoryJob.t) :
  In k (map fst (filter p jobs)) -> In k (map fst jobs).
Proof.
  intros H. apply in_map_iff in H. destruct H as [e [<- He]].
  apply filter_In in He as [He _]. now apply in_map.
Qed.

(** Making the first waiting job active takes it off the waiting jobs
    and, when no job was active, makes it the only active one. *)
Lemma activate_first (now : Z) (k : jsstring) (rest : list jsstring)
      (jobs : jsmap MemoryJob.t) :
  NoDup (map fst jobs) ->
  map fst (filter isWaiting jobs) = k :: rest ->
  map fst (filter isActive jobs) = [] ->
  map fst (filter isWaiting (updateJob k (setActive now) jobs)) = rest
  /\ map fst (filter isActive (updateJob k (setActive now) jobs)) = [k].
Proof.
  induction jobs as [| [k0 j0] jobs IH]; simpl; [discriminate |].
  intros Hnd Hw Ha. apply NoDup_cons_iff in Hnd as [Hnotin Hnd].
  unfold isWaiting at 1 in Hw. unfold isActive at 1 in Ha. simpl in Hw, Ha.
  destruct (status_eqb (MemoryJob.status j0) waiting) eqn:Ew.
  - simpl in Hw. injection Hw as -> Hw. rewrite streq_refl.
    fold (updateJob k (setActive now) jobs).
    rewrite (updateJob_absent k _ jobs Hnotin).
    apply status_eqb_true in Ew.
    assert (Hj : status_eqb (MemoryJob.status j0) active = false)
      by (rewrite Ew; reflexivity).
    rewrite Hj in Ha. simpl. split; [exact Hw | now rewrite Ha].
  - assert (Hk : streq k0 k = false).
    { destruct (streq k0 k) eqn:E; [| reflexivity].
      apply streq_true in E. subst k0. exfalso. apply Hnotin.
      apply (filter_keys_In isWaiting). rewrite Hw. now left. }
    rewrite Hk. fold (updateJob k (setActive now) jobs).
    destruct (status_eqb (MemoryJob.status j0) active) eqn:Eact;
      [discriminate |].
    unfold isWaiting at 1, isActive at 1. simpl. rewrite Ew, Eact.
    now apply IH.
Qed.

Lemma nextJob_ok (now : Z) (q : Queue) :
  NoDup (map fst (memoryJobs q)) ->
  (1 <= jobIdCounter q
   /\ forall k job, In (k, job) (memoryJobs q) ->
                    MemoryJob.id job = k
                    /\ exists n, 1 <= n < jobIdCounter q /\ k = jobKey n) ->
  memoryQueue q = map fst (filter isWaiting (memoryJobs q)) ->
  map fst (filter isActive (memoryJobs q)) = [] ->
  queueOk (nextJob now q).
Proof.
  intros Hnd [Hcnt Hkey] Hq Hact. unfold nextJob.
  destruct (memoryQueue q) as [| jobId rest] eqn:Equeue.
  - unfold queueOk. simpl.
    split; [exact Hnd | split; [split; [exact Hcnt | exact Hkey] | split;
      [exact Hq | split; [exact Hact | split; [reflexivity |]]]]].
    intros _. reflexivity.
  - symmetry in Hq.
    destruct (activate_first now jobId rest (memoryJobs q) Hnd Hq Hact)
      as [Hw Ha].
    unfold queueOk. simpl. rewrite updateJob_keys.
    split; [exact Hnd | split; [split; [exact Hcnt |] | split;
      [now rewrite Hw | split;
       [exact Ha | split; [reflexivity | discriminate]]]]].
    intros k job Hin. apply updateJob_In in Hin. simpl in Hin.
    destruct Hin as [job0 [Hin0 [[_ ->] | [_ ->]]]];
      destruct (Hkey _ _ Hin0) as [Hid Hn]; auto.
Qed.

Lemma active_entry (q : Queue) (jobId : jsstring) :
  queueOk q -> running q = Some jobId ->
  forall e, In e (memoryJobs q) ->
            (fst e = jobId -> isActive e = true /\ isWaiting e = false)
            /\ (isActive e = true -> fst e = jobId).
Proof.
  intros [Hnd [_ [_ [Hact _]]]] Hrun e He. rewrite Hrun in Hact.
  destruct (filter_first_key isActive jobId [] (memoryJobs q) Hact)
    as [job [Hin Hp]].
  split.
  - intros Hk. destruct e as [k j]. simpl in Hk. subst k.
    rewrite (NoDup_keys_unique _ _ j job Hnd He Hin).
    split; [exact Hp |]. unfold isActive, isWaiting in *. simpl in *.
    apply status_eqb_true in Hp. now rewrite Hp.
  - intros Hp'.
    assert (Hk : In (fst e) (map fst (filter isActive (memoryJobs q)))).
    { apply in_map. apply filter_In. auto. }
    rewrite Hact in Hk. destruct Hk as [<- | []]. reflexivity.
Qed.

Lemma settle_ok (o : outcome JobResult.t) (now : Z) (q : Queue) :
  queueOk q -> queueOk (settle o now q).
Proof.
  intros Hok. unfold settle.
  destruct (running q) as [jobId |] eqn:Hrun; [| exact Hok].
  pose proof (active_entry q jobId Hok Hrun) as Hentry.
  destruct Hok as [Hnd [[Hcnt Hkey] [Hq [Hact _]]]].
  set (finish := match o with
                 | Returned r => setCompleted r now
                 | Thrown message => setFailed message now
                 end).
  assert (Hfin : forall job,
             status_eqb (MemoryJob.status (finish job)) waiting = false
             /\ status_eqb (MemoryJob.status (finish job)) active = false
             /\ MemoryJob.id (finish job) = MemoryJob.id job)
    by (intros job; unfold finish; destruct o; simpl; auto).
  apply nextJob_ok; simpl.
  - now rewrite updateJob_keys.
  - split; [exact Hcnt |].
    intros k job Hin. apply updateJob_In in Hin. simpl in Hin.
    destruct Hin as [job0 [Hin0 [[_ ->] | [_ ->]]]];
      destruct (Hkey _ _ Hin0) as [Hid Hn]; [auto |].
    split; [| exact Hn]. destruct (Hfin job0) as [_ [_ ->]]. exact Hid.
  - rewrite Hq. symmetry. apply updateJob_filter_keys.
    intros e He Hk. destruct (Hentry e He) as [Hyes _].
    destruct (Hyes Hk) as [_ Hw]. rewrite Hw. unfold isWaiting. simpl.
    now destruct (Hfin (snd e)) as [-> _].
  - rewrite filter_none; [reflexivity |].
    intros e He. apply updateJob_In in He.
    destruct He as [job0 [Hin0 [[Hne Hsnd] | [_ Hsnd]]]].
    + destruct (isActive e) eqn:Ea; [| reflexivity].
      destruct (Hentry (fst e, job0) Hin0) as [_ Hkeyed].
      exfalso. apply Hne. apply Hkeyed. unfold isActive in *. simpl.
      now rewrite <- Hsnd.
    + unfold isActive. rewrite Hsnd. now destruct (Hfin job0) as [_ [-> _]].
Qed.

Lemma reportProgress_ok (p now : Z) (q : Queue) :
  queueOk q -> queueOk (reportProgress p now q).
Proof.
  intros Hok. unfold reportProgress.
  destruct (running q) as [jobId |] eqn:Hrun; [| exact Hok].
  destruct Hok as [Hnd [[Hcnt Hkey] [Hq [Hact [Hproc Hidle]]]]].
  unfold queueOk. simpl. rewrite updateJob_keys, Hrun in *.
  split; [exact Hnd | split; [split; [exact Hcnt |]
                             | split; [| split; [| split]]]];
    try assumption.
  - intros k job Hin. apply updateJob_In in Hin. simpl in Hin.
    destruct Hin as [job0 [Hin0 [[_ ->] | [_ ->]]]];
      destruct (Hkey _ _ Hin0) as [Hid Hn]; auto.
  - rewrite Hq. symmetry. now apply updateJob_filter_keys.
  - rewrite <- Hact. now apply updateJob_filter_keys.
Qed.

Lemma cleanupJobs_ok (now : Z) (q : Queue) :
  queueOk q -> queueOk (cleanupJobs now q).
Proof.
  intros [Hnd [[Hcnt Hkey] [Hq [Hact [Hproc Hidle]]]]].
  unfold queueOk, cleanupJobs. simpl.
  split; [now apply NoDup_keys_filter
         | split; [split; [exact Hcnt |] | split; [| split;
    [| split; assumption]]]].
  - intros k job Hin. apply filter_In in Hin as [Hin _]. now apply Hkey.
  - rewrite Hq. f_equal. symmetry. apply filter_implied.
    intros e _ Hw. unfold isWaiting in Hw. apply status_eqb_true in Hw.
    now rewrite Hw.
  - rewrite <- Hact. f_equal. apply filter_implied.
    intros e _ Ha. unfold isActive in Ha. apply status_eqb_true in Ha.
    now rewrite Ha.
Qed.

Lemma cancelJob_ok (jobId : jsstring) (q : Queue) :
  queueOk q -> queueOk (snd (cancelJob jobId q)).
Proof.
  intros Hok. unfold cancelJob.
  destruct (mapGet jobId (memoryJobs q)) as [job |] eqn:Hget; [| exact Hok].
  destruct (status_eqb (MemoryJob.status job) waiting) eqn:Ew;
    [| exact Hok].
  destruct (removeFirst jobId (memoryQueue q)) as [queue' |] eqn:Hrm;
    [| exact Hok].
  pose proof Hok as [Hnd [[Hcnt Hkey] [Hq [Hact [Hproc Hidle]]]]].
  apply mapGet_In in Hget.
  assert (Hqnd : NoDup (memoryQueue q))
    by (rewrite Hq; now apply NoDup_keys_filter).
  pose proof (removeFirst_filter _ _ Hqnd _ Hrm) as Hqueue.
  unfold queueOk. simpl.
  split; [unfold mapDelete; now apply NoDup_keys_filter |].
  split; [split; [exact Hcnt |]
         | split; [| split; [| split; [exact Hproc |]]]].
  - intros k j Hin. apply mapDelete_In in Hin as [Hin _]. now apply Hkey.
  - rewrite Hqueue, Hq. symmetry. apply filter_keys_commute.
  - rewrite filter_keys_commute, Hact.
    destruct (running q) as [r |] eqn:Hrun; [| reflexivity].
    simpl. destruct (streq r jobId) eqn:E; [| reflexivity].
    apply streq_true in E. subst r.
    destruct (active_entry q jobId Hok Hrun (jobId, job) Hget) as [Hyes _].
    destruct (Hyes eq_refl) as [_ Hw]. unfold isWaiting in Hw. simpl in Hw.
    congruence.
  - intros Hrun. specialize (Hidle Hrun). rewrite Hidle in Hrm.
    discriminate.
Qed.

Lemma addMemoryJob_ok (data : JobData.t) (now : Z) (q : Queue) :
  queueOk q -> queueOk (snd (addMemoryJob data now q)).
Proof.
  intros [Hnd [[Hcnt Hkey] [Hq [Hact [Hproc Hidle]]]]].
  unfold addMemoryJob. cbn [snd]. fold (jobKey (jobIdCounter q)).
  set (jobId := jobKey (jobIdCounter q)).
  set (job := {| MemoryJob.id := jobId; MemoryJob.data := data;
                 MemoryJob.status := waiting; MemoryJob.progress := 0;
                 MemoryJob.result := None; MemoryJob.error := None;
                 MemoryJob.createdAt := now; MemoryJob.updatedAt := now |}).
  assert (Hfresh : mapGet jobId (memoryJobs q) = None).
  { destruct (mapGet jobId (memoryJobs q)) as [j |] eqn:Hget;
      [| reflexivity].
    apply mapGet_In in Hget. destruct (Hkey _ _ Hget) as [_ [n [Hn Hk]]].
    apply jobKey_inj in Hk. lia. }
  rewrite (mapSet_fresh _ _ _ Hfresh).
  assert (Hnd' : NoDup (map fst (memoryJobs q ++ [(jobId, job)]))).
  { rewrite map_app. apply NoDup_app; [exact Hnd | repeat constructor;
      intros [] |].
    intros k Hin [<- | []]. now apply mapGet_None_keys in Hfresh. }
  assert (Hkey' : 1 <= jobIdCounter q + 1
                  /\ forall k j, In (k, j) (memoryJobs q ++ [(jobId, job)]) ->
                       MemoryJob.id j = k
                       /\ exists n, 1 <= n < jobIdCounter q + 1
                                    /\ k = jobKey n).
  { split; [lia |].
    intros k j Hin. apply in_app_or in Hin as [Hin | [Heq | []]].
    - destruct (Hkey _ _ Hin) as [Hid [n [Hn Hk]]].
      split; [exact Hid |]. exists n. split; [lia | exact Hk].
    - injection Heq as <- <-. split; [reflexivity |].
      exists (jobIdCounter q). split; [lia | reflexivity]. }
  assert (Hq' : memoryQueue q ++ [jobId]
                = map fst (filter isWaiting (memoryJobs q ++ [(jobId, job)])))
    by (rewrite filter_app, map_app, Hq; reflexivity).
  assert (Hact' : map fst (filter isActive (memoryJobs q ++ [(jobId, job)]))
                  = map fst (filter isActive (memoryJobs q)))
    by (rewrite filter_app, map_app; simpl; now rewrite app_nil_r).
  unfold processMemoryQueue. cbn [isProcessing memoryQueue].
  match goal with
  | |- context [?x =? 0] => destruct (x =? 0) eqn:Hlen
  end;
    [apply Z.eqb_eq in Hlen; unfold len in Hlen;
     rewrite length_app in Hlen; simpl in Hlen; lia |].
  rewrite orb_false_r.
  destruct (isProcessing q) eqn:Eproc.
  - unfold queueOk. simpl. rewrite Hact'.
    split; [exact Hnd' | split; [exact Hkey' | split; [exact Hq' | split;
      [exact Hact | split; [congruence |]]]]].
    intros Hrun. rewrite Hrun in Hproc. congruence.
  - apply nextJob_ok; simpl; try assumption.
    rewrite Hact', Hact. destruct (running q); [discriminate | reflexivity].
Qed.

(** The initial state and every operation keep [queueOk]. *)
Lemma apply_ok (q : Queue) (op : Op) : queueOk q -> queueOk (QueueService.apply q op).
Proof.
  intros Hok. destruct op; simpl.
  - now apply addMemoryJob_ok.
  - now apply cancelJob_ok.
  - now apply reportProgress_ok.
  - now apply settle_ok.
  - now apply cleanupJobs_ok.
Qed.

Lemma initial_ok : queueOk initial.
Proof.
  unfold queueOk, initial. simpl.
  repeat split; try constructor; try lia; intros k job [].
Qed.

Lemma run_ok (ops : list Op) : queueOk (run ops).
Proof.
  unfold run.
  assert (H : forall q, queueOk q -> queueOk (fold_left QueueService.apply ops q)).
  { induction ops as [| op ops IH]; intros q Hq; simpl; [exact Hq |].
    apply IH. now apply apply_ok. }
  apply H. apply initial_ok.
Qed.

End QueueInvariant.

Section QueueObservations.

Lemma fold_count_filters (jobs : jsmap MemoryJob.t) :
  forall st,
    Stats.waiting (fold_left count (mapValues jobs) st)
    = Stats.waiting st + len (filter isWaiting jobs)
    /\ Stats.active (fold_left count (mapValues jobs) st)
       = Stats.active st + len (filter isActive jobs).
Proof.
  unfold mapValues, len.
  induction jobs as [| [k job] jobs IH]; intros st; simpl; [lia |].
  destruct (IH (count st job)) as [Hw Ha]. rewrite Hw, Ha.
  unfold count, isWaiting, isActive. simpl.
  destruct (MemoryJob.status job); simpl; lia.
Qed.

Lemma mapGet_mapDelete (k k' : jsstring) (jobs : jsmap MemoryJob.t) :
  mapGet k' (mapDelete k jobs)
  = if streq k k' then None else mapGet k' jobs.
Proof.
  unfold mapDelete.
  induction jobs as [| [k0 job] jobs IH]; simpl;
    [now destruct (streq k k') |].
  destruct (streq k0 k) eqn:E; simpl.
  - apply streq_true in E. subst k0. rewrite IH.
    now destruct (streq k k').
  - destruct (streq k0 k') eqn:E'; [| exact IH].
    apply streq_true in E'. subst k0.
    destruct (streq k k') eqn:E2; [| reflexivity].
    apply streq_true in E2. subst k. rewrite streq_refl in E. discriminate.
Qed.


Lemma streq_sym (a b : jsstring) : streq a b = streq b a.
Proof.
  destruct (streq a b) eqn:E, (streq b a) eqn:E'; try reflexivity.
  - apply streq_true in E. subst. rewrite streq_refl in E'. discriminate.
  - apply streq_true in E'. subst. rewrite streq_refl in E. discriminate.
Qed.

Lemma streq_false (a b : jsstring) : a <> b -> streq a b = false.
Proof.
  intros H. destruct (streq a b) eqn:E; [| reflexivity].
  apply streq_true in E. contradiction.
Qed.

End QueueObservations.

(** X14.  After any sequence of submissions, cancellations, progress
    reports, settlements and clean-ups the queue is in order: job ids
    are distinct and each job sits under its own id; the queue lists
    exactly the waiting jobs, in the order of the table, which is the
    order of submission; the only active job is the running one; the
    processing flag is set exactly when a job runs; and when none runs,
    none waits. *)
Theorem queue_invariant (ops : list Op) : queueOk (run ops).
Proof. apply run_ok. Qed.

(** X15.  In every reachable state [getQueueStats] counts one active job
    while the drain loop is processing and none otherwise, counts as
    waiting the jobs of the queue, and counts no waiting job when the
    loop is idle. *)
Theorem getQueueStats_reachable (ops : list Op) :
  Stats.active (getQueueStats (run ops))
  = (if isProcessing (run ops) then 1 else 0)
  /\ Stats.waiting (getQueueStats (run ops)) = len (memoryQueue (run ops))
  /\ (isProcessing (run ops) = false ->
      Stats.waiting (getQueueStats (run ops)) = 0).
Proof.
  destruct (run_ok ops) as [_ [_ [Hq [Hact [Hproc Hidle]]]]].
  unfold getQueueStats.
  destruct (fold_count_filters (memoryJobs (run ops))
              {| Stats.waiting := 0; Stats.active := 0; Stats.completed := 0;
                 Stats.failed := 0; Stats.total := 0 |}) as [Hw Ha].
  rewrite Hw, Ha. simpl.
  assert (Hlenw : len (filter isWaiting (memoryJobs (run ops)))
                  = len (memoryQueue (run ops)))
    by (rewrite Hq; unfold len; now rewrite length_map).
  assert (Hlena : len (filter isActive (memoryJobs (run ops)))
                  = if isProcessing (run ops) then 1 else 0).
  { rewrite Hproc. unfold len.
    rewrite <- (length_map fst), Hact. now destruct (running (run ops)). }
  rewrite Hlenw, Hlena. split; [reflexivity | split; [reflexivity |]].
  intros Hfalse. rewrite Hfalse in Hproc.
  destruct (running (run ops)) eqn:Hrun; [discriminate |].
  now rewrite (Hidle eq_refl).
Qed.

(** X16.  In a reachable state [cancelJob] returns [true] exactly for a
    job that is waiting.  The job then leaves the table, so that its
    status is [null] afterwards, and the status of every other job is as
    before.  When [cancelJob] returns [false] nothing has changed: a job
    that is active, completed or failed cannot be cancelled. *)
Theorem cancelJob_reachable (ops : list Op) (jobId : jsstring) :
  (fst (cancelJob jobId (run ops)) = true <->
   exists st, getJobStatus jobId (run ops) = Some st
              /\ JobProgress.status st = waiting)
  /\ (fst (cancelJob jobId (run ops)) = true ->
      getJobStatus jobId (snd (cancelJob jobId (run ops))) = None
      /\ forall other,
          other <> jobId ->
          getJobStatus other (snd (cancelJob jobId (run ops)))
          = getJobStatus other (run ops))
  /\ (fst (cancelJob jobId (run ops)) = false ->
      snd (cancelJob jobId (run ops)) = run ops).
Proof.
  pose proof (run_ok ops) as Hok. set (q := run ops) in *.
  destruct Hok as [Hnd [_ [Hq _]]].
  unfold cancelJob, getJobStatus, getMemoryJobStatus.
  destruct (mapGet jobId (memoryJobs q)) as [job |] eqn:Hget.
  - destruct (status_eqb (MemoryJob.status job) waiting) eqn:Ew.
    + apply status_eqb_true in Ew.
      assert (Hin : In jobId (memoryQueue q)).
      { rewrite Hq. apply in_map_iff. exists (jobId, job).
        split; [reflexivity |]. apply filter_In.
        split; [now apply mapGet_In |]. unfold isWaiting. simpl.
        now rewrite Ew. }
      destruct (removeFirst_In _ _ Hin) as [queue' Hrm]. rewrite Hrm.
      simpl. split; [| split; [| discriminate]].
      * split; [| reflexivity]. intros _. eexists.
        split; [reflexivity | exact Ew].
      * intros _. rewrite mapGet_mapDelete, streq_refl.
        split; [reflexivity |]. intros other Hne.
        rewrite mapGet_mapDelete, streq_false by congruence. reflexivity.
    + simpl. split; [| split; [discriminate | reflexivity]].
      split; [discriminate |]. intros [st [Hst Hw]].
      injection Hst as <-. simpl in Hw. rewrite Hw in Ew. discriminate.
  - simpl. split; [| split; [discriminate | reflexivity]].
    split; [discriminate |]. intros [st [Hst _]]. discriminate.
Qed.


(** X18.  In a reachable state [cleanupJobs] removes the jobs that are
    completed and were last updated more than a day before, and no
    other: a waiting, active or failed job, and a completed job updated
    within the day, keeps its status record.  The queue and the running
    job are not touched, and a second clean-up at the same time changes
    nothing. *)
Theorem cleanupJobs_reachable (ops : list Op) (now : Z) (jobId : jsstring) :
  getJobStatus jobId (cleanupJobs now (run ops))
  = match getJobStatus jobId (run ops) with
    | Some st =>
        if status_eqb (JobProgress.status st) completed
           && (JobProgress.updatedAt st <? now - 24 * 60 * 60 * 1000)
        then None else Some st
    | None => None
    end
  /\ memoryQueue (cleanupJobs now (run ops)) = memoryQueue (run ops)
  /\ running (cleanupJobs now (run ops)) = running (run ops)
  /\ cleanupJobs now (cleanupJobs now (run ops)) = cleanupJobs now (run ops).
Proof.
  pose proof (run_ok ops) as Hok. set (q := run ops) in *.
  destruct Hok as [Hnd _].
  split; [| split; [reflexivity | split; [reflexivity |]]].
  - unfold getJobStatus, getMemoryJobStatus, cleanupJobs. cbn [memoryJobs].
    rewrite (mapGet_filter _ _ _ Hnd).
    destruct (mapGet jobId (memoryJobs q)) as [job |]; [| reflexivity].
    simpl.
    now destruct (status_eqb (MemoryJob.status job) completed
                  && (MemoryJob.updatedAt job <? now - 86400000)).
  - unfold cleanupJobs. cbn [memoryJobs memoryQueue isProcessing
                             jobIdCounter running].
    f_equal. apply filter_implied. auto.
Qed.

(* ================================================================== *)
(** ** Further properties: batches                                     *)
(* ================================================================== *)

Section Batches.

Lemma getMemoryJobStatus_progressOf (jobId : jsstring) (q : Queue) :
  getMemoryJobStatus jobId q
  = option_map progressOf (mapGet jobId (memoryJobs q)).
Proof.
  unfold getMemoryJobStatus.
  now destruct (mapGet jobId (memoryJobs q)).
Qed.

(** On a table without repeated ids, [getBatchStatus] maps the jobs of
    the batch to their status records. *)
Lemma getBatchStatus_map (batchId : jsstring) (q : Queue) :
  NoDup (map fst (memoryJobs q)) ->
  getBatchStatus batchId q
  = map (fun e => progressOf (snd e))
        (filter (fun e => inBatch batchId (snd e)) (memoryJobs q)).
Proof.
  intros Hnd. unfold getBatchStatus.
  assert (H : forall entries acc,
             (forall e, In e entries -> In e (memoryJobs q)) ->
             fold_left
               (fun jobs entry =>
                  if inBatch batchId (snd entry) then
                    match getMemoryJobStatus (fst entry) q with
                    | Some status => jobs ++ [status]
                    | None => jobs
                    end
                  else jobs)
               entries acc
             = acc ++ map (fun e => progressOf (snd e))
                          (filter (fun e => inBatch batchId (snd e)) entries)).
  { induction entries as [| [k job] entries IH]; intros acc Hsub; simpl.
    - now rewrite app_nil_r.
    - rewrite IH by (intros e He; apply Hsub; now right).
      destruct (inBatch batchId job); [| reflexivity].
      rewrite getMemoryJobStatus_progressOf.
      rewrite (mapGet_NoDup_In _ k job Hnd) by (apply Hsub; now left).
      simpl. now rewrite <- app_assoc. }
  now rewrite H.
Qed.

Lemma cancelJob_waiting (jobId : jsstring) (job : MemoryJob.t) (q : Queue) :
  queueOk q ->
  mapGet jobId (memoryJobs q) = Some job ->
  MemoryJob.status job = waiting ->
  fst (cancelJob jobId q) = true
  /\ memoryJobs (snd (cancelJob jobId q)) = mapDelete jobId (memoryJobs q).
Proof.
  intros [_ [_ [Hq _]]] Hget Hw. unfold cancelJob. rewrite Hget, Hw. simpl.
  assert (Hin : In jobId (memoryQueue q)).
  { rewrite Hq. apply in_map_iff. exists (jobId, job).
    split; [reflexivity |]. apply filter_In.
    split; [now apply mapGet_In |]. unfold isWaiting. simpl.
    now rewrite Hw. }
  destruct (removeFirst_In _ _ Hin) as [queue' ->]. auto.
Qed.

(** What the loop of the cancel route does with a list of status
    records with distinct ids, the waiting ones of which are waiting
    jobs of the table. *)
Lemma cancelJobs_spec (jobs : list JobProgress.t) :
  forall count q,
    queueOk q ->
    NoDup (map JobProgress.jobId jobs) ->
    (forall st, In st jobs -> hasStatus waiting st = true ->
                exists job, mapGet (JobProgress.jobId st) (memoryJobs q)
                            = Some job
                            /\ MemoryJob.status job = waiting) ->
    let result :=
      fold_left
        (fun '(cancelledCount, q) job =>
           if hasStatus waiting job then
             let '(cancelled, q') := cancelJob (JobProgress.jobId job) q in
             (if cancelled then cancelledCount + 1 else cancelledCount, q')
           else (cancelledCount, q))
        jobs (count, q) in
    fst result = count + len (filter (hasStatus waiting) jobs)
    /\ queueOk (snd result)
    /\ forall jobId,
        mapGet jobId (memoryJobs (snd result))
        = if existsb (fun st => hasStatus waiting st
                                && streq (JobProgress.jobId st) jobId) jobs
          then None else mapGet jobId (memoryJobs q).
Proof.
  induction jobs as [| st jobs IH]; intros count q Hok Hnd Hwait; simpl.
  - split; [unfold len; simpl; lia | split; [exact Hok | reflexivity]].
  - apply NoDup_cons_iff in Hnd as [Hnotin Hnd].
    destruct (hasStatus waiting st) eqn:Ew.
    + destruct (Hwait st (or_introl eq_refl) Ew) as [job [Hget Hw]].
      destruct (cancelJob_waiting _ _ _ Hok Hget Hw) as [Htrue Hjobs].
      pose proof (cancelJob_ok (JobProgress.jobId st) q Hok) as Hok'.
      destruct (cancelJob (JobProgress.jobId st) q) as [cancelled q'].
      simpl in Htrue, Hjobs, Hok'. subst cancelled.
      destruct (IH (count + 1) q' Hok' Hnd) as [Hcount [Hokr Hget']].
      * intros st' Hin' Hw'. destruct (Hwait st' (or_intror Hin') Hw')
          as [job' [Hg' Hs']].
        exists job'. split; [| exact Hs']. rewrite Hjobs, mapGet_mapDelete.
        rewrite streq_false; [exact Hg' |]. intros Heq. apply Hnotin.
        rewrite Heq. now apply in_map.
      * split; [| split; [exact Hokr |]].
        -- rewrite Hcount. unfold len. simpl List.length. lia.
        -- intros jobId. rewrite Hget', Hjobs, mapGet_mapDelete. simpl.
           destruct (existsb _ jobs); [now rewrite orb_true_r |].
           now rewrite orb_false_r.
    + destruct (IH count q Hok Hnd) as [Hcount [Hokr Hget']].
      * intros st' Hin' Hw'. now apply (Hwait st' (or_intror Hin') Hw').
      * split; [exact Hcount | split; [exact Hokr |]].
        intros jobId. now rewrite Hget'.
Qed.

Lemma percent_bounds (i n : Z) :
  0 < n -> 0 <= i <= n -> 0 <= percent i n <= 100.
Proof.
  intros Hn Hi. unfold percent. split.
  - apply Z.div_pos; lia.
  - assert (H : (2 * (100 * i) + n) / (2 * n) < 101)
      by (apply Z.div_lt_upper_bound; lia).
    lia.
Qed.

Lemma sumOf_from (f : JobProgress.t -> Z) (jobs : list JobProgress.t) :
  forall a, fold_left (fun sum job => sum + f job) jobs a
            = a + sumOf f jobs.
Proof.
  unfold sumOf. induction jobs as [| j jobs IH]; intros a; simpl; [lia |].
  rewrite (IH (a + f j)), (IH (f j)). lia.
Qed.

Lemma sumOf_cons (f : JobProgress.t -> Z) (j : JobProgress.t)
      (jobs : list JobProgress.t) :
  sumOf f (j :: jobs) = f j + sumOf f jobs.
Proof. unfold sumOf at 1. simpl. rewrite sumOf_from. lia. Qed.

Lemma sumOf_le (jobs : list JobProgress.t) :
  Forall (fun j => 0 <= JobProgress.processed j <= JobProgress.total j) jobs ->
  0 <= sumOf JobProgress.processed jobs <= sumOf JobProgress.total jobs.
Proof.
  induction 1 as [| j jobs Hj _ IH]; [unfold sumOf; simpl; lia |].
  rewrite !sumOf_cons. lia.
Qed.

End Batches.

(** X19.  In a reachable state [getBatchStatus] returns one record for
    each job of the batch, in the order of the table; each record
    carries the batch id and is the record that [getJobStatus] returns
    for its job id. *)
Theorem getBatchStatus_reachable (ops : list Op) (batchId : jsstring) :
  getBatchStatus batchId (run ops)
  = map (fun e => progressOf (snd e))
        (filter (fun e => inBatch batchId (snd e)) (memoryJobs (run ops)))
  /\ forall st,
      In st (getBatchStatus batchId (run ops)) ->
      JobProgress.batchId st = Some batchId
      /\ getJobStatus (JobProgress.jobId st) (run ops) = Some st.
Proof.
  destruct (run_ok ops) as [Hnd [[_ Hkey] _]].
  rewrite (getBatchStatus_map _ _ Hnd). split; [reflexivity |].
  intros st Hst. apply in_map_iff in Hst.
  destruct Hst as [[k job] [<- Hin]]. apply filter_In in Hin as [Hin Hb].
  simpl in *. split.
  - unfold inBatch in Hb.
    destruct (JobData.batchId (MemoryJob.data job)) as [b |];
      [| discriminate].
    apply streq_true in Hb. now subst.
  - destruct (Hkey _ _ Hin) as [Hid _]. rewrite Hid.
    unfold getJobStatus. rewrite getMemoryJobStatus_progressOf.
    now rewrite (mapGet_NoDup_In _ k job Hnd Hin).
Qed.

(** X20.  In a reachable state the cancel route of a batch cancels the
    waiting jobs of the batch and nothing else: the count it reports is
    the number of waiting jobs of the batch; afterwards the batch has no
    waiting job; a job that is of another batch, or not waiting, keeps
    its status record; and the queue is in order. *)
Theorem cancelBatch_reachable (ops : list Op) (batchId : jsstring) :
  fst (cancelBatch batchId (run ops))
  = len (filter (hasStatus waiting) (getBatchStatus batchId (run ops)))
  /\ queueOk (snd (cancelBatch batchId (run ops)))
  /\ (forall st,
         In st (getBatchStatus batchId (snd (cancelBatch batchId (run ops)))) ->
         JobProgress.status st <> waiting)
  /\ (forall jobId st,
         getJobStatus jobId (run ops) = Some st ->
         waitingIn batchId st = false ->
         getJobStatus jobId (snd (cancelBatch batchId (run ops))) = Some st).
Proof.
  pose proof (run_ok ops) as Hok. set (q := run ops) in *.
  pose proof Hok as [Hnd [[_ Hkey] _]].
  pose proof (getBatchStatus_map batchId q Hnd) as Hbatch.
  assert (Hids : NoDup (map JobProgress.jobId (getBatchStatus batchId q))).
  { rewrite Hbatch, map_map.
    assert (Hsame : map (fun e => JobProgress.jobId (progressOf (snd e)))
                        (filter (fun e => inBatch batchId (snd e))
                                (memoryJobs q))
                    = map fst (filter (fun e => inBatch batchId (snd e))
                                      (memoryJobs q))).
    { apply map_ext_in. intros [k job] Hin. apply filter_In in Hin as [Hin _].
      simpl. now destruct (Hkey _ _ Hin). }
    rewrite Hsame. now apply NoDup_keys_filter. }
  assert (Hwait : forall st,
             In st (getBatchStatus batchId q) ->
             hasStatus waiting st = true ->
             exists job, mapGet (JobProgress.jobId st) (memoryJobs q)
                         = Some job
                         /\ MemoryJob.status job = waiting).
  { intros st Hst Hw. rewrite Hbatch in Hst. apply in_map_iff in Hst.
    destruct Hst as [[k job] [<- Hin]]. apply filter_In in Hin as [Hin _].
    exists job. simpl. destruct (Hkey _ _ Hin) as [-> _].
    split; [now apply mapGet_NoDup_In |].
    unfold hasStatus in Hw. simpl in Hw. now apply status_eqb_true in Hw. }
  destruct (cancelJobs_spec (getBatchStatus batchId q) 0 q Hok Hids Hwait)
    as [Hcount [Hokr Hget]].
  fold (cancelJobs (getBatchStatus batchId q) q) in Hcount, Hokr, Hget.
  fold (cancelBatch batchId q) in Hcount, Hokr, Hget.
  split; [rewrite Hcount; lia | split; [exact Hokr | split]].
  - intros st Hst Hw.
    pose proof Hokr as [Hnd' [[_ Hkey'] _]].
    rewrite (getBatchStatus_map _ _ Hnd') in Hst. apply in_map_iff in Hst.
    destruct Hst as [[k job] [<- Hin]]. apply filter_In in Hin as [Hin Hb].
    simpl in Hw, Hb.
    pose proof (mapGet_NoDup_In _ k job Hnd' Hin) as Hg.
    rewrite Hget in Hg.
    destruct (existsb _ (getBatchStatus batchId q)) eqn:Ex; [discriminate |].
    assert (Hex : existsb (fun st => hasStatus waiting st
                                     && streq (JobProgress.jobId st) k)
                          (getBatchStatus batchId q) = true).
    { apply existsb_exists. exists (progressOf job). split.
      - rewrite Hbatch. apply in_map_iff. exists (k, job).
        split; [reflexivity |]. apply filter_In.
        split; [now apply mapGet_In | exact Hb].
      - unfold hasStatus. simpl. rewrite Hw. simpl.
        destruct (Hkey' _ _ Hin) as [-> _]. apply streq_refl. }
    congruence.
  - intros jobId st Hst Hnot.
    unfold getJobStatus in *. rewrite getMemoryJobStatus_progressOf in *.
    rewrite Hget.
    destruct (mapGet jobId (memoryJobs q)) as [job |] eqn:Hg;
      [| discriminate].
    simpl in Hst. injection Hst as <-.
    destruct (existsb _ (getBatchStatus batchId q)) eqn:Ex; [| reflexivity].
    apply existsb_exists in Ex. destruct Ex as [st' [Hin' Hc]].
    apply andb_prop in Hc as [Hw' Hk']. apply streq_true in Hk'.
    rewrite Hbatch in Hin'. apply in_map_iff in Hin'.
    destruct Hin' as [[k' job'] [<- Hin']].
    apply filter_In in Hin' as [Hin' Hb']. simpl in *.
    destruct (Hkey _ _ Hin') as [Hid' _]. rewrite Hid' in Hk'. subst k'.
    apply mapGet_In in Hg.
    rewrite (NoDup_keys_unique _ _ job job' Hnd Hg Hin') in Hnot.
    unfold waitingIn in Hnot. simpl in Hnot. unfold inBatch in Hb'.
    destruct (JobData.batchId (MemoryJob.data job')); [| discriminate].
    rewrite Hb' in Hnot. unfold hasStatus in *. simpl in *.
    rewrite Hw' in Hnot. discriminate.
Qed.

(** X21.  The overview of a batch: the status is completed exactly when
    every job is completed, and otherwise partial exactly when some job
    has failed; and when every job has processed at most its total,
    the progress is between 0 and 100. *)
Theorem batchOverview_facts (jobs : list JobProgress.t) :
  (BatchOverview.status (batchOverview jobs) = batch_completed <->
   Forall (fun j => JobProgress.status j = completed) jobs)
  /\ (BatchOverview.status (batchOverview jobs) = batch_partial <->
      Exists (fun j => JobProgress.status j <> completed) jobs
      /\ Exists (fun j => JobProgress.status j = failed) jobs)
  /\ (Forall (fun j => 0 <= JobProgress.processed j <= JobProgress.total j)
             jobs ->
      0 <= BatchOverview.progress (batchOverview jobs) <= 100).
Proof.
  unfold batchOverview. simpl.
  assert (Hall : forallb (hasStatus completed) jobs = true <->
                 Forall (fun j => JobProgress.status j = completed) jobs).
  { rewrite forallb_forall, Forall_forall. unfold hasStatus.
    split; intros H j Hj; apply status_eqb_true; now apply H. }
  assert (Hfail : existsb (hasStatus failed) jobs = true <->
                  Exists (fun j => JobProgress.status j = failed) jobs).
  { rewrite existsb_exists, Exists_exists. unfold hasStatus.
    split; intros [j [Hj Hs]]; exists j; split; try assumption;
      now apply status_eqb_true. }
  assert (Hnotall : forallb (hasStatus completed) jobs = false <->
                    Exists (fun j => JobProgress.status j <> completed) jobs).
  { rewrite Exists_exists. split.
    - clear Hall Hfail. intros H.
      induction jobs as [| j jobs IH]; [discriminate |].
      simpl in H. apply andb_false_iff in H as [H | H].
      + exists j. split; [now left |]. intros Hc. unfold hasStatus in H.
        rewrite Hc in H. discriminate.
      + destruct (IH H) as [x [Hx Hs]].
        exists x. split; [now right | exact Hs].
    - intros [j [Hj Hs]]. destruct (forallb _ jobs) eqn:E; [| reflexivity].
      rewrite forallb_forall in E. specialize (E j Hj).
      unfold hasStatus in E. now apply status_eqb_true in E. }
  split; [| split].
  - rewrite <- Hall. destruct (forallb _ jobs); [tauto |].
    split; [| discriminate].
    destruct (existsb (hasStatus failed) jobs);
      [discriminate | destruct (existsb (hasStatus active) jobs)];
      discriminate.
  - rewrite <- Hnotall, <- Hfail. destruct (forallb _ jobs).
    + split; [discriminate | intros [H _]; discriminate].
    + destruct (existsb (hasStatus failed) jobs); [tauto |].
      split; [| intros [_ H]; discriminate].
      destruct (existsb (hasStatus active) jobs); discriminate.
  - intros Hjobs. pose proof (sumOf_le jobs Hjobs) as Hle.
    destruct (0 <? sumOf JobProgress.total jobs) eqn:E; [| lia].
    apply Z.ltb_lt in E. now apply percent_bounds.
Qed.

(* ================================================================== *)
(** ** Further properties: the chunks of a text                        *)
(* ================================================================== *)

Section Chunks.

Lemma dropWhile_split {A : Type} (p : A -> bool) (l : list A) :
  exists a, l = a ++ dropWhile p l /\ Forall (fun x => p x = true) a.
Proof.
  induction l as [| x l [a [Hl Ha]]]; simpl.
  - exists []. split; [reflexivity | constructor].
  - destruct (p x) eqn:E.
    + exists (x :: a). split; [simpl; now rewrite <- Hl | now constructor].
    + exists []. split; [reflexivity | constructor].
Qed.

Lemma dropWhile_idem {A : Type} (p : A -> bool) (l : list A) :
  dropWhile p (dropWhile p l) = dropWhile p l.
Proof.
  induction l as [| x l IH]; simpl; [reflexivity |].
  destruct (p x) eqn:E; [exact IH | simpl; now rewrite E].
Qed.

Lemma dropWhile_hd {A : Type} (p : A -> bool) (l : list A) x r :
  dropWhile p l = x :: r -> p x = false.
Proof.
  induction l as [| y l IH]; simpl; [discriminate |].
  destruct (p y) eqn:E; [exact IH |].
  intros H. injection H as <- _. exact E.
Qed.

(** [trim] strips white space from both ends and nothing else. *)
Lemma trim_split (l : jsstring) :
  exists a b, l = a ++ trim l ++ b
              /\ Forall (fun c => isWhiteSpace c = true) a
              /\ Forall (fun c => isWhiteSpace c = true) b.
Proof.
  unfold trim, trimEnd, trimStart.
  destruct (dropWhile_split isWhiteSpace l) as [a [Hl Ha]].
  destruct (dropWhile_split isWhiteSpace (rev (dropWhile isWhiteSpace l)))
    as [b [Hd Hb]].
  exists a, (rev b). split; [| split; [exact Ha | now apply Forall_rev]].
  rewrite <- rev_app_distr, <- Hd, rev_involutive. exact Hl.
Qed.

Lemma trim_idem (l : jsstring) : trim (trim l) = trim l.
Proof.
  unfold trim, trimEnd, trimStart.
  set (d := dropWhile isWhiteSpace l).
  set (r := dropWhile isWhiteSpace (rev d)).
  assert (Hfront : dropWhile isWhiteSpace (rev r) = rev r).
  { destruct (rev r) as [| x t] eqn:Et; [reflexivity |].
    destruct (dropWhile_split isWhiteSpace (rev d)) as [a [Hd _]].
    fold r in Hd. apply (f_equal (@rev Z)) in Hd.
    rewrite rev_involutive, rev_app_distr, Et in Hd.
    unfold d in Hd. simpl in Hd. apply dropWhile_hd in Hd.
    simpl. now rewrite Hd. }
  rewrite Hfront, rev_involutive. unfold r.
  now rewrite dropWhile_idem.
Qed.

(** A slice is the part of the list between its two indices. *)
Lemma slice_split {A : Type} (l : list A) (s e : Z) :
  0 <= s -> 0 <= e ->
  exists pre post,
    l = pre ++ slice l s e ++ post
    /\ len pre = Z.min s (len l)
    /\ len (slice l s e) = Z.max 0 (Z.min e (len l) - Z.min s (len l)).
Proof.
  intros Hs He. unfold slice, relIndex.
  destruct (s <? 0) eqn:Es; [apply Z.ltb_lt in Es; lia |].
  destruct (e <? 0) eqn:Ee; [apply Z.ltb_lt in Ee; lia |].
  set (from := Z.to_nat (Z.min s (len l))).
  set (n := Z.to_nat (Z.min e (len l) - Z.min s (len l))).
  exists (firstn from l), (skipn n (skipn from l)).
  split; [| split].
  - now rewrite firstn_skipn, firstn_skipn.
  - unfold len in *. rewrite length_firstn. lia.
  - unfold len in *. rewrite length_firstn, length_skipn. lia.
Qed.

Lemma lastIndexFrom_le (ch : Z) (l : list Z) :
  forall i acc bound,
    acc <= bound -> i + len l - 1 <= bound ->
    lastIndexFrom ch l i acc <= bound.
Proof.
  induction l as [| c l IH]; intros i acc bound Hacc Hlen; simpl;
    [exact Hacc |].
  unfold len in *. simpl List.length in Hlen.
  apply IH; [destruct (c =? ch); lia | lia].
Qed.

Lemma lastIndexOf_le (text : jsstring) (ch fromIndex : Z) :
  0 <= fromIndex -> lastIndexOf text ch fromIndex <= fromIndex.
Proof.
  intros H. unfold lastIndexOf. apply lastIndexFrom_le; [lia |].
  unfold len. rewrite length_firstn. lia.
Qed.

(** The window of an iteration ends beyond the overlap and at most one
    code unit beyond [CHUNK_SIZE]. *)
Lemma windowEnd_bounds (text : jsstring) (start : Z) :
  0 <= start ->
  start + CHUNK_OVERLAP < windowEnd text start <= start + CHUNK_SIZE + 1.
Proof.
  intros Hs. pose proof (nextStart_progress text start) as Hp.
  unfold nextStart in Hp. split; [lia |].
  unfold windowEnd. destruct (snapped text start); [| lia].
  unfold breakPoint.
  assert (H0 : 0 <= start + CHUNK_SIZE) by (unfold CHUNK_SIZE; lia).
  pose proof (lastIndexOf_le text 46 _ H0).
  pose proof (lastIndexOf_le text 10 _ H0).
  pose proof (lastIndexOf_le text 32 _ H0). lia.
Qed.

Lemma window_chunk (text : jsstring) (start : Z) :
  0 <= start ->
  chunkOf text (trim (slice text start (windowEnd text start))).
Proof.
  intros Hs. pose proof (windowEnd_bounds text start Hs) as Hw.
  assert (He : 0 <= windowEnd text start)
    by (unfold CHUNK_OVERLAP in Hw; lia).
  destruct (slice_split text start _ Hs He) as [pre [post [Ht [_ Hlen]]]].
  destruct (trim_split (slice text start (windowEnd text start)))
    as [a [b [Hsl _]]].
  split; [| split; [apply trim_idem |]].
  - assert (Hle : len (trim (slice text start (windowEnd text start)))
                  <= len (slice text start (windowEnd text start))).
    { rewrite Hsl at 2. unfold len. rewrite !length_app. lia. }
    unfold CHUNK_OVERLAP in Hw. lia.
  - exists (pre ++ a), (b ++ post). rewrite Ht at 1. rewrite Hsl at 1.
    now rewrite <- !app_assoc.
Qed.

Lemma window_covers (text : jsstring) (s e : Z) (p : nat) (c : Z) :
  0 <= s -> s <= Z.of_nat p < e ->
  nth_error text p = Some c -> isWhiteSpace c = false ->
  covers text (trim (slice text s e)) p.
Proof.
  intros Hs Hp Hnth Hc.
  assert (Hlt : (p < List.length text)%nat)
    by (apply nth_error_Some; congruence).
  destruct (slice_split text s e Hs ltac:(lia))
    as [pre [post [Ht [Hpre Hlen]]]].
  destruct (trim_split (slice text s e)) as [a [b [Hsl [Ha Hb]]]].
  set (t := trim (slice text s e)) in *.
  assert (Hsum : (List.length pre + List.length a + List.length t
                  + List.length b + List.length post
                  = List.length text)%nat).
  { pose proof (f_equal (@List.length Z) Ht) as H1.
    pose proof (f_equal (@List.length Z) Hsl) as H2.
    rewrite !length_app in H1, H2. lia. }
  assert (Hsl_len : (List.length (slice text s e)
                     = List.length a + List.length t + List.length b)%nat).
  { pose proof (f_equal (@List.length Z) Hsl) as H2.
    rewrite !length_app in H2. lia. }
  unfold len in Hpre, Hlen.
  assert (Hnotws : forall l, Forall (fun c => isWhiteSpace c = true) l ->
                             ~ In c l).
  { intros l Hl Hin. rewrite Forall_forall in Hl. apply Hl in Hin.
    congruence. }
  rewrite Ht, Hsl in Hnth.
  rewrite nth_error_app2 in Hnth by lia.
  exists (pre ++ a), (b ++ post). split.
  - rewrite Ht at 1. rewrite Hsl at 1. now rewrite <- !app_assoc.
  - rewrite length_app.
    destruct (Nat.lt_ge_cases (p - List.length pre) (List.length a))
      as [Hin | Hge].
    + rewrite <- app_assoc, nth_error_app1 in Hnth by lia.
      apply nth_error_In in Hnth. now apply Hnotws in Hnth.
    + rewrite <- !app_assoc, nth_error_app2 in Hnth by lia.
      destruct (Nat.lt_ge_cases (p - List.length pre - List.length a)
                                (List.length t)) as [Hin | Hge'];
        [lia |].
      rewrite nth_error_app2 in Hnth by lia.
      rewrite nth_error_app1 in Hnth by lia.
      apply nth_error_In in Hnth. now apply Hnotws in Hnth.
Qed.

Lemma splitLoop_chunkOf (fuel : nat) :
  forall text start chunks result,
    0 <= start ->
    splitLoop fuel text start chunks = Some result ->
    Forall (chunkOf text) chunks -> Forall (chunkOf text) result.
Proof.
  induction fuel as [| fuel IH]; intros text start chunks result Hs Hrun Hall.
  - simpl in Hrun. destruct (start <? len text); [discriminate |].
    now injection Hrun as <-.
  - destruct (Z_lt_ge_dec start (len text)) as [Hlt | Hge].
    + rewrite splitLoop_step in Hrun by assumption.
      pose proof (nextStart_progress text start) as Hp.
      apply (IH text (nextStart text start) _ _ ltac:(lia) Hrun).
      apply Forall_app. split; [exact Hall |].
      constructor; [now apply window_chunk | constructor].
    + rewrite splitLoop_done in Hrun by lia. now injection Hrun as <-.
Qed.

Lemma splitLoop_covers (fuel : nat) :
  forall text start chunks result done,
    0 <= start <= done ->
    splitLoop fuel text start chunks = Some result ->
    (forall p c, Z.of_nat p < done -> nth_error text p = Some c ->
                 isWhiteSpace c = false ->
                 exists chunk, In chunk chunks /\ covers text chunk p) ->
    forall p c, nth_error text p = Some c -> isWhiteSpace c = false ->
                exists chunk, In chunk result /\ covers text chunk p.
Proof.
  induction fuel as [| fuel IH];
    intros text start chunks result done Hs Hrun Hcov p c Hnth Hc.
  - simpl in Hrun. destruct (start <? len text) eqn:E; [discriminate |].
    injection Hrun as <-. apply Z.ltb_ge in E.
    apply (Hcov p c); try assumption.
    assert ((p < List.length text)%nat) by (apply nth_error_Some; congruence).
    unfold len in E. lia.
  - destruct (Z_lt_ge_dec start (len text)) as [Hlt | Hge].
    + rewrite splitLoop_step in Hrun by assumption.
      pose proof (windowEnd_bounds text start ltac:(lia)) as Hw.
      assert (Hnext : 0 <= nextStart text start <= windowEnd text start)
        by (unfold nextStart, CHUNK_OVERLAP in *; lia).
      apply (IH text (nextStart text start) _ _ (windowEnd text start)
                Hnext Hrun) with (c := c); try assumption.
      intros p' c' Hp' Hnth' Hc'.
      destruct (Z_lt_ge_dec (Z.of_nat p') done) as [Hold | Hnew].
      * destruct (Hcov p' c' Hold Hnth' Hc') as [chunk [Hin Hcv]].
        exists chunk. split; [apply in_or_app; now left | exact Hcv].
      * exists (trim (slice text start (windowEnd text start))).
        split; [apply in_or_app; right; now left |].
        apply (window_covers _ _ _ _ c'); try assumption; lia.
    + rewrite splitLoop_done in Hrun by lia. injection Hrun as <-.
      apply (Hcov p c); try assumption.
      assert ((p < List.length text)%nat)
        by (apply nth_error_Some; congruence).
      unfold len in Hge. lia.
Qed.

End Chunks.

(** X22.  [splitText] returns, and every chunk it returns is a part of
    the text, trimmed, not empty, and at most [CHUNK_SIZE + 1] code units
    long. *)
Theorem splitText_chunks_of_text (text : jsstring) :
  match splitText text with
  | Some chunks =>
      Forall (fun chunk => chunkOf text chunk /\ 1 <= len chunk) chunks
  | None => False
  end.
Proof.
  unfold splitText, splitText_fuel.
  destruct (len text =? 0); [constructor |].
  destruct (splitLoop_enough_fuel (List.length text) text 0 [])
    as [result Hr]; [unfold len; lia |].
  rewrite Hr. simpl.
  pose proof (splitLoop_chunkOf _ _ _ _ _ (Z.le_refl 0) Hr (Forall_nil _))
    as Hall.
  rewrite Forall_forall in *. intros chunk Hin.
  apply filter_In in Hin as [Hin Hne].
  split; [now apply Hall |]. unfold nonEmpty in Hne.
  apply Z.ltb_lt in Hne. lia.
Qed.

(** The bound on the length of a chunk is reached: a sentence end at
    index [CHUNK_SIZE] gives a chunk of [CHUNK_SIZE + 1] code units. *)
Example splitText_long_chunk :
  option_map (map len)
             (splitText (repeat 97 1000 ++ [46] ++ repeat 97 9))
  = Some [1001; 209].
Proof. vm_compute. reflexivity. Qed.

(** X23.  [splitText] loses no text: every code unit of the text that
    is not white space lies in a chunk, at its place in the text. *)
Theorem splitText_covers_text (text : jsstring) :
  match splitText text with
  | Some chunks =>
      forall p c,
        nth_error text p = Some c -> isWhiteSpace c = false ->
        exists chunk, In chunk chunks /\ covers text chunk p
  | None => False
  end.
Proof.
  unfold splitText, splitText_fuel.
  destruct (len text =? 0) eqn:E.
  - apply Z.eqb_eq in E. apply len_nil_inv in E. subst text.
    intros [| p] c H; discriminate.
  - destruct (splitLoop_enough_fuel (List.length text) text 0 [])
      as [result Hr]; [unfold len; lia |].
    rewrite Hr. simpl. intros p c Hnth Hc.
    assert (H0 : 0 <= 0 <= 0) by lia.
    assert (Hnone : forall (p : nat) (c : Z),
               Z.of_nat p < 0 -> nth_error text p = Some c ->
               isWhiteSpace c = false ->
               exists chunk, In chunk (@nil jsstring) /\ covers text chunk p)
      by (intros; lia).
    destruct (splitLoop_covers _ _ _ _ _ 0 H0 Hr Hnone p c Hnth Hc)
      as [chunk [Hin Hcv]].
    exists chunk. split; [| exact Hcv]. apply filter_In.
    split; [exact Hin |]. destruct Hcv as [pre [post [_ Hp]]].
    unfold nonEmpty, len. apply Z.ltb_lt. lia.
Qed.

(* ================================================================== *)
(** ** Further properties: similarity of fallback embeddings           *)
(* ================================================================== *)



(* ================================================================== *)
(** ** Further properties: what fails a file                           *)
(* ================================================================== *)

(** X25.  A file of a job fails exactly when reading it or creating its
    document throws, and then its entry carries the message.  Otherwise
    the file is completed, whatever vectorization and the removal of the
    temporary file do: [vectorized] is [true] whenever vectorization
    returned (whatever it returned), [false] when it threw, and absent
    when vectorization was not asked for or the text is empty. *)
Theorem processFile_outcome
        (World : Type)
        (readFileSync : jsstring -> M World jsstring)
        (pdfParse : jsstring -> M World (Z * jsstring))
        (createDocument : NewDocument.t -> M World Document.t)
        (processDocumentVectorization : jsstring -> jsstring -> M World bool)
        (unlinkSync : jsstring -> M World unit)
        (data : JobData.t) (file : FileInfo.t) (w : World) :
  let run := processFile World readFileSync pdfParse createDocument
                         processDocumentVectorization unlinkSync data file w in
  match readContent World readFileSync pdfParse file w with
  | (Thrown message, w1) => run = (Returned (failedEntry file message), w1)
  | (Returned content, w1) =>
      match createDocument (newDocumentOf data file content) w1 with
      | (Thrown message, w2) =>
          run = (Returned (failedEntry file message), w2)
      | (Returned document, w2) =>
          exists entry w3,
            run = (Returned entry, w3)
            /\ FileResult.status entry = completed
            /\ FileResult.document entry = Some document
            /\ FileResult.error entry = None
            /\ FileResult.vectorized entry
               = if Options.vectorize (optionsOf data)
                    && (0 <? len (fst content))
                 then match processDocumentVectorization
                              (Document.id document) (fst content) w2 with
                      | (Returned _, _) => Some true
                      | (Thrown _, _) => Some false
                      end
                 else None
      end
  end.
Proof.
  intros run. subst run.
  cbv beta zeta delta [processFile processFileBody tryCatch bind ret].
  destruct (readContent World readFileSync pdfParse file w)
    as [[content | message] w1]; [| reflexivity].
  cbv beta.
  change (createDocument _ w1)
    with (createDocument (newDocumentOf data file content) w1).
  destruct (createDocument (newDocumentOf data file content) w1)
    as [[document | message] w2]; [| reflexivity].
  destruct (Options.vectorize (optionsOf data) && (0 <? len (fst content)));
    [destruct (processDocumentVectorization (Document.id document)
                                            (fst content) w2)
      as [[b | message] w3] |];
    (destruct (Options.deleteAfterProcessing (optionsOf data));
     [match goal with
      | |- context [unlinkSync ?path ?w0] =>
          destruct (unlinkSync path w0) as [[[] | message'] w4]
      end |]);
    eexists; eexists; repeat split.
Qed.
